(** * Tabular Monte Carlo methods on the grid world

    A shallow embedding of the two notebooks of chapter 5:

    - [1-monte-carlo-prediction]: [generate_random_episode], [value_array],
      [first_visit_mc], [every_visit_mc];
    - [2-monte-carlo-exploring-starts]: the three policy generators,
      [state_action_value], both definitions of [generate_episode] and
      [monte_carlo_es].

    Numbers.  Python floats are idealised as exact rationals ([Q]); value
    equality of Python numbers is [Qeq].  Every equation proved below is an
    equation of exact arithmetic, which the floating-point run approximates;
    the recurrence of the returns is also given in binary64 ([Binary64]).

    Effects.  The notebooks draw from the process-wide random source, raise
    exceptions, loop with [while] and mutate list objects that are shared
    through a policy dictionary.  All of this is threaded through one small
    state-and-error monad [M]: the state is the tape of the random draws still
    to come and the store of the mutable probability lists. *)

From Stdlib Require Import QArith Qabs Lqa.
From Stdlib Require Floats.
From stdpp Require Import gmap strings list fin_maps.

Open Scope Q_scope.

(* ================================================================== *)
(** * Part I: definitions *)
(* ================================================================== *)

Module Py.

(** The exceptions the modelled code can raise. *)
Inductive exn : Set := KeyError | IndexError | TypeError | ValueError.

(** One draw of the random source, resolved: [Pick i] is the position that
    a call of [np.random.choice] selects, [Unif u] a number produced by
    [np.random.sample]. *)
Inductive draw : Set := Pick (i : nat) | Unif (u : Q).

(** The state threaded through the program: the draws to come and the
    store of list objects (a reference is a position of the store). *)
Record machine : Type := Machine { tape : list draw; heap : list (list Q) }.

(** [Raise] is a Python exception.  [Stuck] is a run the tape does not
    describe (no draw left, a draw of the wrong kind or outside the support
    of the distribution, a dangling reference).  [NoFuel] is a [while] loop
    that was cut off. *)
Inductive outcome (A : Type) : Type :=
| Ok (a : A) (st : machine)
| Raise (e : exn)
| Stuck
| NoFuel.
Arguments Ok {A} a st.
Arguments Raise {A} e.
Arguments Stuck {A}.
Arguments NoFuel {A}.

Definition M (A : Type) : Type := machine → outcome A.

#[global] Instance M_ret : MRet M := λ A a st, Ok a st.

#[global] Instance M_bind : MBind M := λ A B f m st,
  match m st with
  | Ok a st' => f a st'
  | Raise e => Raise e
  | Stuck => Stuck
  | NoFuel => NoFuel
  end.

(** What a run returns, if it returns. *)
Definition returned {A} (o : outcome A) : option A :=
  match o with
  | Ok a _ => Some a
  | _ => None
  end.

Definition raise {A} (e : exn) : M A := λ _, Raise e.
Definition stuck {A} : M A := λ _, Stuck.
Definition out_of_fuel {A} : M A := λ _, NoFuel.

(** [for x in l: acc = f acc x] *)
Fixpoint foldM {A B} (f : B → A → M B) (l : list A) (b : B) : M B :=
  match l with
  | [] => mret b
  | x :: l' => b' ← f b x; foldM f l' b'
  end.

(** [[f x for x in l]], left to right *)
Fixpoint forM {A B} (f : A → M B) (l : list A) : M (list B) :=
  match l with
  | [] => mret []
  | x :: l' => y ← f x; ys ← forM f l'; mret (y :: ys)
  end.

(** ** Arithmetic on lists of numbers *)

Definition Qltb (x y : Q) : bool := negb (Qle_bool y x).

Definition Qsum (l : list Q) : Q := fold_right Qplus 0 l.

(** [np.mean(l)] *)
Definition mean (l : list Q) : Q := Qsum l / inject_Z (Z.of_nat (length l)).

Fixpoint argmax_from (best : Q) (besti i : nat) (l : list Q) : nat :=
  match l with
  | [] => besti
  | x :: l' =>
      if Qltb best x then argmax_from x i (S i) l'
      else argmax_from best besti (S i) l'
  end.

(** [np.argmax]: the position of the first occurrence of the maximum;
    [None] stands for the [ValueError] on an empty sequence. *)
Definition argmax (l : list Q) : option nat :=
  match l with
  | [] => None
  | x :: l' => Some (argmax_from x 0 1 l')
  end.

Definition np_argmax (l : list Q) : M nat :=
  match argmax l with
  | Some k => mret k
  | None => raise ValueError
  end.

(** [range(a, b)] *)
Definition py_range (a b : nat) : list nat := seq a (b - a).

(** [l.index(x)]: the first position holding a value equal to [x]. *)
Fixpoint list_index {A} (eqb : A → A → bool) (x : A) (l : list A) : option nat :=
  match l with
  | [] => None
  | y :: l' => if eqb y x then Some 0%nat else S <$> list_index eqb x l'
  end.

Definition index_or_raise {A} (eqb : A → A → bool) (x : A) (l : list A) : M nat :=
  match list_index eqb x l with
  | Some i => mret i
  | None => raise ValueError
  end.

(** [d[k]] on a dictionary *)
Definition dict_get `{Countable K} {V} (d : gmap K V) (k : K) : M V :=
  match d !! k with
  | Some v => mret v
  | None => raise KeyError
  end.

(** [arr[s] = v] on a one-dimensional array: a negative index counts from
    the end, an index outside [-n, n) raises [IndexError]. *)
Definition np_setitem (arr : list Q) (s : Z) (v : Q) : M (list Q) :=
  let n := Z.of_nat (length arr) in
  if decide (0 ≤ s < n)%Z then mret (<[Z.to_nat s := v]> arr)
  else if decide (- n ≤ s < 0)%Z then mret (<[Z.to_nat (n + s) := v]> arr)
  else raise IndexError.

(** ** The random source *)

Definition next_draw : M draw := λ st,
  match tape st with
  | [] => Stuck
  | d :: t => Ok d (Machine t (heap st))
  end.

(** [np.random.choice(xs)] *)
Definition choice {A} (xs : list A) : M A :=
  match xs with
  | [] => raise ValueError
  | _ =>
      d ← next_draw;
      match d with
      | Pick i => match xs !! i with Some x => mret x | None => stuck end
      | Unif _ => stuck
      end
  end.

(** [np.random.choice(xs, p = p)]: [p] is validated first; a position of
    probability zero is never selected. *)
Definition choice_p {A} (xs : list A) (p : list Q) : M A :=
  if negb (length xs =? length p)%nat then raise ValueError
  else if existsb (λ q, Qltb q 0) p then raise ValueError
  else if negb (Qeq_bool (Qsum p) 1) then raise ValueError
  else
    d ← next_draw;
    match d with
    | Pick i =>
        match xs !! i, p !! i with
        | Some x, Some q => if Qltb 0 q then mret x else stuck
        | _, _ => stuck
        end
    | Unif _ => stuck
    end.

(** One number of [np.random.sample]: uniform on [0, 1). *)
Definition sample : M Q :=
  d ← next_draw;
  match d with
  | Unif u => if Qle_bool 0 u && Qltb u 1 then mret u else stuck
  | Pick _ => stuck
  end.

(** ** The store of list objects *)

(** A new list object. *)
Definition alloc (v : list Q) : M nat := λ st,
  Ok (length (heap st)) (Machine (tape st) (heap st ++ [v])).

Definition heap_get (l : nat) : M (list Q) := λ st,
  match heap st !! l with
  | Some v => Ok v st
  | None => Stuck
  end.

Definition heap_set (l : nat) (v : list Q) : M unit := λ st,
  if decide (l < length (heap st))%nat
  then Ok () (Machine (tape st) (<[l := v]> (heap st)))
  else Stuck.

(** [pr[k] += d] on the list object at [l] *)
Definition iadd (l k : nat) (d : Q) : M unit :=
  pr ← heap_get l;
  match pr !! k with
  | Some x => heap_set l (<[k := x + d]> pr)
  | None => raise IndexError
  end.

End Py.
Import Py.

(** ** The environment

    [gridWorldEnvironment.GridWorld] is an external collaborator: the code
    reads its fields [states], [actions], [transitions], [gamma] and calls
    its method [state_transition]. *)
Record GridWorld : Type := {
  states : list Z;
  actions : list string;
  transitions : list (Z * string * Z * Q);
  state_transition : Z → string → Z * Q;
  gamma : Q
}.

(* ------------------------------------------------------------------ *)
(** ** Notebook 1: Monte Carlo prediction *)
(* ------------------------------------------------------------------ *)

Module Prediction.

(** A step of an episode: [(state, reward)]. *)
Abbreviation step := (Z * Q)%type.

(** [(s, r) == (s', r')] on tuples *)
Definition step_eqb (x y : step) : bool := (x.1 =? y.1)%Z && Qeq_bool x.2 y.2.

Section Notebook.

(** The notebook's global [gw]; the functions also take [env]. *)
Variable gw : GridWorld.

(** The [while not done] loop of [generate_random_episode]. *)
Fixpoint random_episode_loop (fuel : nat) (env : GridWorld)
    (current_state : Z) (episode : list step) : M (list step) :=
  match fuel with
  | O => out_of_fuel
  | S fuel' =>
      action ← choice (actions env);
      let '(next_state, reward) := state_transition gw current_state action in
      let episode := episode ++ [(next_state, reward)] in
      if (next_state =? 0)%Z then mret episode
      else random_episode_loop fuel' env next_state episode
  end.

Definition generate_random_episode (fuel : nat) (env : GridWorld) : M (list step) :=
  current_state ← choice (states env);
  random_episode_loop fuel env current_state [(current_state, -1)].

Definition value_array (env : GridWorld) : list Q :=
  replicate (length (states env) + 2) 0.

(** The inner [while j + idx < len(episode)] loop: [j] runs over
    [1 .. len(episode) - idx - 1] and reads [episode[j + idx][1]], which is
    always inside the list. *)
Definition return_after (gamma : Q) (episode : list step) (idx : nat) : Q :=
  fold_left (λ G j, gamma * (G + (nth (j + idx) episode (0%Z, 0)).2))
            (py_range 1 (length episode - idx)) 0.

(** [returns = dict(); for state in env.states: returns[state] = list()] *)
Definition empty_returns (env : GridWorld) : gmap Z (list Q) :=
  fold_left (λ returns state, <[state := []]> returns) (states env) ∅.

(** The lines from [idx = episode.index((s, r))] to
    [values[s] = np.mean(returns[s])], the same in both variants. *)
Definition record_return (env : GridWorld) (episode : list step) (sr : step)
    (values : list Q) (returns : gmap Z (list Q)) : M (list Q * gmap Z (list Q)) :=
  idx ← index_or_raise step_eqb sr episode;
  let G := return_after (gamma env) episode idx in
  rs ← dict_get returns sr.1;
  let rs := rs ++ [G] in
  let returns := <[sr.1 := rs]> returns in
  values ← np_setitem values sr.1 (mean rs);
  mret (values, returns).

(** Body of [for s, r in episode] in [first_visit_mc]. *)
Definition first_visit_step (env : GridWorld) (episode : list step)
    (acc : gset Z * list Q * gmap Z (list Q)) (sr : step)
    : M (gset Z * list Q * gmap Z (list Q)) :=
  let '(already_visited, values, returns) := acc in
  if decide (sr.1 ∈ already_visited) then mret acc
  else
    let already_visited := {[sr.1]} ∪ already_visited in
    '(values, returns) ← record_return env episode sr values returns;
    mret (already_visited, values, returns).

(** Body of [for i in range(num_iter)] in [first_visit_mc]. *)
Definition first_visit_iteration (fuel : nat) (env : GridWorld)
    (acc : list Q * gmap Z (list Q)) : M (list Q * gmap Z (list Q)) :=
  episode ← generate_random_episode fuel env;
  '(_, values, returns) ← foldM (first_visit_step env episode) episode
                                ({[0%Z]}, acc.1, acc.2);
  mret (values, returns).

Fixpoint iterate {A} (n : nat) (body : A → M A) (a : A) : M A :=
  match n with
  | O => mret a
  | S n' => a' ← body a; iterate n' body a'
  end.

Definition first_visit_mc (fuel : nat) (env : GridWorld) (num_iter : nat)
    : M (list Q * gmap Z (list Q)) :=
  iterate num_iter (first_visit_iteration fuel env)
          (value_array env, empty_returns env).

(** Body of [for s, r in episode] in [every_visit_mc]. *)
Definition every_visit_step (env : GridWorld) (episode : list step)
    (acc : list Q * gmap Z (list Q)) (sr : step) : M (list Q * gmap Z (list Q)) :=
  if decide (sr.1 ≠ 0%Z) then record_return env episode sr acc.1 acc.2
  else mret acc.

Definition every_visit_iteration (fuel : nat) (env : GridWorld)
    (acc : list Q * gmap Z (list Q)) : M (list Q * gmap Z (list Q)) :=
  episode ← generate_random_episode fuel env;
  foldM (every_visit_step env episode) episode acc.

Definition every_visit_mc (fuel : nat) (env : GridWorld) (num_iter : nat)
    : M (list Q * gmap Z (list Q)) :=
  iterate num_iter (every_visit_iteration fuel env)
          (value_array env, empty_returns env).

End Notebook.

(** The discounted return of the steps after position [i], computed as the
    specification states it: [G ← γ·(G + reward[j])] for [j] from [i + 1]
    to the last position. *)
Definition return_from_position (gamma : Q) (episode : list step) (i : nat) : Q :=
  fold_left (λ G sr, gamma * (G + sr.2)) (drop (S i) episode) 0.

End Prediction.

(* ------------------------------------------------------------------ *)
(** ** Notebook 2: Monte Carlo exploring starts *)
(* ------------------------------------------------------------------ *)

Module ExploringStarts.

(** A step of an episode: [(state, action, reward)]. *)
Abbreviation step := (Z * string * Q)%type.

Definition step_eqb (x y : step) : bool :=
  (x.1.1 =? y.1.1)%Z && String.eqb x.1.2 y.1.2 && Qeq_bool x.2 y.2.

(** A policy dictionary: each state is bound to the tuple of its action
    list and of a reference to its list of probabilities. *)
Abbreviation policy := (gmap Z (list string * nat)).
Abbreviation qtable := (gmap (Z * string) Q).
Abbreviation rtable := (gmap (Z * string) (list Q)).

Definition generate_random_policy (env : GridWorld) : M policy :=
  foldM (λ (pi : policy) state,
           prob ← alloc (map (λ _, 0.25) (actions env));
           mret (<[state := (actions env, prob)]> pi))
        (states env) ∅.

Fixpoint insert_sorted (x : Q) (l : list Q) : list Q :=
  match l with
  | [] => [x]
  | y :: l' => if Qle_bool x y then x :: l else y :: insert_sorted x l'
  end.

(** [sorted] *)
Definition sorted (l : list Q) : list Q := fold_right insert_sorted [] l.

(** [[r[0], r[1] - r[0], r[2] - r[1], 1 - r[2]]] *)
Definition gaps (r : list Q) : M (list Q) :=
  match r with
  | r0 :: r1 :: r2 :: _ => mret [r0; r1 - r0; r2 - r1; 1 - r2]
  | _ => raise IndexError
  end.

Definition generate_any_policy (env : GridWorld) : M policy :=
  foldM (λ (pi : policy) state,
           u ← forM (λ _, sample) (seq 0 3);
           p ← gaps (sorted u);
           prob ← alloc p;
           mret (<[state := (actions env, prob)]> pi))
        (states env) ∅.

(** The second inner loop of [generate_greedy_policy]: [np.argmax] is only
    evaluated inside the loop, hence never on an empty list. *)
Definition greedy_prob (q_values : list Q) : list Q :=
  match argmax q_values with
  | Some k => map (λ i, if (i =? k)%nat then 1 else 0) (seq 0 (length q_values))
  | None => []
  end.

Definition generate_greedy_policy (env : GridWorld) (Q : qtable) : M policy :=
  foldM (λ (pi : policy) state,
           q_values ← forM (λ a, dict_get Q (state, a)) (actions env);
           prob ← alloc (greedy_prob q_values);
           mret (<[state := (actions env, prob)]> pi))
        (states env) ∅.

Definition state_action_value (env : GridWorld) : qtable :=
  fold_left (λ (q : qtable) tr, <[(tr.1.1.1, tr.1.1.2) := -1000]> q)
            (transitions env) ∅.

(** [np.delete(np.arange(4), k)] *)
Definition np_delete_arange4 (k : nat) : M (list nat) :=
  if decide (k < 4)%nat then mret (filter (λ i, i ≠ k) (seq 0 4))
  else raise IndexError.

(** [pr[np.random.choice(np.delete(np.arange(4), np.argmax(pr)))] += .1] *)
Definition bump_other (pr : nat) : M unit :=
  v ← heap_get pr;
  k ← np_argmax v;
  others ← np_delete_arange4 k;
  i ← choice others;
  iadd pr i 0.1.

(** The three lines between the [##] marks of [generate_episode], on the
    list object [pr]. *)
Definition perturb (pr : nat) : M unit :=
  v ← heap_get pr;
  k ← np_argmax v;
  iadd pr k (- 0.2);;
  bump_other pr;;
  bump_other pr.

Section Notebook.

(** The notebook's global [gw]. *)
Variable gw : GridWorld.

(** The [while not done] loop of the first definition of
    [generate_episode] (the one the second definition shadows). *)
Fixpoint bounded_episode_loop (fuel : nat) (policy : policy)
    (current_state : Z) (action : string) (episode : list step) : M (list step) :=
  match fuel with
  | O => out_of_fuel
  | S fuel' =>
      let '(next_state, reward) := state_transition gw current_state action in
      entry ← dict_get policy current_state;
      entry' ← dict_get policy current_state;
      p ← heap_get entry'.2;
      action ← choice_p entry.1 p;
      let episode := episode ++ [(next_state, action, reward)] in
      if (next_state =? 0)%Z || (50 <? length episode)%nat then mret episode
      else bounded_episode_loop fuel' policy next_state action episode
  end.

(** First definition: [None] is Python's [None]. *)
Definition generate_episode_shadowed (fuel : nat) (env : GridWorld)
    (s0 : Z) (a0 : string) (policy : policy) : M (option (list step)) :=
  episode ← bounded_episode_loop fuel policy s0 a0 [(s0, a0, -1)];
  if (50 <? length episode)%nat then mret None else mret (Some episode).

(** The [while not done] loop of the second, live definition. *)
Fixpoint episode_loop (fuel : nat) (policy : policy)
    (current_state : Z) (action : string) (episode : list step) : M (list step) :=
  match fuel with
  | O => out_of_fuel
  | S fuel' =>
      let '(next_state, reward) := state_transition gw current_state action in
      entry ← dict_get policy current_state;
      let pr := entry.2 in
      perturb pr;;
      entry' ← dict_get policy current_state;
      p ← heap_get pr;
      action ← choice_p entry'.1 p;
      let episode := episode ++ [(next_state, action, reward)] in
      if (next_state =? 0)%Z then mret episode
      else episode_loop fuel' policy next_state action episode
  end.

(** Second definition: returns [episode[:-1]]. *)
Definition generate_episode (fuel : nat) (env : GridWorld)
    (s0 : Z) (a0 : string) (policy : policy) : M (list step) :=
  episode ← episode_loop fuel policy s0 a0 [(s0, a0, -1)];
  mret (removelast episode).

End Notebook.

(** The loop [for j in range(idx, len(episode)-1)] of [monte_carlo_es],
    reading [episode[j][-1]]. *)
Definition es_return (gamma : Q) (episode : list step) (idx : nat) : Q :=
  fold_left (λ G j, gamma * (G + (nth j episode (0%Z, EmptyString, 0)).2))
            (py_range idx (length episode - 1)) 0.

(** Body of [for s, a, r in episode] in [monte_carlo_es]. *)
Definition es_step (env : GridWorld) (episode : list step)
    (acc : gset (Z * string) * qtable * rtable) (sar : step)
    : M (gset (Z * string) * qtable * rtable) :=
  let '(already_visited, Q, returns) := acc in
  let sa := sar.1 in
  if decide (sa ∈ already_visited) then mret acc
  else
    let already_visited := {[sa]} ∪ already_visited in
    idx ← index_or_raise step_eqb sar episode;
    let G := es_return (gamma env) episode idx in
    rs ← dict_get returns sa;
    let rs := rs ++ [G] in
    let returns := <[sa := rs]> returns in
    let Q := <[sa := mean rs]> Q in
    mret (already_visited, Q, returns).

(** [for s, a, r in episode: ...]; iterating [None] raises [TypeError]. *)
Definition es_update (env : GridWorld) (episode : option (list step))
    (Q : qtable) (returns : rtable) : M (qtable * rtable) :=
  match episode with
  | None => raise TypeError
  | Some episode =>
      '(_, Q, returns) ← foldM (es_step env episode) episode (∅, Q, returns);
      mret (Q, returns)
  end.

Section ControlLoop.

(** Whatever the name [generate_episode] is bound to when [monte_carlo_es]
    runs; a result is an episode or [None]. *)
Variable episode_generator :
  GridWorld → Z → string → policy → M (option (list step)).

(** Body of [for _ in range(num_iter)]. *)
Definition es_iteration (env : GridWorld) (acc : qtable * rtable * policy)
    : M (qtable * rtable * policy) :=
  let '(Q, returns, pi) := acc in
  s0 ← choice (states env);
  a0 ← choice (actions env);
  episode ← episode_generator env s0 a0 pi;
  '(Q, returns) ← es_update env episode Q returns;
  pi ← generate_greedy_policy env Q;
  mret (Q, returns, pi).

Definition monte_carlo_es_with (env : GridWorld) (num_iter : nat)
    : M (qtable * policy) :=
  let Q := state_action_value env in
  pi ← generate_any_policy env;
  let returns : rtable := (λ _, []) <$> Q in
  '(Q, _, pi) ← Prediction.iterate num_iter (es_iteration env) (Q, returns, pi);
  mret (Q, pi).

End ControlLoop.

(** [monte_carlo_es] as the notebook runs it: [generate_episode] is the
    second definition, called on the global [gw]. *)
Definition monte_carlo_es (gw : GridWorld) (fuel : nat) : GridWorld → nat → M (qtable * policy) :=
  monte_carlo_es_with
    (λ env s0 a0 pi, episode ← generate_episode gw fuel env s0 a0 pi; mret (Some episode)).

(** The return of the steps after position [i], computed as the
    specification states it: [G ← γ·(G + reward[j])] for [j] from [i + 1]
    to the last position. *)
Definition return_from_position (gamma : Q) (episode : list step) (i : nat) : Q :=
  fold_left (λ G sar, gamma * (G + sar.2)) (drop (S i) episode) 0.

End ExploringStarts.

(* ------------------------------------------------------------------ *)
(** ** A concrete environment *)
(* ------------------------------------------------------------------ *)

Module Grid.

(** Modelled from the spec: the moves of the absent [GridWorld].  One move
    on the 4x4 board, cells numbered row by row from 0 to 15 (U is -4, D is
    +4, L is -1, R is +1, as in the notebook's recorded episode); a move off
    the board leaves the cell unchanged. *)
Definition move (s : Z) (a : string) : Z :=
  if String.eqb a "U" then (if s <? 4 then s else s - 4)%Z
  else if String.eqb a "D" then (if 12 <=? s then s else s + 4)%Z
  else if String.eqb a "L" then (if s mod 4 =? 0 then s else s - 1)%Z
  else if String.eqb a "R" then (if s mod 4 =? 3 then s else s + 1)%Z
  else s.

(** Modelled from the spec: [GridWorld.state_transition].  Both terminal
    corners are reported as state 0 (the recorded episode ends 14 → 0). *)
Definition transition (reward : Q) (s : Z) (a : string) : Z * Q :=
  let s' := move s a in
  ((if s' =? 15 then 0 else s')%Z, reward).

(** Modelled from the spec: the [GridWorld] object of the absent module
    [gridWorldEnvironment], "a 4x4 gridworld with states 0..15, terminal
    states {0,15}, actions {U,D,L,R}, γ=0.9".  As in the notebooks'
    recorded outputs, [states] lists the non-terminal cells 1..14, the
    actions are ordered U, D, L, R and an episode ends in state 0.  The
    reward of a move is a parameter; the recorded episodes show -1. *)
Definition grid_world (reward : Q) : GridWorld := {|
  states := map Z.of_nat (seq 1 14);
  actions := ["U"; "D"; "L"; "R"]%string;
  transitions :=
    s ← map Z.of_nat (seq 1 14);
    a ← ["U"; "D"; "L"; "R"]%string;
    [(s, a, (transition reward s a).1, reward)];
  state_transition := transition reward;
  gamma := 0.9
|}.

(** [gw = GridWorld(gamma = .9, theta = .5)] *)
Definition gw : GridWorld := grid_world (-1).

End Grid.

(* ------------------------------------------------------------------ *)
(** ** The return recurrence in binary64 *)
(* ------------------------------------------------------------------ *)

Module Binary64.

(** The double nearest to [n / d], as Python reads a decimal literal. *)
Definition ratio (n d : Z) : PrimFloat.float :=
  PrimFloat.div (PrimFloat.of_uint63 (Uint63Axioms.of_Z n))
                (PrimFloat.of_uint63 (Uint63Axioms.of_Z d)).

(** The inner [while] loop of [first_visit_mc], on floats. *)
Definition return_after (gamma : PrimFloat.float)
    (episode : list (Z * PrimFloat.float)) (idx : nat) : PrimFloat.float :=
  fold_left (λ G j, PrimFloat.mul gamma
                      (PrimFloat.add G (nth (j + idx) episode (0%Z, PrimFloat.zero)).2))
            (py_range 1 (length episode - idx)) PrimFloat.zero.

(** [abs(x - y) <= 1e-9] *)
Definition close (x y : PrimFloat.float) : bool :=
  PrimFloat.leb (PrimFloat.abs (PrimFloat.sub x y)) (ratio 1 1000000000).

End Binary64.

(* ------------------------------------------------------------------ *)
(** ** Concrete inputs *)
(* ------------------------------------------------------------------ *)

Module Runs.

(** The run starts with an empty store. *)
Definition start (draws : list draw) : machine := Machine draws [].

(** [generate_random_episode]: start in state 5 (position 4 of [states]),
    then the actions D, U, U, L: 5 → 9 → 5 → 1 → 0. *)
Definition there_and_back : list draw := [Pick 4; Pick 1; Pick 0; Pick 0; Pick 2].

Definition there_and_back_episode : list Prediction.step :=
  [(5%Z, -1); (9%Z, -1); (5%Z, -1); (1%Z, -1); (0%Z, -1)].

(** The episode of the specification's recurrence test. *)
Definition test_episode (s0 s1 s2 : Z) : list Prediction.step :=
  [(s0, -1); (s1, -1); (s2, -1); (0%Z, 0)].

(** An action-value table for the 4x4 grid: the initial table, with one
    entry learnt. *)
Definition learnt_table : gmap (Z * string) Q :=
  <[(1%Z, "L"%string) := -0.9]> (ExploringStarts.state_action_value Grid.gw).

Definition udlr : list string := ["U"; "D"; "L"; "R"]%string.

(** The equiprobable policy of the 4x4 grid as [generate_random_policy]
    leaves it in an empty store: state [s] is bound to the list object
    [s - 1], and the fourteen list objects hold 0.25 four times. *)
Definition uniform_policy : gmap Z (list string * nat) :=
  list_to_map (map (λ i, (Z.of_nat (S i), (udlr, i))) (seq 0 14)).

Definition uniform_store : list (list Q) := replicate 14 [0.25; 0.25; 0.25; 0.25].

(** [generate_episode] from state 5 with action D.  Each turn of the loop
    takes two draws for the perturbation and one for the next action; the
    moves are 5 → 9 → 5 → 1 → 0, so that state 5 is perturbed twice. *)
Definition twice_through_5 : list draw :=
  [Pick 1; Pick 2; Pick 0;  Pick 0; Pick 0; Pick 0;
   Pick 0; Pick 0; Pick 2;  Pick 0; Pick 0; Pick 0].

(** [generate_episode] from state 5 with action D: 29 round trips
    5 → 9 → 5, one more move to 9 and back, then 5 → 1 → 0.  The two draws
    0, 0 of each perturbation give back what it took from position 0. *)
Definition long_way : list draw :=
  concat (repeat [Pick 0; Pick 0; Pick 0; Pick 0; Pick 0; Pick 1] 29)
  ++ [Pick 0; Pick 0; Pick 0;  Pick 0; Pick 0; Pick 0;
      Pick 0; Pick 0; Pick 2;  Pick 0; Pick 0; Pick 0].

(** Fifty actions, U and D in turn: from state 5 with action D the walk
    5 → 9 → 5 → ... never reaches state 0. *)
Definition fifty_moves : list draw := concat (repeat [Pick 0; Pick 1] 25).

(** The draws of [generate_any_policy] on fourteen states; each state gets
    the gaps of 0.25, 0.5, 0.75. *)
Definition any_policy_draws : list draw :=
  concat (repeat [Unif 0.25; Unif 0.5; Unif 0.75] 14).

(** One iteration of [monte_carlo_es]: the initial policy, the start state
    5 and action D, then fifty moves. *)
Definition overrun : list draw := any_policy_draws ++ [Pick 4; Pick 1] ++ fifty_moves.

(** A grid world whose moves cost 2. *)
Definition costly_grid : GridWorld := Grid.grid_world (-2).

(** One iteration of [monte_carlo_es]: the initial policy, the start state
    2 and action L, the perturbation of state 2 and the action L, the
    perturbation of state 1 and the action U: 2 → 1 → 0. *)
Definition two_moves : list draw :=
  any_policy_draws ++ [Pick 1; Pick 2;  Pick 0; Pick 0; Pick 2;  Pick 0; Pick 0; Pick 0].

Definition two_moves_episode : list ExploringStarts.step :=
  [(2%Z, "L"%string, -1); (1%Z, "L"%string, -2)].

(** The same episode with binary64 rewards. *)
Definition test_episode_binary64 (s0 s1 s2 : Z) : list (Z * PrimFloat.float) :=
  [(s0, PrimFloat.opp PrimFloat.one); (s1, PrimFloat.opp PrimFloat.one);
   (s2, PrimFloat.opp PrimFloat.one); (0%Z, PrimFloat.zero)].

End Runs.

(* ------------------------------------------------------------------ *)
(** ** Predicates used in the statements *)
(* ------------------------------------------------------------------ *)

Module Props.
Import Prediction.

(** What the prediction routines rely on in the environment: the states
    are numbered within [1 .. len(states)], and a move from a state leads to
    a state or to the terminal state 0. *)
Definition env_closed (gw env : GridWorld) : Prop :=
  (∀ s, s ∈ states env → (1 ≤ s ≤ Z.of_nat (length (states env)))%Z)
  ∧ (∀ s a, s ∈ states env → a ∈ actions env →
       (state_transition gw s a).1 = 0%Z ∨ (state_transition gw s a).1 ∈ states env).

(** The steps an episode may hold. *)
Definition step_ok (env : GridWorld) (sr : step) : Prop :=
  sr.1 = 0%Z ∨ sr.1 ∈ states env.

(** The two terminal slots of a value table hold 0. *)
Definition terminal_zero (env : GridWorld) (values : list Q) : Prop :=
  length values = (length (states env) + 2)%nat
  ∧ values !! 0%nat = Some 0
  ∧ values !! (length (states env) + 1)%nat = Some 0.

(** [k] is the position of the first occurrence of the maximum of [l]. *)
Definition first_max (l : list Q) (k : nat) : Prop :=
  ∃ xk, l !! k = Some xk
        ∧ ∀ j x, l !! j = Some x → x <= xk ∧ ((j < k)%nat → x < xk).

(** A list of probabilities: no negative entry, total 1. *)
Definition distribution (v : list Q) : Prop := Forall (Qle 0) v ∧ Qsum v == 1.

(** Every state of [env] is bound in [pi] to the action list of [env] and
    to a list object of the store [h] that satisfies [P]. *)
Definition policy_with (P : Z → list Q → Prop) (env : GridWorld)
    (pi : gmap Z (list string * nat)) (h : list (list Q)) : Prop :=
  ∀ s, s ∈ states env →
    ∃ pr v, pi !! s = Some (actions env, pr) ∧ h !! pr = Some v ∧ P s v.

(** Every binding of [pi] pairs [acts] with a list object of the store [h]
    that satisfies [P]. *)
Definition bindings_with (P : Z → list Q → Prop) (acts : list string)
    (pi : gmap Z (list string * nat)) (h : list (list Q)) : Prop :=
  ∀ s e, pi !! s = Some e → e.1 = acts ∧ ∃ v, h !! e.2 = Some v ∧ P s v.

(** [v] puts probability 1 on the first action of maximal value in state
    [s], and 0 on every other action. *)
Definition greedy_for (env : GridWorld) (Qt : gmap (Z * string) Q)
    (s : Z) (v : list Q) : Prop :=
  ∃ k a_k q_k,
    actions env !! k = Some a_k ∧ Qt !! (s, a_k) = Some q_k
    ∧ (∀ j a_j q_j, actions env !! j = Some a_j → Qt !! (s, a_j) = Some q_j →
         q_j <= q_k ∧ ((j < k)%nat → q_j < q_k))
    ∧ length v = length (actions env)
    ∧ (∀ j, (j < length (actions env))%nat →
         v !! j = Some (if (j =? k)%nat then 1 else 0)).

(** The store [h'] results from [h] by running the three perturbation lines
    of [generate_episode] on the list object [pr], for some draws. *)
Definition perturbs (pr : nat) (h h' : list (list Q)) : Prop :=
  ∃ t t', ExploringStarts.perturb pr (Machine t h) = Ok () (Machine t' h').

(** The store is perturbed once per state of the list, in order, each time
    on the list object the policy binds to that state and starting from the
    store the previous perturbation left. *)
Inductive perturbed_along (pi : gmap Z (list string * nat))
  : list Z → list (list Q) → list (list Q) → Prop :=
| perturbed_nil h : perturbed_along pi [] h h
| perturbed_cons s ss e h h1 h' :
    pi !! s = Some e →
    perturbs e.2 h h1 →
    perturbed_along pi ss h1 h' →
    perturbed_along pi (s :: ss) h h'.

End Props.

(* ------------------------------------------------------------------ *)
(** ** Further predicates and reference functions *)
(* ------------------------------------------------------------------ *)

Module Shapes.

(** Steps of notebook 1 that follow one another from state [s]: each is
    what [state_transition] returns from the state before it, for some
    action of [acts]. *)
Inductive walk (gw : GridWorld) (acts : list string) : Z → list (Z * Q) → Prop :=
| walk_end s : walk gw acts s []
| walk_step s a rest :
    a ∈ acts →
    walk gw acts (state_transition gw s a).1 rest →
    walk gw acts s (state_transition gw s a :: rest).

(** [x ** n] *)
Fixpoint Qpow (x : Q) (n : nat) : Q :=
  match n with
  | O => 1
  | S n' => x * Qpow x n'
  end.

(** The sum in which the last reward is multiplied by γ, the one before it
    by γ², and so on back to the first. *)
Fixpoint backward_sum (gamma : Q) (rewards : list Q) : Q :=
  match rewards with
  | [] => 0
  | r :: rest => Qpow gamma (S (length rest)) * r + backward_sum gamma rest
  end.

(** The position of the first step of [episode] in state [s]. *)
Definition state_position (s : Z) (episode : list (Z * Q)) : option nat :=
  list_index (λ y x : Z * Q, (y.1 =? x.1)%Z) (s, 0) episode.

(** What first-visit prediction owes state [s] for [episode]: nothing for
    the terminal state 0 or a state that does not occur, and otherwise the
    return counted from the first position of [s], as the specification
    states it.  [prefix] is the part of the episode looked at. *)
Definition first_visit_return (gamma : Q) (episode prefix : list (Z * Q)) (s : Z)
    : option Q :=
  if decide (s = 0%Z) then None
  else Prediction.return_from_position gamma episode <$> state_position s prefix.

(** What the loop of [every_visit_mc] records for state [s] along
    [prefix]: for each step in state [s], in order, the return counted from
    the position [episode.index] gives for that step. *)
Definition every_visit_returns (gamma : Q) (episode prefix : list (Z * Q)) (s : Z)
    : list Q :=
  if decide (s = 0%Z) then []
  else omap (λ sr : Z * Q,
               if decide (sr.1 = s)
               then Prediction.return_after gamma episode
                      <$> list_index Prediction.step_eqb sr episode
               else None) prefix.

(** The table of values is the running mean of the table of returns: the
    returns are kept for the states of [env] and no other key, and the slot
    of a state holds the mean of its returns, or 0 while it has none. *)
Definition mean_table (env : GridWorld) (values : list Q)
    (returns : gmap Z (list Q)) : Prop :=
  length values = (length (states env) + 2)%nat
  ∧ (∀ s, s ∈ states env ↔ is_Some (returns !! s))
  ∧ ∀ s rs, returns !! s = Some rs →
      values !! Z.to_nat s = Some (match rs with [] => 0 | _ => mean rs end).

(** The policy [pi] was built in the store [h] on top of the store [h0]:
    the list objects of [h0] are still there unchanged, every state is bound
    to a list object created since, and no two states to the same one. *)
Definition built_apart (pi : gmap Z (list string * nat)) (h0 h : list (list Q))
    : Prop :=
  (∃ new, h = h0 ++ new)
  ∧ (∀ s e, pi !! s = Some e → (length h0 ≤ e.2 < length h)%nat)
  ∧ ∀ s1 s2 e1 e2, pi !! s1 = Some e1 → pi !! s2 = Some e2 → e1.2 = e2.2 → s1 = s2.

(** Steps of notebook 2 that follow one another from the pair
    ([s], [a]): the state and the reward of a step are what
    [state_transition] returns for the pair before it, and its action is
    one of the actions the policy binds to the state before it. *)
Inductive es_walk (gw : GridWorld) (pi : gmap Z (list string * nat))
  : Z → string → list (Z * string * Q) → Prop :=
| es_walk_end s a : es_walk gw pi s a []
| es_walk_step s a e a' rest :
    pi !! s = Some e →
    a' ∈ e.1 →
    es_walk gw pi (state_transition gw s a).1 a' rest →
    es_walk gw pi s a
      (((state_transition gw s a).1, a', (state_transition gw s a).2) :: rest).

(** The position of the first step of [episode] with the (state, action)
    pair [sa]. *)
Definition pair_position (sa : Z * string) (episode : list (Z * string * Q))
    : option nat :=
  list_index (λ y x : Z * string * Q, bool_decide (y.1 = x.1)) (sa, 0) episode.

(** What the tables hold for the pair [sa] once the steps of [pre] have
    been looked at. *)
Definition pair_record (env : GridWorld) (episode pre : list (Z * string * Q))
    (Qt : gmap (Z * string) Q) (returns : gmap (Z * string) (list Q))
    (Qt' : gmap (Z * string) Q) (returns' : gmap (Z * string) (list Q))
    (sa : Z * string) : Prop :=
  match pair_position sa pre with
  | Some i =>
      ∃ rs, returns !! sa = Some rs
            ∧ returns' !! sa = Some (rs ++ [ExploringStarts.es_return (gamma env) episode i])
            ∧ Qt' !! sa = Some (mean (rs ++ [ExploringStarts.es_return (gamma env) episode i]))
  | None => returns' !! sa = returns !! sa ∧ Qt' !! sa = Qt !! sa
  end.

(** The keys of [Q] and of [returns] are those of the initial table. *)
Definition same_keys (env : GridWorld) (acc : gmap (Z * string) Q * gmap (Z * string) (list Q) * gmap Z (list string * nat)) : Prop :=
  ∀ sa, (is_Some (acc.1.1 !! sa) ↔ is_Some (ExploringStarts.state_action_value env !! sa))
        ∧ (is_Some (acc.1.2 !! sa) ↔ is_Some (ExploringStarts.state_action_value env !! sa)).

(** Every binding of the policy pairs four actions with a list object of
    the store that holds four probabilities. *)
Definition sound_policy (pi : gmap Z (list string * nat)) (h : list (list Q))
    : Prop :=
  ∀ s e, pi !! s = Some e →
    length e.1 = 4%nat
    ∧ ∃ v, h !! e.2 = Some v ∧ length v = 4%nat ∧ Props.distribution v.


(** An environment with no state. *)
Definition nowhere : GridWorld := {|
  states := [];
  actions := ["U"; "D"; "L"; "R"]%string;
  transitions := [];
  state_transition := λ _ _, (0%Z, 0);
  gamma := 0.9
|}.


(** The value and the final state of a run that returns. *)
Definition result_of {A} (default : A) (o : outcome A) : A :=
  match o with Ok a _ => a | _ => default end.

Definition state_of {A} (o : outcome A) : machine :=
  match o with Ok _ st => st | _ => Machine [] [] end.

(** The update of the initial tables of the grid whose moves cost 2 with
    the episode 2 → 1. *)
Definition two_moves_update
    : outcome (gmap (Z * string) Q * gmap (Z * string) (list Q)) :=
  ExploringStarts.es_update Runs.costly_grid (Some Runs.two_moves_episode)
    (ExploringStarts.state_action_value Runs.costly_grid)
    ((λ _, []) <$> ExploringStarts.state_action_value Runs.costly_grid)
    (Runs.start []).

(** One iteration of [monte_carlo_es] on the grid whose moves cost 2. *)
Definition two_moves_run
    : outcome (gmap (Z * string) Q * gmap Z (list string * nat)) :=
  ExploringStarts.monte_carlo_es Runs.costly_grid 10 Runs.costly_grid 1
    (Runs.start Runs.two_moves).

End Shapes.

(* ================================================================== *)
(** * Part II: properties *)
(* ================================================================== *)

Module PyFacts.

Lemma bind_Ok {A B} (m : M A) (f : A → M B) st b st' :
  (m ≫= f) st = Ok b st' → ∃ a st1, m st = Ok a st1 ∧ f a st1 = Ok b st'.
Proof.
  unfold mbind, M_bind. destruct (m st) as [a st1| | |]; try discriminate.
  intros Hf. by exists a, st1.
Qed.

Lemma bind_eq {A B} (m : M A) (f : A → M B) st a st1 :
  m st = Ok a st1 → (m ≫= f) st = f a st1.
Proof. unfold mbind, M_bind. by intros ->. Qed.

Lemma bind_Raise {A B} (m : M A) (f : A → M B) st e :
  m st = Raise e → (m ≫= f) st = Raise e.
Proof. unfold mbind, M_bind. by intros ->. Qed.

Lemma ret_Ok {A} (a b : A) st st' : (mret a : M A) st = Ok b st' → a = b ∧ st = st'.
Proof. unfold mret, M_ret. by intros [= -> ->]. Qed.

Lemma foldM_inv {A B} (f : B → A → M B) (P : B → machine → Prop) (l : list A) :
  (∀ b x st b' st', x ∈ l → P b st → f b x st = Ok b' st' → P b' st') →
  ∀ b st b' st', P b st → foldM f l b st = Ok b' st' → P b' st'.
Proof.
  induction l as [|x l IH]; simpl; intros Hstep b st b' st' HP Hrun.
  - apply ret_Ok in Hrun as [-> ->]. done.
  - apply bind_Ok in Hrun as (b1 & st1 & Hx & Hrest).
    eapply IH; [| |exact Hrest].
    + intros; eapply Hstep; eauto. by right.
    + eapply Hstep; eauto. by left.
Qed.

Lemma iterate_inv {A} (body : A → M A) (P : A → Prop) (n : nat) :
  (∀ a st a' st', P a → body a st = Ok a' st' → P a') →
  ∀ a st a' st', P a → Prediction.iterate n body a st = Ok a' st' → P a'.
Proof.
  intros Hstep. induction n as [|n IH]; simpl; intros a st a' st' HP Hrun.
  - apply ret_Ok in Hrun as [-> ->]. done.
  - apply bind_Ok in Hrun as (a1 & st1 & Hx & Hrest). eauto.
Qed.

Lemma choice_elem {A} (xs : list A) st x st' :
  choice xs st = Ok x st' → x ∈ xs ∧ heap st' = heap st.
Proof.
  unfold choice. destruct xs as [|x0 xs]; [discriminate|].
  unfold mbind, M_bind, next_draw.
  destruct (tape st) as [|[i|u] t]; try discriminate.
  destruct ((x0 :: xs) !! i) eqn:Hi; [|discriminate].
  intros [= -> <-]. split; [|done]. by eapply list_elem_of_lookup_2.
Qed.

Lemma dict_get_Ok `{Countable K} {V} (d : gmap K V) k st v st' :
  dict_get d k st = Ok v st' → d !! k = Some v ∧ st' = st.
Proof. unfold dict_get. destruct (d !! k); [|discriminate]. by intros [= -> ->]. Qed.

End PyFacts.
Import PyFacts.

(* ------------------------------------------------------------------ *)
(** ** Discounted returns *)
(* ------------------------------------------------------------------ *)

Module Returns.

(** A loop over positions [a, a + n) that reads [l] at [j + idx] is a fold
    over the slice of [l] it reads. *)
Lemma fold_positions {A B} (f : B → nat → B) (g : B → A → B) (d : A) (l : list A) (idx : nat) :
  (∀ G j, f G j = g G (nth (j + idx) l d)) →
  ∀ n a G0, (a + idx + n ≤ length l)%nat →
    fold_left f (seq a n) G0 = fold_left g (take n (drop (a + idx) l)) G0.
Proof.
  intros Hf. induction n as [|n IH]; intros a G0 Hlen; simpl; [done|].
  destruct (lookup_lt_is_Some_2 l (a + idx)) as [x Hx]; [lia|].
  rewrite (drop_S _ _ _ Hx). simpl. rewrite Hf, (nth_lookup_Some _ _ d _ Hx).
  rewrite IH by lia. done.
Qed.

(** The [while] loop of [first_visit_mc] and [every_visit_mc] is the
    recurrence of the specification: it folds [G ← γ·(G + reward)] over the
    steps after [idx], up to and including the last one. *)
Lemma return_after_recurrence gamma episode idx :
  Prediction.return_after gamma episode idx
  = Prediction.return_from_position gamma episode idx.
Proof.
  unfold Prediction.return_after, Prediction.return_from_position, py_range.
  destruct (decide (idx < length episode)%nat) as [Hlt|Hge].
  - rewrite (fold_positions _ (λ G sr, gamma * (G + sr.2)) (0%Z, 0) episode idx);
      [|done|lia].
    replace (1 + idx)%nat with (S idx) by lia.
    rewrite take_ge; [done|]. rewrite length_drop. lia.
  - replace (length episode - idx - 1)%nat with 0%nat by lia.
    rewrite drop_ge by lia. done.
Qed.

(** The [for j in range(idx, len(episode)-1)] loop of [monte_carlo_es] folds
    the same step over the rewards at positions [idx .. len(episode) - 2]:
    it starts one position earlier and stops one position earlier. *)
Lemma es_return_slice gamma episode idx :
  ExploringStarts.es_return gamma episode idx
  = fold_left (λ G sar, gamma * (G + sar.2))
              (take (length episode - 1 - idx) (drop idx episode)) 0.
Proof.
  unfold ExploringStarts.es_return, py_range.
  destruct (decide (idx ≤ length episode - 1)%nat) as [Hle|Hgt].
  - rewrite (fold_positions _ (λ G sar, gamma * (G + sar.2))
               (0%Z, EmptyString, 0) episode 0).
    + by rewrite Nat.add_0_r.
    + intros G j. by rewrite Nat.add_0_r.
    + lia.
  - replace (length episode - 1 - idx)%nat with 0%nat by lia. done.
Qed.

End Returns.


(* ------------------------------------------------------------------ *)
(** ** The value table of the prediction routines *)
(* ------------------------------------------------------------------ *)

Module ValueTable.
Import Prediction Props.

Section Closed.
Variables gw env : GridWorld.
Hypothesis closed : env_closed gw env.

Lemma random_episode_loop_steps fuel : ∀ current_state episode st episode' st',
  current_state ∈ states env →
  Forall (step_ok env) episode →
  random_episode_loop gw fuel env current_state episode st = Ok episode' st' →
  Forall (step_ok env) episode'.
Proof.
  induction fuel as [|fuel IH]; simpl; intros cur ep st ep' st' Hcur Hep Hrun;
    [discriminate|].
  apply bind_Ok in Hrun as (a & st1 & Ha & Hrun).
  apply choice_elem in Ha as [Ha _].
  destruct closed as [_ Hmove]. specialize (Hmove cur a Hcur Ha).
  destruct (state_transition gw cur a) as [next reward]; simpl in *.
  assert (Forall (step_ok env) (ep ++ [(next, reward)])) as Hep'.
  { apply Forall_app; split; [done|]. by apply Forall_singleton. }
  destruct (next =? 0)%Z eqn:Hz.
  - apply ret_Ok in Hrun as [<- _]. done.
  - apply Z.eqb_neq in Hz. destruct Hmove as [?|Hnext]; [done|]. eauto.
Qed.

Lemma generate_random_episode_steps fuel st episode st' :
  generate_random_episode gw fuel env st = Ok episode st' →
  Forall (step_ok env) episode.
Proof.
  unfold generate_random_episode. intros Hrun.
  apply bind_Ok in Hrun as (s & st1 & Hs & Hrun).
  apply choice_elem in Hs as [Hs _].
  eapply random_episode_loop_steps; [done| |exact Hrun].
  apply Forall_singleton. by right.
Qed.

(** Recording a return for a state of [states] leaves both terminal slots
    alone. *)
Lemma record_return_terminal episode sr values returns st values' returns' st' :
  sr.1 ∈ states env →
  terminal_zero env values →
  record_return env episode sr values returns st = Ok (values', returns') st' →
  terminal_zero env values'.
Proof.
  intros Hs (Hlen & H0 & Hlast) Hrun. unfold record_return in Hrun.
  apply bind_Ok in Hrun as (idx & st1 & _ & Hrun).
  apply bind_Ok in Hrun as (rs & st2 & _ & Hrun).
  apply bind_Ok in Hrun as (v & st3 & Hset & Hrun).
  apply ret_Ok in Hrun as [[= <- <-] _].
  destruct closed as [Hrange _]. specialize (Hrange _ Hs).
  unfold np_setitem in Hset. rewrite Hlen in Hset.
  destruct (decide _) as [_|Hno] in Hset; [|lia].
  apply ret_Ok in Hset as [<- _].
  split; [|split].
  - by rewrite length_insert.
  - rewrite list_lookup_insert_ne by lia. done.
  - rewrite list_lookup_insert_ne by lia. done.
Qed.

Lemma first_visit_iteration_terminal fuel acc st acc' st' :
  terminal_zero env acc.1 →
  first_visit_iteration gw fuel env acc st = Ok acc' st' →
  terminal_zero env acc'.1.
Proof.
  intros Hacc Hrun. unfold first_visit_iteration in Hrun.
  apply bind_Ok in Hrun as (episode & st1 & Hep & Hrun).
  apply generate_random_episode_steps in Hep.
  apply bind_Ok in Hrun as ([[visited values] returns] & st2 & Hfold & Hrun).
  apply ret_Ok in Hrun as [<- _]. simpl.
  pose (P := λ (b : gset Z * list Q * gmap Z (list Q)) (_ : machine),
               0%Z ∈ b.1.1 ∧ terminal_zero env b.1.2).
  enough (P (visited, values, returns) st2) as [_ ?] by done.
  eapply (foldM_inv _ P); [|split|exact Hfold]; simpl; [|set_solver|done].
  intros [[av vs] rt] sr s1 [[av' vs'] rt'] s2 Hin [Hz Ht] Hstep; simpl in *.
  unfold first_visit_step in Hstep.
  destruct (decide (sr.1 ∈ av)) as [Hvis|Hnew].
  - apply ret_Ok in Hstep as [[= <- <- <-] _]. done.
  - apply bind_Ok in Hstep as ([vs1 rt1] & s3 & Hrec & Hstep).
    apply ret_Ok in Hstep as [[= <- <- <-] _]. split; [set_solver|].
    eapply record_return_terminal; [|done|exact Hrec].
    rewrite Forall_forall in Hep. destruct (Hep _ Hin) as [Hzero|?]; [|done].
    rewrite Hzero in Hnew. done.
Qed.

Lemma every_visit_iteration_terminal fuel acc st acc' st' :
  terminal_zero env acc.1 →
  every_visit_iteration gw fuel env acc st = Ok acc' st' →
  terminal_zero env acc'.1.
Proof.
  intros Hacc Hrun. unfold every_visit_iteration in Hrun.
  apply bind_Ok in Hrun as (episode & st1 & Hep & Hfold).
  apply generate_random_episode_steps in Hep.
  pose (P := λ (b : list Q * gmap Z (list Q)) (_ : machine), terminal_zero env b.1).
  eapply (foldM_inv _ P); [|exact Hacc|exact Hfold].
  intros [vs rt] sr s1 [vs' rt'] s2 Hin Ht Hstep; unfold P in *; simpl in *.
  unfold every_visit_step in Hstep.
  destruct (decide (sr.1 ≠ 0%Z)) as [Hnz|Hz].
  - eapply record_return_terminal; [|done|exact Hstep].
    rewrite Forall_forall in Hep. destruct (Hep _ Hin) as [?|?]; done.
  - apply ret_Ok in Hstep as [[= <- <-] _]. done.
Qed.

Lemma value_array_terminal : terminal_zero env (value_array env).
Proof.
  unfold terminal_zero, value_array. rewrite length_replicate.
  split; [done|]. split; apply lookup_replicate_2; lia.
Qed.

End Closed.
End ValueTable.

(* ------------------------------------------------------------------ *)
(** ** Notebook 1 *)
(* ------------------------------------------------------------------ *)

Module PredictionSpec.
Import Prediction Props ValueTable.

(** C5 (as the code has it).  On the episode
    [(s0,-1), (s1,-1), (s2,-1), (0,0)] the first visit of [s0] is found at
    position 0, and the recurrence [G ← γ·(G + reward[j])], run over
    [j = 1, 2, 3] with γ = 0.9, yields -1.539:
    0.9·(0.9·(0.9·(0 - 1) - 1) + 0). *)
Theorem first_visit_return_of_test_episode (s0 s1 s2 : Z) :
  list_index step_eqb (s0, -1) (Runs.test_episode s0 s1 s2) = Some 0%nat
  ∧ return_after 0.9 (Runs.test_episode s0 s1 s2) 0 == -1.539
  ∧ return_from_position 0.9 (Runs.test_episode s0 s1 s2) 0 == -1.539.
Proof.
  split; [|split].
  - simpl. unfold step_eqb. simpl. by rewrite Z.eqb_refl.
  - vm_compute. reflexivity.
  - vm_compute. reflexivity.
Qed.

(** C5, refuted as stated: the return of [s0] is further than 1e-9 (indeed
    further than 1) from -2.71. *)
Lemma first_visit_return_is_not_minus_2_71 :
  ¬ (Qabs (return_after 0.9 (Runs.test_episode 5 9 13) 0 - (-2.71)) <= 1e-9).
Proof. vm_compute. intros H. by apply H. Qed.

(** The same recurrence run in binary64, with γ the double nearest to 0.9:
    the result is within 1e-9 of -1.539 and not within 1e-9 of -2.71. *)
Example first_visit_return_in_binary64 :
  Binary64.close
    (Binary64.return_after (Binary64.ratio 9 10) (Runs.test_episode_binary64 5 9 13) 0)
    (PrimFloat.opp (Binary64.ratio 1539 1000)) = true
  ∧ Binary64.close
      (Binary64.return_after (Binary64.ratio 9 10) (Runs.test_episode_binary64 5 9 13) 0)
      (PrimFloat.opp (Binary64.ratio 271 100)) = false.
Proof. split; vm_compute; reflexivity. Qed.

(** C2 (the code at a concrete run).  One iteration of [every_visit_mc] on
    the episode 5 → 9 → 5 → 1 → 0: state 5 occurs at positions 0 and 2, and
    both times [episode.index((5, -1))] is 0, so the return from position 0
    (-3.0951) is appended twice; the return from position 2 is -1.71. *)
Theorem every_visit_reuses_first_position :
  generate_random_episode Grid.gw 10 Grid.gw (Runs.start Runs.there_and_back)
    = Ok Runs.there_and_back_episode (Runs.start [])
  ∧ list_index step_eqb (5%Z, -1) Runs.there_and_back_episode = Some 0%nat
  ∧ return_from_position 0.9 Runs.there_and_back_episode 2 == -1.71
  ∧ ∃ values returns st' g1 g2,
      every_visit_mc Grid.gw 10 Grid.gw 1 (Runs.start Runs.there_and_back)
        = Ok (values, returns) st'
      ∧ returns !! 5%Z = Some [g1; g2]
      ∧ g1 == -3.0951 ∧ g2 == -3.0951
      ∧ ¬ g2 == return_from_position 0.9 Runs.there_and_back_episode 2.
Proof.
  split; [vm_compute; reflexivity|].
  split; [vm_compute; reflexivity|].
  split; [vm_compute; reflexivity|].
  eexists _, _, _, _, _.
  split; [vm_compute; reflexivity|].
  split; [vm_compute; reflexivity|].
  split; [vm_compute; reflexivity|].
  split; [vm_compute; reflexivity|].
  vm_compute. discriminate.
Qed.

Lemma grid_closed reward : env_closed (Grid.grid_world reward) (Grid.grid_world reward).
Proof.
  split.
  - intros s Hs. simpl in Hs.
    repeat (apply elem_of_cons in Hs as [->|Hs]; [simpl; lia|]).
    by apply elem_of_nil in Hs.
  - intros s a Hs Ha. simpl in Hs, Ha.
    repeat (apply elem_of_cons in Ha as [->|Ha];
      [repeat (apply elem_of_cons in Hs as [->|Hs];
         [vm_compute; first [by left | right; set_solver]|]);
       by apply elem_of_nil in Hs|]).
    by apply elem_of_nil in Ha.
Qed.

(** C7.  Whatever the number of iterations, the value table returned by
    first-visit or every-visit prediction still holds 0 in its two terminal
    slots, position 0 and the last position: [value_array] fills them with
    0, and an iteration only writes at the states of the episode, which are
    states of the environment. *)
Theorem terminal_values_stay_zero (gw env : GridWorld) (fuel num_iter : nat)
    (st : machine) (values : list Q) (returns : gmap Z (list Q)) (st' : machine) :
  env_closed gw env →
  first_visit_mc gw fuel env num_iter st = Ok (values, returns) st'
  ∨ every_visit_mc gw fuel env num_iter st = Ok (values, returns) st' →
  length values = (length (states env) + 2)%nat
  ∧ values !! 0%nat = Some 0
  ∧ values !! (length values - 1)%nat = Some 0.
Proof.
  intros Hclosed Hrun.
  enough (terminal_zero env values) as (Hlen & H0 & Hlast).
  { rewrite Hlen. replace (length (states env) + 2 - 1)%nat
      with (length (states env) + 1)%nat by lia. done. }
  pose (P := λ acc : list Q * gmap Z (list Q), terminal_zero env acc.1).
  change (P (values, returns)).
  destruct Hrun as [Hrun|Hrun].
  - eapply (iterate_inv _ P); [| |exact Hrun]; [|apply (value_array_terminal env)].
    intros; eapply first_visit_iteration_terminal; eauto.
  - eapply (iterate_inv _ P); [| |exact Hrun]; [|apply (value_array_terminal env)].
    intros; eapply every_visit_iteration_terminal; eauto.
Qed.

(** One iteration of first-visit prediction on the 4x4 grid, along the
    episode 5 → 9 → 5 → 1 → 0. *)
Lemma terminal_values_stay_zero_witness :
  ∃ values returns st',
    first_visit_mc Grid.gw 10 Grid.gw 1 (Runs.start Runs.there_and_back)
      = Ok (values, returns) st'
    ∧ length values = 16%nat
    ∧ values !! 0%nat = Some 0
    ∧ values !! (length values - 1)%nat = Some 0.
Proof.
  assert (∃ values returns st',
            first_visit_mc Grid.gw 10 Grid.gw 1 (Runs.start Runs.there_and_back)
            = Ok (values, returns) st') as (values & returns & st' & Hrun).
  { eexists _, _, _. vm_compute. reflexivity. }
  exists values, returns, st'. split; [exact Hrun|].
  apply (terminal_values_stay_zero Grid.gw Grid.gw 10 1
           (Runs.start Runs.there_and_back) values returns st').
  - apply grid_closed.
  - left. exact Hrun.
Defined.

End PredictionSpec.

(* ------------------------------------------------------------------ *)
(** ** Numbers, [np.argmax] and the store *)
(* ------------------------------------------------------------------ *)

Module NumFacts.
Import Props.

Lemma Qltb_lt x y : Qltb x y = true ↔ x < y.
Proof.
  unfold Qltb. rewrite negb_true_iff. split.
  - intros H. apply Qnot_le_lt. intros Hle. apply Qle_bool_iff in Hle. congruence.
  - intros H. destruct (Qle_bool y x) eqn:E; [|done].
    apply Qle_bool_iff in E. by apply Qlt_not_le in H.
Qed.

Lemma Qltb_ge x y : Qltb x y = false ↔ y <= x.
Proof.
  unfold Qltb. rewrite negb_false_iff. apply Qle_bool_iff.
Qed.

Lemma argmax_from_spec l : ∀ pre best besti,
  pre !! besti = Some best →
  (∀ j x, pre !! j = Some x → x <= best ∧ ((j < besti)%nat → x < best)) →
  first_max (pre ++ l) (argmax_from best besti (length pre) l).
Proof.
  induction l as [|x l IH]; intros pre best besti Hbest Hpre; simpl.
  - rewrite app_nil_r. by exists best.
  - assert (besti < length pre)%nat as Hlt by by eapply lookup_lt_Some.
    replace (pre ++ x :: l) with ((pre ++ [x]) ++ l) by by rewrite <- app_assoc.
    replace (S (length pre)) with (length (pre ++ [x]))
      by (rewrite length_app; simpl; lia).
    destruct (Qltb best x) eqn:E.
    + apply Qltb_lt in E. apply IH.
      * by rewrite lookup_app_r, Nat.sub_diag.
      * intros j y Hj. apply lookup_app_Some in Hj as [Hj|[Hge Hj]].
        -- destruct (Hpre j y Hj) as [Hle _]. split; [lra|]. intros _. lra.
        -- apply list_lookup_singleton_Some in Hj as [Hj ->].
           split; [lra|]. intros ?. lia.
    + apply Qltb_ge in E. apply IH.
      * by apply lookup_app_l_Some.
      * intros j y Hj. apply lookup_app_Some in Hj as [Hj|[Hge Hj]]; [eauto|].
        apply list_lookup_singleton_Some in Hj as [Hj ->].
        split; [done|]. intros ?. lia.
Qed.

Lemma argmax_spec l k : argmax l = Some k → first_max l k.
Proof.
  destruct l as [|x l]; [discriminate|]. simpl. intros [= <-].
  apply (argmax_from_spec l [x] x 0%nat); [done|].
  intros j y Hj. apply list_lookup_singleton_Some in Hj as [-> ->].
  split; [lra|]. intros ?. lia.
Qed.

Lemma argmax_is_Some l : l ≠ [] → ∃ k, argmax l = Some k.
Proof. destruct l; [done|]. simpl. eauto. Qed.

Lemma first_max_lt l k : first_max l k → (k < length l)%nat.
Proof. intros (x & Hx & _). by eapply lookup_lt_Some. Qed.

(** Overwriting one entry moves the total by the difference. *)
Lemma Qsum_insert l : ∀ k x y,
  l !! k = Some x → Qsum (<[k := y]> l) == Qsum l - x + y.
Proof.
  induction l as [|z l IH]; intros [|k] x y Hk; simpl in *; try discriminate.
  - injection Hk as ->. lra.
  - rewrite (IH k x y Hk). lra.
Qed.

(** No entry exceeds the maximum, so the total of [n] entries is at most
    [n] times the maximum. *)
Lemma Qsum_le_max l m :
  (∀ x, x ∈ l → x <= m) → Qsum l <= inject_Z (Z.of_nat (length l)) * m.
Proof.
  induction l as [|x l IH]; intros Hm; simpl length; simpl Qsum.
  - change (0 <= 0 * m). lra.
  - rewrite Nat2Z.inj_succ. unfold Z.succ. rewrite inject_Z_plus.
    assert (x <= m) by (apply Hm; by left).
    assert (Qsum l <= inject_Z (Z.of_nat (length l)) * m)
      by (apply IH; intros; apply Hm; by right).
    change (inject_Z 1) with 1. lra.
Qed.

(** The one-hot list built by [generate_greedy_policy]. *)
Lemma one_hot_sum k n : ∀ a, (a ≤ k < a + n)%nat →
  Qsum (map (λ i, if (i =? k)%nat then 1 else 0) (seq a n)) == 1.
Proof.
  induction n as [|n IH]; intros a Hk; simpl; [lia|].
  destruct (a =? k)%nat eqn:E.
  - apply Nat.eqb_eq in E. subst a.
    assert (∀ m b, (k < b)%nat →
       Qsum (map (λ i, if (i =? k)%nat then 1 else 0) (seq b m)) == 0) as Hzero.
    { induction m as [|m IHm]; intros b Hb; simpl; [lra|].
      destruct (b =? k)%nat eqn:E'; [apply Nat.eqb_eq in E'; lia|].
      rewrite IHm by lia. lra. }
    rewrite Hzero by lia. lra.
  - apply Nat.eqb_neq in E. rewrite IH by lia. lra.
Qed.

Lemma one_hot_nonneg k l :
  Forall (Qle 0) (map (λ i : nat, if (i =? k)%nat then 1 else 0) l).
Proof.
  apply Forall_forall. intros x Hx. apply list_elem_of_fmap in Hx as (i & -> & _).
  destruct (i =? k)%nat; lra.
Qed.

End NumFacts.

(* ------------------------------------------------------------------ *)
(** ** The policy generators *)
(* ------------------------------------------------------------------ *)

Module Policies.
Import ExploringStarts Props NumFacts.

(** The three generators are one loop over [states]: each turn creates a
    list object and binds the state to it. *)
Lemma policy_fold (f : policy → Z → M policy) (acts : list string)
    (P : Z → list Q → Prop) :
  (∀ pi s st pi' st', f pi s st = Ok pi' st' →
     ∃ v, P s v ∧ pi' = <[s := (acts, length (heap st))]> pi
          ∧ heap st' = heap st ++ [v]) →
  ∀ ss pi0 st pi st', foldM f ss pi0 st = Ok pi st' →
    bindings_with P acts pi0 (heap st) →
    bindings_with P acts pi (heap st')
    ∧ (∀ s, s ∈ ss ∨ is_Some (pi0 !! s) → is_Some (pi !! s)).
Proof.
  intros Hf. induction ss as [|s ss IH]; simpl; intros pi0 st pi st' Hrun Hinv.
  - apply ret_Ok in Hrun as [<- <-]. split; [done|].
    intros s [Hs|Hs]; [by apply elem_of_nil in Hs|done].
  - apply bind_Ok in Hrun as (pi1 & st1 & Hstep & Hrun).
    destruct (Hf _ _ _ _ _ Hstep) as (v & Hv & -> & Hheap).
    apply IH in Hrun as [Hb Hdom].
    + split; [done|]. intros s' [Hs'|Hs']; apply Hdom.
      * apply elem_of_cons in Hs' as [->|Hs']; [right|by left].
        rewrite lookup_insert_eq. eauto.
      * right. destruct (decide (s = s')) as [->|Hne].
        -- rewrite lookup_insert_eq. eauto.
        -- by rewrite lookup_insert_ne.
    + intros s' e He. rewrite Hheap.
      destruct (decide (s = s')) as [->|Hne].
      * rewrite lookup_insert_eq in He. injection He as <-. simpl.
        split; [done|]. exists v. split; [|done].
        by rewrite lookup_app_r, Nat.sub_diag.
      * rewrite lookup_insert_ne in He by done.
        destruct (Hinv _ _ He) as (? & v0 & Hv0 & ?).
        split; [done|]. exists v0. split; [|done]. by apply lookup_app_l_Some.
Qed.

Lemma policy_fold_with (f : policy → Z → M policy) (env : GridWorld)
    (P : Z → list Q → Prop) :
  (∀ pi s st pi' st', f pi s st = Ok pi' st' →
     ∃ v, P s v ∧ pi' = <[s := (actions env, length (heap st))]> pi
          ∧ heap st' = heap st ++ [v]) →
  ∀ st pi st', foldM f (states env) ∅ st = Ok pi st' →
    policy_with P env pi (heap st').
Proof.
  intros Hf st pi st' Hrun.
  destruct (policy_fold f (actions env) P Hf _ _ _ _ _ Hrun) as [Hb Hdom].
  { intros s e He. by rewrite lookup_empty in He. }
  intros s Hs. destruct (Hdom s) as [[acts pr] He]; [by left|].
  destruct (Hb _ _ He) as (Hacts & v & Hv & HP). simpl in *. subst acts.
  by exists pr, v.
Qed.

Lemma alloc_Ok v st l st' :
  alloc v st = Ok l st' → l = length (heap st) ∧ heap st' = heap st ++ [v].
Proof. unfold alloc. by intros [= <- <-]. Qed.

Lemma sample_Ok st u st' :
  sample st = Ok u st' → (0 <= u ∧ u < 1) ∧ heap st' = heap st.
Proof.
  unfold sample, mbind, M_bind, next_draw.
  destruct (tape st) as [|[i|u0] t]; try discriminate.
  destruct (Qle_bool 0 u0) eqn:E1; [|discriminate].
  destruct (Qltb u0 1) eqn:E2; [|discriminate].
  simpl. intros [= <- <-]. apply Qle_bool_iff in E1. apply Qltb_lt in E2. done.
Qed.

Lemma sorted3 a b c :
  ∃ r0 r1 r2, sorted [a; b; c] = [r0; r1; r2]
    ∧ r0 <= r1 ∧ r1 <= r2
    ∧ (∀ lo hi, (lo <= a ∧ a < hi) → (lo <= b ∧ b < hi) → (lo <= c ∧ c < hi) →
         lo <= r0 ∧ r2 < hi).
Proof.
  unfold sorted. simpl.
  destruct (Qle_bool b c) eqn:Ebc; simpl;
    [destruct (Qle_bool a b) eqn:Eab | destruct (Qle_bool a c) eqn:Eac]; simpl;
    try destruct (Qle_bool a c) eqn:Eac'; simpl;
    try destruct (Qle_bool a b) eqn:Eab'; simpl;
    repeat match goal with
    | H : Qle_bool _ _ = true |- _ => apply Qle_bool_iff in H
    | H : Qle_bool ?x ?y = false |- _ =>
        assert (y < x) by (apply Qnot_le_lt; intros Hle;
                           apply Qle_bool_iff in Hle; congruence); clear H
    end;
    eexists _, _, _; (split; [reflexivity|]);
    (split; [lra|]); (split; [lra|]); intros lo hi ? ? ?; lra.
Qed.

(** A turn of [generate_any_policy] creates a distribution of four entries. *)
Lemma any_policy_step env (pi : policy) s st (pi' : policy) st' :
  (u ← forM (λ _, sample) (seq 0 3);
   p ← gaps (sorted u);
   prob ← alloc p;
   mret (<[s := (actions env, prob)]> pi)) st = Ok pi' st' →
  ∃ v, (length v = 4%nat ∧ distribution v)
       ∧ pi' = <[s := (actions env, length (heap st))]> pi
       ∧ heap st' = heap st ++ [v].
Proof.
  intros Hrun. simpl in Hrun.
  apply bind_Ok in Hrun as (u & s1 & Hu & Hrun).
  apply bind_Ok in Hu as (a & sa & Ha & Hu).
  apply bind_Ok in Hu as (u' & sb & Hu' & Hu).
  apply bind_Ok in Hu' as (b & sc & Hb & Hu').
  apply bind_Ok in Hu' as (u'' & sd & Hu'' & Hu').
  apply bind_Ok in Hu'' as (c & se & Hc & Hu'').
  apply bind_Ok in Hu'' as (nil & sf & Hnil & Hu'').
  apply ret_Ok in Hnil as [<- <-]. apply ret_Ok in Hu'' as [<- <-].
  apply ret_Ok in Hu' as [<- <-]. apply ret_Ok in Hu as [<- <-].
  apply sample_Ok in Ha as [Ha Hha]. apply sample_Ok in Hb as [Hb Hhb].
  apply sample_Ok in Hc as [Hc Hhc].
  destruct (sorted3 a b c) as (r0 & r1 & r2 & Hs & H01 & H12 & Hbounds).
  destruct (Hbounds 0 1 Ha Hb Hc) as [Hlo Hhi].
  rewrite Hs in Hrun. simpl in Hrun.
  apply bind_Ok in Hrun as (p & s2 & Hp & Hrun).
  apply ret_Ok in Hp as [<- <-].
  apply bind_Ok in Hrun as (l & s3 & Hl & Hrun).
  apply alloc_Ok in Hl as [-> Hheap]. apply ret_Ok in Hrun as [<- <-].
  exists [r0; r1 - r0; r2 - r1; 1 - r2]. split; [|split].
  - split; [done|]. split.
    + repeat constructor; lra.
    + simpl. lra.
  - congruence.
  - congruence.
Qed.

Lemma forM_dict_get (Qt : qtable) s acts st qv st' :
  forM (λ a, dict_get Qt (s, a)) acts st = Ok qv st' →
  st' = st ∧ Forall2 (λ a q, Qt !! (s, a) = Some q) acts qv.
Proof.
  revert st qv st'. induction acts as [|a acts IH]; simpl; intros st qv st' Hrun.
  - apply ret_Ok in Hrun as [<- <-]. by split.
  - apply bind_Ok in Hrun as (q & s1 & Hq & Hrun).
    apply dict_get_Ok in Hq as [Hq ->].
    apply bind_Ok in Hrun as (qs & s2 & Hqs & Hrun).
    apply IH in Hqs as [-> Hqs]. apply ret_Ok in Hrun as [<- <-].
    split; [done|]. by constructor.
Qed.

Lemma forM_dict_get_total (Qt : qtable) s acts st :
  (∀ a, a ∈ acts → is_Some (Qt !! (s, a))) →
  ∃ qv, forM (λ a, dict_get Qt (s, a)) acts st = Ok qv st.
Proof.
  induction acts as [|a acts IH]; simpl; intros Hdef.
  - by exists [].
  - destruct (Hdef a) as [q Hq]; [by left|].
    destruct IH as [qs Hqs]; [intros; apply Hdef; by right|].
    exists (q :: qs).
    rewrite (bind_eq _ _ st q st) by (unfold dict_get; by rewrite Hq).
    rewrite (bind_eq _ _ st qs st) by done. done.
Qed.

(** A turn of [generate_greedy_policy] creates the one-hot list of the
    first maximum of the state's action values. *)
Lemma greedy_policy_step (env : GridWorld) (Qt : qtable) (pi : policy) (s : Z)
    (st : machine) (pi' : policy) (st' : machine) :
  actions env ≠ [] →
  (q_values ← forM (λ a, dict_get Qt (s, a)) (actions env);
   prob ← alloc (greedy_prob q_values);
   mret (<[s := (actions env, prob)]> pi)) st = Ok pi' st' →
  ∃ v, greedy_for env Qt s v
       ∧ pi' = <[s := (actions env, length (heap st))]> pi
       ∧ heap st' = heap st ++ [v].
Proof.
  intros Hne Hrun.
  apply bind_Ok in Hrun as (qv & s1 & Hqv & Hrun).
  apply forM_dict_get in Hqv as [-> Hqv].
  apply bind_Ok in Hrun as (l & s2 & Hl & Hrun).
  apply alloc_Ok in Hl as [-> Hheap]. apply ret_Ok in Hrun as [<- <-].
  exists (greedy_prob qv). split; [|done].
  pose proof (Forall2_length _ _ _ Hqv) as Hlen.
  destruct (argmax_is_Some qv) as [k Hk].
  { intros ->. destruct (actions env); [done|discriminate]. }
  unfold greedy_prob. rewrite Hk.
  destruct (argmax_spec _ _ Hk) as (q_k & Hqk & Hmax).
  destruct (Forall2_lookup_r _ _ _ _ _ Hqv Hqk) as (a_k & Hak & HQk).
  exists k, a_k, q_k. split; [done|]. split; [done|]. split; [|split].
  - intros j a_j q_j Haj HQj.
    destruct (Forall2_lookup_l _ _ _ _ _ Hqv Haj) as (q' & Hq' & HQ').
    rewrite HQj in HQ'. injection HQ' as <-. by apply Hmax.
  - rewrite length_map, length_seq. done.
  - intros j Hj. rewrite list_lookup_fmap, lookup_seq_lt by lia. done.
Qed.

Lemma greedy_prob_distribution qv :
  qv ≠ [] → length (greedy_prob qv) = length qv ∧ distribution (greedy_prob qv).
Proof.
  intros Hne. destruct (argmax_is_Some qv Hne) as [k Hk].
  unfold greedy_prob. rewrite Hk.
  pose proof (first_max_lt _ _ (argmax_spec _ _ Hk)) as Hlt.
  split; [by rewrite length_map, length_seq|].
  split; [apply one_hot_nonneg|]. apply one_hot_sum. lia.
Qed.

End Policies.

(* ------------------------------------------------------------------ *)
(** ** Notebook 2: the policy generators *)
(* ------------------------------------------------------------------ *)

Module PolicySpec.
Import ExploringStarts Props NumFacts Policies.

Lemma foldM_total {A B} (f : B → A → M B) (l : list A) :
  (∀ b x st, x ∈ l → ∃ b' st', f b x st = Ok b' st') →
  ∀ b st, ∃ b' st', foldM f l b st = Ok b' st'.
Proof.
  induction l as [|x l IH]; simpl; intros Hf b st; [by eexists _, _|].
  destruct (Hf b x st) as (b1 & st1 & Hx); [by left|].
  destruct (IH (λ b x st H, Hf b x st (list_elem_of_further _ _ _ H)) b1 st1)
    as (b' & st' & Hrest).
  exists b', st'. by rewrite (bind_eq _ _ _ _ _ Hx).
Qed.

(** A turn of [generate_random_policy] creates a list holding 0.25 once per
    action. *)
Lemma random_policy_step (env : GridWorld) (pi : policy) (s : Z)
    (st : machine) (pi' : policy) (st' : machine) :
  (prob ← alloc (map (λ _, 0.25) (actions env));
   mret (<[s := (actions env, prob)]> pi)) st = Ok pi' st' →
  ∃ v, v = map (λ _, 0.25) (actions env)
       ∧ pi' = <[s := (actions env, length (heap st))]> pi
       ∧ heap st' = heap st ++ [v].
Proof.
  intros Hrun. apply bind_Ok in Hrun as (l & s1 & Hl & Hrun).
  apply alloc_Ok in Hl as [-> Hheap]. apply ret_Ok in Hrun as [<- <-]. eauto.
Qed.

Lemma generate_random_policy_total (env : GridWorld) (st : machine) :
  ∃ pi st', generate_random_policy env st = Ok pi st'.
Proof.
  apply foldM_total. intros b x st0 _. by eexists _, _.
Qed.

Lemma policy_with_mono (P P' : Z → list Q → Prop) env pi h :
  (∀ s v, P s v → P' s v) → policy_with P env pi h → policy_with P' env pi h.
Proof.
  intros HPP' Hpi s Hs. destruct (Hpi s Hs) as (pr & v & ? & ? & ?).
  exists pr, v. eauto.
Qed.

(** C6.  In an environment of four actions, a policy produced by
    [generate_random_policy], [generate_any_policy] or
    [generate_greedy_policy] binds every state to a list of four
    probabilities, none negative, of total 1 (exactly, in rational
    arithmetic); [generate_random_policy] binds every state to
    [0.25, 0.25, 0.25, 0.25]. *)
Theorem generated_policies_are_distributions (env : GridWorld) (Qt : qtable)
    (st : machine) (pi : policy) (st' : machine) :
  length (actions env) = 4%nat →
  generate_random_policy env st = Ok pi st'
  ∨ generate_any_policy env st = Ok pi st'
  ∨ generate_greedy_policy env Qt st = Ok pi st' →
  policy_with (λ _ v, length v = 4%nat ∧ distribution v) env pi (heap st')
  ∧ (generate_random_policy env st = Ok pi st' →
     policy_with (λ _ v, v = [0.25; 0.25; 0.25; 0.25]) env pi (heap st')).
Proof.
  intros H4 Hrun.
  assert (map (λ _ : string, 0.25) (actions env) = [0.25; 0.25; 0.25; 0.25]) as Hq.
  { destruct (actions env) as [|? [|? [|? [|? [|? ?]]]]]; try discriminate. done. }
  assert (generate_random_policy env st = Ok pi st' →
          policy_with (λ _ v, v = [0.25; 0.25; 0.25; 0.25]) env pi (heap st'))
    as Hrandom.
  { intros Hr. unfold generate_random_policy in Hr.
    eapply policy_fold_with; [|exact Hr].
    intros pi0 s s0 pi1 s1 Hstep.
    apply random_policy_step in Hstep as (v & Hv & ? & ?).
    exists v. rewrite <- Hq. eauto. }
  split; [|done].
  destruct Hrun as [Hr|[Ha|Hg]].
  - eapply policy_with_mono; [|by apply Hrandom].
    intros _ v ->. split; [done|]. split; [repeat constructor; lra|].
    vm_compute. reflexivity.
  - unfold generate_any_policy in Ha.
    eapply policy_fold_with; [|exact Ha].
    intros pi0 s s0 pi1 s1 Hstep. by apply any_policy_step in Hstep.
  - unfold generate_greedy_policy in Hg.
    eapply policy_fold_with; [|exact Hg].
    intros pi0 s s0 pi1 s1 Hstep.
    apply bind_Ok in Hstep as (qv & s2 & Hqv & Hstep).
    apply forM_dict_get in Hqv as [-> Hqv].
    apply bind_Ok in Hstep as (l & s3 & Hl & Hstep).
    apply alloc_Ok in Hl as [-> Hheap]. apply ret_Ok in Hstep as [<- <-].
    exists (greedy_prob qv). split; [|done].
    pose proof (Forall2_length _ _ _ Hqv) as Hlen.
    destruct (greedy_prob_distribution qv) as [Hl Hd].
    { intros ->. rewrite H4 in Hlen. discriminate. }
    split; [congruence|done].
Qed.

(** The equiprobable policy of the 4x4 grid. *)
Lemma generated_policies_are_distributions_witness :
  generate_random_policy Grid.gw (Runs.start [])
    = Ok Runs.uniform_policy (Machine [] Runs.uniform_store)
  ∧ policy_with (λ _ v, length v = 4%nat ∧ distribution v)
                Grid.gw Runs.uniform_policy Runs.uniform_store
  ∧ policy_with (λ _ v, v = [0.25; 0.25; 0.25; 0.25])
                Grid.gw Runs.uniform_policy Runs.uniform_store.
Proof.
  assert (generate_random_policy Grid.gw (Runs.start [])
          = Ok Runs.uniform_policy (Machine [] Runs.uniform_store)) as Hrun
    by (vm_compute; reflexivity).
  split; [exact Hrun|].
  destruct (generated_policies_are_distributions Grid.gw ∅ (Runs.start [])
              Runs.uniform_policy (Machine [] Runs.uniform_store))
    as [Hd Hq].
  - reflexivity.
  - left. exact Hrun.
  - split; [exact Hd|]. apply Hq. exact Hrun.
Defined.

(** C8.  For an action-value table defined on every action of every
    state, [generate_greedy_policy] returns a policy that binds each state
    to probability 1 on the action of maximal value, the first one in the
    order of [actions] among equals, and to probability 0 on every other
    action. *)
Theorem greedy_policy_picks_first_maximum (env : GridWorld) (Qt : qtable)
    (st : machine) :
  actions env ≠ [] →
  (∀ s a, s ∈ states env → a ∈ actions env → is_Some (Qt !! (s, a))) →
  ∃ pi st',
    generate_greedy_policy env Qt st = Ok pi st'
    ∧ policy_with (greedy_for env Qt) env pi (heap st').
Proof.
  intros Hne Hdef.
  assert (∃ pi st', generate_greedy_policy env Qt st = Ok pi st')
    as (pi & st' & Hrun).
  { apply foldM_total. intros pi0 s s0 Hs.
    destruct (forM_dict_get_total Qt s (actions env) s0) as [qv Hqv]; [eauto|].
    eexists _, _. rewrite (bind_eq _ _ _ _ _ Hqv). reflexivity. }
  exists pi, st'. split; [done|].
  unfold generate_greedy_policy in Hrun.
  eapply policy_fold_with; [|exact Hrun].
  intros pi0 s s0 pi1 s1 Hstep. by apply greedy_policy_step in Hstep.
Qed.

Lemma learnt_table_defined (s : Z) (a : string) :
  s ∈ states Grid.gw → a ∈ actions Grid.gw → is_Some (Runs.learnt_table !! (s, a)).
Proof.
  intros Hs Ha. simpl in Hs, Ha.
  repeat (apply elem_of_cons in Ha as [->|Ha];
    [repeat (apply elem_of_cons in Hs as [->|Hs]; [vm_compute; by eexists|]);
     by apply elem_of_nil in Hs|]).
  by apply elem_of_nil in Ha.
Qed.

(** The greedy policy of the 4x4 grid for [Runs.learnt_table]. *)
Lemma greedy_policy_picks_first_maximum_witness :
  ∃ pi st',
    generate_greedy_policy Grid.gw Runs.learnt_table (Runs.start []) = Ok pi st'
    ∧ policy_with (greedy_for Grid.gw Runs.learnt_table) Grid.gw pi (heap st').
Proof.
  apply (greedy_policy_picks_first_maximum Grid.gw Runs.learnt_table (Runs.start [])).
  - discriminate.
  - apply learnt_table_defined.
Defined.

(** In state 1 the learnt entry of L (-0.9) beats the initial -1000 of the
    other actions; in state 2 all four entries are equal and U, the first
    action, is selected. *)
Example greedy_policy_on_learnt_table :
  ∃ pi st' pr1 pr2,
    generate_greedy_policy Grid.gw Runs.learnt_table (Runs.start []) = Ok pi st'
    ∧ pi !! 1%Z = Some (["U"; "D"; "L"; "R"]%string, pr1)
    ∧ heap st' !! pr1 = Some [0; 0; 1; 0]
    ∧ pi !! 2%Z = Some (["U"; "D"; "L"; "R"]%string, pr2)
    ∧ heap st' !! pr2 = Some [1; 0; 0; 0].
Proof.
  eexists _, _, _, _.
  split; [vm_compute; reflexivity|].
  split; [vm_compute; reflexivity|].
  split; [vm_compute; reflexivity|].
  split; vm_compute; reflexivity.
Qed.

End PolicySpec.

(* ------------------------------------------------------------------ *)
(** ** The exploration perturbation *)
(* ------------------------------------------------------------------ *)

Module Perturbation.
Import ExploringStarts Props NumFacts.

Lemma heap_get_Ok l st v st' :
  heap_get l st = Ok v st' → heap st !! l = Some v ∧ st' = st.
Proof. unfold heap_get. destruct (heap st !! l); [|discriminate]. by intros [= -> ->]. Qed.

Lemma heap_get_eq l st v : heap st !! l = Some v → heap_get l st = Ok v st.
Proof. unfold heap_get. by intros ->. Qed.

Lemma heap_set_Ok l v st u st' :
  heap_set l v st = Ok u st' →
  (l < length (heap st))%nat ∧ st' = Machine (tape st) (<[l := v]> (heap st)).
Proof. unfold heap_set. destruct (decide _); [|discriminate]. by intros [= <-]. Qed.

Lemma iadd_Ok l k d st u st' :
  iadd l k d st = Ok u st' →
  ∃ v x, heap st !! l = Some v ∧ v !! k = Some x
         ∧ st' = Machine (tape st) (<[l := <[k := x + d]> v]> (heap st)).
Proof.
  unfold iadd. intros Hrun. apply bind_Ok in Hrun as (v & s1 & Hv & Hrun).
  apply heap_get_Ok in Hv as [Hv ->].
  destruct (v !! k) as [x|] eqn:Hk; [|discriminate].
  apply heap_set_Ok in Hrun as [_ ->]. eauto.
Qed.

Lemma iadd_eq l k d st v x :
  heap st !! l = Some v → v !! k = Some x →
  iadd l k d st = Ok () (Machine (tape st) (<[l := <[k := x + d]> v]> (heap st))).
Proof.
  intros Hv Hk. unfold iadd. rewrite (bind_eq _ _ _ _ _ (heap_get_eq _ _ _ Hv)).
  rewrite Hk. unfold heap_set. rewrite decide_True; [done|].
  by eapply lookup_lt_Some.
Qed.

Lemma np_argmax_Ok v st k st' : np_argmax v st = Ok k st' → argmax v = Some k ∧ st' = st.
Proof. unfold np_argmax. destruct (argmax v); [|discriminate]. by intros [= -> ->]. Qed.

Lemma choice_eq {A} (xs : list A) i x st rest :
  xs !! i = Some x → tape st = Pick i :: rest →
  choice xs st = Ok x (Machine rest (heap st)).
Proof.
  intros Hi Ht. unfold choice. destruct xs as [|x0 xs]; [done|].
  unfold mbind, M_bind, next_draw. rewrite Ht, Hi. done.
Qed.

Lemma choice_p_heap {A} (xs : list A) p st x st' :
  choice_p xs p st = Ok x st' → heap st' = heap st.
Proof.
  unfold choice_p. repeat (destruct (negb _) || destruct (existsb _ _)); try discriminate.
  unfold mbind, M_bind, next_draw.
  destruct (tape st) as [|[i|u] t]; try discriminate.
  destruct (xs !! i); [|discriminate]. destruct (p !! i); [|discriminate].
  destruct (Qltb 0 _); [|discriminate]. by intros [= <- <-].
Qed.

(** The positions [np.delete(np.arange(4), k)] offers: three of them, none
    equal to [k], all below 4. *)
Lemma np_delete_arange4_eq k st :
  (k < 4)%nat →
  ∃ others, np_delete_arange4 k st = Ok others st
            ∧ length others = 3%nat
            ∧ ∀ j, j ∈ others → j ≠ k ∧ (j < 4)%nat.
Proof.
  intros Hk. unfold np_delete_arange4. rewrite decide_True by done.
  eexists. split; [reflexivity|].
  destruct k as [|[|[|[|k]]]]; try lia; vm_compute; (split; [done|]);
    intros j Hj; repeat (apply elem_of_cons in Hj as [->|Hj]; [lia|]);
    by apply elem_of_nil in Hj.
Qed.

(** One [+= .1] line: the total grows by 0.1 and no entry decreases. *)
Lemma bump_other_eq pr v st i rest m :
  heap st !! pr = Some v → length v = 4%nat →
  Forall (Qle 0) v → Qsum v == m →
  tape st = Pick i :: rest → (i < 3)%nat →
  ∃ v', bump_other pr st = Ok () (Machine rest (<[pr := v']> (heap st)))
        ∧ length v' = 4%nat ∧ Forall (Qle 0) v' ∧ Qsum v' == m + 0.1.
Proof.
  intros Hv Hlen Hpos Hsum Ht Hi. unfold bump_other.
  rewrite (bind_eq _ _ _ _ _ (heap_get_eq _ _ _ Hv)).
  destruct (argmax_is_Some v) as [k Hk]; [by destruct v|].
  pose proof (first_max_lt _ _ (argmax_spec _ _ Hk)) as Hk4. rewrite Hlen in Hk4.
  rewrite (bind_eq _ _ st k st) by (unfold np_argmax; by rewrite Hk).
  destruct (np_delete_arange4_eq k st Hk4) as (others & Hdel & Hlen3 & Hothers).
  rewrite (bind_eq _ _ _ _ _ Hdel).
  destruct (lookup_lt_is_Some_2 others i) as [j Hj]; [lia|].
  rewrite (bind_eq _ _ _ _ _ (choice_eq _ _ _ _ _ Hj Ht)).
  destruct (Hothers j) as [_ Hj4]; [by eapply list_elem_of_lookup_2|].
  destruct (lookup_lt_is_Some_2 v j) as [x Hx]; [lia|].
  rewrite (iadd_eq pr j 0.1 _ v x) by done. simpl.
  exists (<[j := x + 0.1]> v). split; [done|].
  assert (0 <= x) by (rewrite Forall_forall in Hpos; apply Hpos;
                      by eapply list_elem_of_lookup_2).
  split; [by rewrite length_insert|]. split.
  - apply Forall_insert; [done|lra].
  - rewrite (Qsum_insert _ _ _ _ Hx). lra.
Qed.

(** The [-= .2] line: the maximum of four probabilities is at least 0.25,
    so subtracting 0.2 leaves it non-negative. *)
Lemma sub_at_argmax_eq pr v st :
  heap st !! pr = Some v → length v = 4%nat → distribution v →
  ∃ k x, argmax v = Some k ∧ v !! k = Some x ∧ 0.25 <= x
    ∧ iadd pr k (- 0.2) st
      = Ok () (Machine (tape st) (<[pr := <[k := x + - 0.2]> v]> (heap st)))
    ∧ Forall (Qle 0) (<[k := x + - 0.2]> v)
    ∧ Qsum (<[k := x + - 0.2]> v) == 0.8.
Proof.
  intros Hv Hlen [Hpos Hsum].
  destruct (argmax_is_Some v) as [k Hk]; [by destruct v|].
  destruct (argmax_spec _ _ Hk) as (x & Hx & Hmax).
  assert (0.25 <= x) as Hquarter.
  { pose proof (Qsum_le_max v x) as Hle. rewrite Hlen in Hle.
    change (inject_Z (Z.of_nat 4)) with 4 in Hle.
    assert (Qsum v <= 4 * x); [|lra].
    apply Hle. intros y Hy. apply list_elem_of_lookup in Hy as [j Hj].
    by apply (Hmax j y). }
  exists k, x. split; [done|]. split; [done|]. split; [done|].
  split; [by apply iadd_eq|]. split.
  - apply Forall_insert; [done|lra].
  - rewrite (Qsum_insert _ _ _ _ Hx). lra.
Qed.

(** One [+= .1] line, with the position it adds to. *)
Lemma bump_other_at pr v h k i j y rest :
  h !! pr = Some v → argmax v = Some k → (k < 4)%nat →
  filter (λ i, i ≠ k) (seq 0 4) !! i = Some j → v !! j = Some y →
  bump_other pr (Machine (Pick i :: rest) h)
  = Ok () (Machine rest (<[pr := <[j := y + 0.1]> v]> h)).
Proof.
  intros Hv Hk Hk4 Hi Hy. unfold bump_other.
  rewrite (bind_eq _ _ _ v (Machine (Pick i :: rest) h)) by by apply heap_get_eq.
  rewrite (bind_eq _ _ _ k (Machine (Pick i :: rest) h))
    by (unfold np_argmax; by rewrite Hk).
  rewrite (bind_eq _ _ _ (filter (λ i, i ≠ k) (seq 0 4)) (Machine (Pick i :: rest) h))
    by (unfold np_delete_arange4; by rewrite decide_True).
  rewrite (bind_eq _ _ _ _ _
             (choice_eq _ i j (Machine (Pick i :: rest) h) rest Hi eq_refl)).
  by rewrite (iadd_eq pr j 0.1 _ v y).
Qed.

(** Among the positions offered, the first one always exists, and every
    position other than [k] is offered. *)
Lemma others_positions k :
  (k < 4)%nat →
  (∃ j, filter (λ i, i ≠ k) (seq 0 4) !! 0%nat = Some j ∧ (j < 4)%nat)
  ∧ ∀ j, (j < 4)%nat → j ≠ k →
      ∃ i, filter (λ i, i ≠ k) (seq 0 4) !! i = Some j.
Proof.
  intros Hk. destruct k as [|[|[|[|k]]]]; try lia; (split; [eexists; split; [reflexivity|lia]|]);
    intros [|[|[|[|j]]]] Hj Hne; try lia; try done;
    first [by exists 0%nat | by exists 1%nat | by exists 2%nat].
Qed.

(** Adding 0.1 somewhere lowers no entry. *)
Lemma bump_keeps_positive (v : list Q) j' y j q :
  v !! j' = Some y → v !! j = Some q → 0 < q →
  ∃ q', <[j' := y + 0.1]> v !! j = Some q' ∧ 0 < q'.
Proof.
  intros Hy Hq Hpos. destruct (decide (j' = j)) as [->|Hne].
  - exists (y + 0.1). rewrite list_lookup_insert_eq by by eapply lookup_lt_Some.
    split; [done|]. rewrite Hy in Hq. injection Hq as ->. lra.
  - exists q. by rewrite list_lookup_insert_ne.
Qed.

(** For any position [j], the draws of the two [+= .1] lines can be such
    that the perturbed list gives [j] a positive probability. *)
Lemma perturb_towards pr v h j :
  h !! pr = Some v → length v = 4%nat → distribution v → (j < 4)%nat →
  ∃ i1 i2 v',
    (∀ rest, perturb pr (Machine (Pick i1 :: Pick i2 :: rest) h)
             = Ok () (Machine rest (<[pr := v']> h)))
    ∧ length v' = 4%nat ∧ distribution v'
    ∧ ∃ q, v' !! j = Some q ∧ 0 < q.
Proof.
  intros Hv Hlen Hd Hj.
  assert (pr < length h)%nat as Hpr by by eapply lookup_lt_Some.
  destruct (sub_at_argmax_eq pr v (Machine [] h) Hv Hlen Hd)
    as (k & x & Hk & Hx & _ & _ & Hpos1 & Hsum1).
  set (v1 := <[k := x + - 0.2]> v) in *.
  assert (length v1 = 4%nat) as Hlen1 by (unfold v1; by rewrite length_insert).
  (* the first [+= .1] *)
  destruct (argmax_is_Some v1) as [k1 Hk1]; [by destruct v1|].
  destruct (argmax_spec _ _ Hk1) as (x1 & Hx1 & Hmax1).
  assert (k1 < 4)%nat as Hk14 by (rewrite <- Hlen1; by eapply lookup_lt_Some).
  assert (0.2 <= x1) as Hx1pos.
  { pose proof (Qsum_le_max v1 x1) as Hle. rewrite Hlen1 in Hle.
    change (inject_Z (Z.of_nat 4)) with 4 in Hle.
    assert (Qsum v1 <= 4 * x1); [|lra].
    apply Hle. intros y Hy. apply list_elem_of_lookup in Hy as [j' Hj'].
    by apply (Hmax1 j' y). }
  destruct (others_positions k1 Hk14) as [(j0 & Hj0 & Hj04) Hall].
  assert (∃ i1 j1 y1, filter (λ i, i ≠ k1) (seq 0 4) !! i1 = Some j1
            ∧ v1 !! j1 = Some y1
            ∧ ∃ q, <[j1 := y1 + 0.1]> v1 !! j = Some q ∧ 0 < q)
    as (i1 & j1 & y1 & Hi1 & Hy1 & q2 & Hq2 & Hq2pos).
  { destruct (decide (j = k1)) as [->|Hne].
    - destruct (lookup_lt_is_Some_2 v1 j0) as [y0 Hy0]; [lia|].
      exists 0%nat, j0, y0. split; [done|]. split; [done|].
      eapply bump_keeps_positive; [done|done|lra].
    - destruct (Hall j Hj Hne) as [i Hi].
      destruct (lookup_lt_is_Some_2 v1 j) as [y Hy]; [lia|].
      exists i, j, y. split; [done|]. split; [done|].
      exists (y + 0.1). rewrite list_lookup_insert_eq by lia. split; [done|].
      assert (0 <= y); [|lra]. rewrite Forall_forall in Hpos1. apply Hpos1.
      by eapply list_elem_of_lookup_2. }
  set (v2 := <[j1 := y1 + 0.1]> v1) in *.
  assert (0 <= y1) as Hy1pos
    by (rewrite Forall_forall in Hpos1; apply Hpos1; by eapply list_elem_of_lookup_2).
  assert (length v2 = 4%nat) as Hlen2 by (unfold v2; by rewrite length_insert).
  assert (Forall (Qle 0) v2) as Hpos2 by (apply Forall_insert; [done|lra]).
  assert (Qsum v2 == 0.8 + 0.1) as Hsum2
    by (unfold v2; rewrite (Qsum_insert _ _ _ _ Hy1); lra).
  (* the second [+= .1] *)
  destruct (argmax_is_Some v2) as [k2 Hk2]; [by destruct v2|].
  assert (k2 < 4)%nat as Hk24
    by (rewrite <- Hlen2; by apply first_max_lt, argmax_spec).
  destruct (others_positions k2 Hk24) as [(j2 & Hj2 & Hj24) _].
  destruct (lookup_lt_is_Some_2 v2 j2) as [y2 Hy2]; [lia|].
  assert (0 <= y2) as Hy2pos
    by (rewrite Forall_forall in Hpos2; apply Hpos2; by eapply list_elem_of_lookup_2).
  destruct (bump_keeps_positive v2 j2 y2 j q2 Hy2 Hq2 Hq2pos) as (q3 & Hq3 & Hq3pos).
  exists i1, 0%nat, (<[j2 := y2 + 0.1]> v2).
  split; [|split; [by rewrite length_insert|split; [|eauto]]].
  - intros rest. unfold perturb.
    rewrite (bind_eq _ _ _ v (Machine (Pick i1 :: Pick 0 :: rest) h))
      by by apply heap_get_eq.
    rewrite (bind_eq _ _ _ k (Machine (Pick i1 :: Pick 0 :: rest) h))
      by (unfold np_argmax; by rewrite Hk).
    rewrite (bind_eq _ _ _ _ _
               (iadd_eq pr k (- 0.2) (Machine (Pick i1 :: Pick 0 :: rest) h) v x Hv Hx)).
    simpl.
    assert (<[pr := v1]> h !! pr = Some v1) as Hh1
      by by rewrite list_lookup_insert_eq.
    assert (<[pr := v2]> (<[pr := v1]> h) !! pr = Some v2) as Hh2
      by (rewrite list_lookup_insert_eq; [done|by rewrite length_insert]).
    rewrite (bind_eq _ _ _ _ _
               (bump_other_at pr v1 (<[pr := v1]> h) k1 i1 j1 y1 (Pick 0 :: rest)
                  Hh1 Hk1 Hk14 Hi1 Hy1)).
    cbv beta. fold v2.
    rewrite (bump_other_at pr v2 (<[pr := v2]> (<[pr := v1]> h)) k2 0 j2 y2 rest
               Hh2 Hk2 Hk24 Hj2 Hy2).
    by rewrite !list_insert_insert_eq.
  - split; [apply Forall_insert; [done|lra]|].
    rewrite (Qsum_insert _ _ _ _ Hy2). lra.
Qed.

End Perturbation.

Module PerturbationSpec.
Import ExploringStarts Props NumFacts Perturbation.

(** C10.  On a list of four probabilities (none negative, total 1) the
    three perturbation lines of [generate_episode] run without raising,
    whatever two positions the draws select among the three offered, and
    leave a list of four probabilities: none negative, total 1. *)
Theorem perturbation_preserves_distribution (pr : nat) (v : list Q) (st : machine)
    (i1 i2 : nat) (rest : list draw) :
  heap st !! pr = Some v →
  length v = 4%nat →
  distribution v →
  tape st = Pick i1 :: Pick i2 :: rest →
  (i1 < 3)%nat → (i2 < 3)%nat →
  ∃ v', perturb pr st = Ok () (Machine rest (<[pr := v']> (heap st)))
        ∧ length v' = 4%nat ∧ distribution v'.
Proof.
  intros Hv Hlen Hdist Ht Hi1 Hi2. unfold perturb.
  assert (pr < length (heap st))%nat as Hpr by by eapply lookup_lt_Some.
  rewrite (bind_eq _ _ _ _ _ (heap_get_eq _ _ _ Hv)).
  destruct (sub_at_argmax_eq pr v st Hv Hlen Hdist)
    as (k & x & Hk & Hx & _ & Hsub & Hpos1 & Hsum1).
  rewrite (bind_eq _ _ st k st) by (unfold np_argmax; by rewrite Hk).
  rewrite (bind_eq _ _ _ _ _ Hsub).
  set (v1 := <[k := x + - 0.2]> v) in *.
  destruct (bump_other_eq pr v1 (Machine (tape st) (<[pr := v1]> (heap st)))
              i1 (Pick i2 :: rest) 0.8)
    as (v2 & Hb1 & Hlen2 & Hpos2 & Hsum2); simpl; try done.
  { by rewrite list_lookup_insert_eq. }
  { unfold v1. by rewrite length_insert. }
  rewrite (bind_eq _ _ _ _ _ Hb1). simpl in Hb1 |- *.
  destruct (bump_other_eq pr v2
              (Machine (Pick i2 :: rest) (<[pr := v2]> (<[pr := v1]> (heap st))))
              i2 rest (0.8 + 0.1))
    as (v3 & Hb2 & Hlen3 & Hpos3 & Hsum3); simpl; try done.
  { rewrite list_lookup_insert_eq; [done|]. by rewrite length_insert. }
  rewrite Hb2. simpl. rewrite !list_insert_insert_eq.
  exists v3. split; [done|]. split; [done|]. split; [done|]. lra.
Qed.

(** The equiprobable list, with the draws 1 and 2. *)
Lemma perturbation_preserves_distribution_witness :
  ∃ v', perturb 0 (Machine [Pick 1; Pick 2] [[0.25; 0.25; 0.25; 0.25]])
          = Ok () (Machine [] [v'])
        ∧ length v' = 4%nat ∧ distribution v'.
Proof.
  apply (perturbation_preserves_distribution 0 [0.25; 0.25; 0.25; 0.25]
           (Machine [Pick 1; Pick 2] [[0.25; 0.25; 0.25; 0.25]]) 1 2 []).
  - reflexivity.
  - reflexivity.
  - split; [repeat constructor; lra|]. vm_compute. reflexivity.
  - reflexivity.
  - lia.
  - lia.
Defined.

(** The same run, evaluated: 0.25 - 0.2 at position 0, then + 0.1 at
    positions 2 and 3. *)
Example perturbation_of_the_equiprobable_list :
  ∃ a b c d,
    perturb 0 (Machine [Pick 1; Pick 2] [[0.25; 0.25; 0.25; 0.25]])
      = Ok () (Machine [] [[a; b; c; d]])
    ∧ a == 0.05 ∧ b == 0.25 ∧ c == 0.35 ∧ d == 0.35.
Proof.
  eexists _, _, _, _. split; [vm_compute; reflexivity|].
  repeat split; vm_compute; reflexivity.
Qed.

End PerturbationSpec.

(* ------------------------------------------------------------------ *)
(** ** Notebook 2: [generate_episode] *)
(* ------------------------------------------------------------------ *)

Module EpisodeSpec.
Import ExploringStarts Props NumFacts Perturbation.

Lemma bump_other_Ok pr st u st' :
  bump_other pr st = Ok u st' → ∃ v', heap st' = <[pr := v']> (heap st).
Proof.
  unfold bump_other. intros Hrun.
  apply bind_Ok in Hrun as (v & s1 & Hv & Hrun). apply heap_get_Ok in Hv as [Hv ->].
  apply bind_Ok in Hrun as (k & s2 & Hk & Hrun). apply np_argmax_Ok in Hk as [Hk ->].
  apply bind_Ok in Hrun as (others & s3 & Hdel & Hrun).
  unfold np_delete_arange4 in Hdel. destruct (decide _); [|discriminate].
  apply ret_Ok in Hdel as [<- <-].
  apply bind_Ok in Hrun as (j & s4 & Hj & Hrun).
  apply choice_elem in Hj as [_ Hheap].
  apply iadd_Ok in Hrun as (v0 & x & _ & _ & ->). simpl. rewrite Hheap. eauto.
Qed.

(** The perturbation writes to the list object [pr] and to nothing else. *)
Lemma perturb_Ok pr st u st' :
  perturb pr st = Ok u st' → ∃ v', heap st' = <[pr := v']> (heap st).
Proof.
  unfold perturb. intros Hrun.
  apply bind_Ok in Hrun as (v & s1 & Hv & Hrun). apply heap_get_Ok in Hv as [Hv ->].
  apply bind_Ok in Hrun as (k & s2 & Hk & Hrun). apply np_argmax_Ok in Hk as [Hk ->].
  apply bind_Ok in Hrun as (u1 & s3 & Hsub & Hrun).
  apply iadd_Ok in Hsub as (v0 & x & _ & _ & ->).
  apply bind_Ok in Hrun as (u2 & s4 & Hb1 & Hb2).
  apply bump_other_Ok in Hb1 as [v1 H1]. apply bump_other_Ok in Hb2 as [v2 H2].
  simpl in H1. exists v2. by rewrite H2, H1, !list_insert_insert_eq.
Qed.

Lemma perturbs_frame pr h h' l :
  perturbs pr h h' → l ≠ pr → h' !! l = h !! l.
Proof.
  intros (t & t' & Hrun) Hne. apply perturb_Ok in Hrun as [v' Hh]. simpl in Hh.
  rewrite Hh. by apply list_lookup_insert_ne.
Qed.

Lemma perturbed_along_frame (pi : policy) ss h h' l :
  perturbed_along pi ss h h' →
  (∀ s e, s ∈ ss → pi !! s = Some e → e.2 ≠ l) →
  h' !! l = h !! l.
Proof.
  induction 1 as [h|s ss e h h1 h' He Hp _ IH]; intros Hl; [done|].
  rewrite IH by (intros s' e' Hs'; apply Hl; by right).
  eapply perturbs_frame; [done|]. apply not_eq_sym. eapply Hl; [by left|done].
Qed.

Section Loop.
Variable gw : GridWorld.

(** The loop appends at least one step; the store is perturbed once for
    the current state and once for the state of every appended step but the
    last. *)
Lemma episode_loop_trace (pi : policy) (fuel : nat) :
  ∀ current_state action episode st episode' st',
    episode_loop gw fuel pi current_state action episode st = Ok episode' st' →
    ∃ middle final,
      episode' = episode ++ middle ++ [final]
      ∧ perturbed_along pi (current_state :: map (λ sar : step, sar.1.1) middle)
                        (heap st) (heap st').
Proof.
  induction fuel as [|fuel IH]; simpl; intros cur act ep st ep' st' Hrun;
    [discriminate|].
  destruct (state_transition gw cur act) as [next reward].
  apply bind_Ok in Hrun as (e & s1 & He & Hrun). apply dict_get_Ok in He as [He ->].
  apply bind_Ok in Hrun as (u & s2 & Hp & Hrun).
  apply bind_Ok in Hrun as (e' & s3 & He' & Hrun). apply dict_get_Ok in He' as [_ ->].
  apply bind_Ok in Hrun as (p & s4 & Hget & Hrun). apply heap_get_Ok in Hget as [_ ->].
  apply bind_Ok in Hrun as (a' & s5 & Hch & Hrun). apply choice_p_heap in Hch.
  assert (perturbs e.2 (heap st) (heap s5)) as Hstep.
  { rewrite Hch. destruct st as [t h], s2 as [t2 h2], u. by exists t, t2. }
  destruct (next =? 0)%Z.
  - apply ret_Ok in Hrun as [<- <-]. exists [], (next, a', reward).
    split; [done|]. econstructor; [done|done|constructor].
  - apply IH in Hrun as (middle & final & -> & Htrace).
    exists ((next, a', reward) :: middle), final. split.
    + by rewrite <- app_assoc.
    + econstructor; [done|done|]. done.
Qed.

End Loop.

(** C9.  [generate_episode] changes the caller's policy in place.  The
    policy dictionary itself is only read; the store of its probability
    lists is perturbed once per step of the returned episode, in order, on
    the list object bound to that step's state, each perturbation starting
    from what the previous ones left (so a state that occurs twice is
    perturbed twice over).  A list object bound to no state of the episode
    is left as it was. *)
Theorem generate_episode_perturbs_policy_in_place (gw : GridWorld) (fuel : nat)
    (env : GridWorld) (s0 : Z) (a0 : string) (pi : policy)
    (st : machine) (episode : list step) (st' : machine) :
  generate_episode gw fuel env s0 a0 pi st = Ok episode st' →
  perturbed_along pi (map (λ sar : step, sar.1.1) episode) (heap st) (heap st')
  ∧ ∀ pr, (∀ s e, s ∈ map (λ sar : step, sar.1.1) episode →
                  pi !! s = Some e → e.2 ≠ pr) →
          heap st' !! pr = heap st !! pr.
Proof.
  unfold generate_episode. intros Hrun.
  apply bind_Ok in Hrun as (full & s1 & Hloop & Hrun).
  apply ret_Ok in Hrun as [<- <-].
  apply episode_loop_trace in Hloop as (middle & final & -> & Htrace).
  rewrite app_assoc, removelast_last. simpl.
  split; [done|]. intros pr Hpr. by eapply perturbed_along_frame.
Qed.

(** An episode from state 5 with action D through 9, 5 and 1: the list of
    state 5 (list object 4) is perturbed twice, from the equiprobable list
    to [0.25, 0.25, 0.15, 0.35]; the list of state 14 is not touched. *)
Lemma generate_episode_perturbs_policy_in_place_witness :
  ∃ episode st',
    generate_episode Grid.gw 10 Grid.gw 5 "D" Runs.uniform_policy
      (Machine Runs.twice_through_5 Runs.uniform_store) = Ok episode st'
    ∧ map (λ sar : step, sar.1.1) episode = [5; 9; 5; 1]%Z
    ∧ (∃ a b c d, heap st' !! 4%nat = Some [a; b; c; d]
                  ∧ a == 0.25 ∧ b == 0.25 ∧ c == 0.15 ∧ d == 0.35)
    ∧ perturbed_along Runs.uniform_policy [5; 9; 5; 1]%Z
                      Runs.uniform_store (heap st')
    ∧ heap st' !! 13%nat = Runs.uniform_store !! 13%nat.
Proof.
  assert (∃ episode st',
    generate_episode Grid.gw 10 Grid.gw 5 "D" Runs.uniform_policy
      (Machine Runs.twice_through_5 Runs.uniform_store) = Ok episode st'
    ∧ map (λ sar : step, sar.1.1) episode = [5; 9; 5; 1]%Z
    ∧ (∃ a b c d, heap st' !! 4%nat = Some [a; b; c; d]
                  ∧ a == 0.25 ∧ b == 0.25 ∧ c == 0.15 ∧ d == 0.35))
    as (episode & st' & Hrun & Hstates & Hfive).
  { eexists _, _. split; [vm_compute; reflexivity|].
    split; [vm_compute; reflexivity|].
    eexists _, _, _, _. split; [vm_compute; reflexivity|].
    repeat split; vm_compute; reflexivity. }
  exists episode, st'. split; [exact Hrun|]. split; [exact Hstates|].
  split; [exact Hfive|].
  destruct (generate_episode_perturbs_policy_in_place _ _ _ _ _ _ _ _ _ Hrun)
    as [Htrace Hframe].
  rewrite Hstates in Htrace, Hframe. split; [exact Htrace|].
  apply Hframe. intros s e Hs He.
  repeat (apply elem_of_cons in Hs as [->|Hs];
          [vm_compute in He; injection He as <-; simpl; lia|]).
  by apply elem_of_nil in Hs.
Defined.

(** C3, refuted as stated: the live [generate_episode] has no step bound.
    On the 4x4 grid, from state 5 with action D, it returns an episode of
    62 steps. *)
Lemma live_generate_episode_exceeds_50_steps :
  ∃ episode st',
    generate_episode Grid.gw 100 Grid.gw 5 "D" Runs.uniform_policy
      (Machine Runs.long_way Runs.uniform_store) = Ok episode st'
    ∧ length episode = 62%nat.
Proof.
  eexists _, _. split; [vm_compute; reflexivity|]. vm_compute. reflexivity.
Qed.

Lemma choice_p_eq {A} (xs : list A) (p : list Q) j a q h rest :
  xs !! j = Some a → p !! j = Some q → 0 < q →
  length xs = length p → distribution p →
  choice_p xs p (Machine (Pick j :: rest) h) = Ok a (Machine rest h).
Proof.
  intros Ha Hq Hpos Hlen [Hnn Hsum]. unfold choice_p.
  rewrite Hlen, Nat.eqb_refl. simpl.
  assert (existsb (λ q, Qltb q 0) p = false) as ->.
  { clear -Hnn. induction Hnn as [|x l Hx _ IH]; simpl; [done|].
    rewrite IH, orb_false_r. by apply Qltb_ge. }
  apply Qeq_bool_iff in Hsum. rewrite Hsum. simpl.
  unfold mbind, M_bind, next_draw. simpl. rewrite Ha, Hq.
  apply Qltb_lt in Hpos. by rewrite Hpos.
Qed.

(** One turn of the live loop, with draws that make it select the action
    at position [j] next. *)
Lemma episode_loop_turn gw (pi : policy) fuel cur act ep h acts pr v j a' next reward :
  pi !! cur = Some (acts, pr) → h !! pr = Some v →
  length v = 4%nat → distribution v →
  acts !! j = Some a' → length acts = 4%nat →
  state_transition gw cur act = (next, reward) →
  ∃ i1 i2 v',
    length v' = 4%nat ∧ distribution v'
    ∧ ∀ rest,
        episode_loop gw (S fuel) pi cur act ep
          (Machine (Pick i1 :: Pick i2 :: Pick j :: rest) h)
        = if (next =? 0)%Z
          then Ok (ep ++ [(next, a', reward)]) (Machine rest (<[pr := v']> h))
          else episode_loop gw fuel pi next a' (ep ++ [(next, a', reward)])
                 (Machine rest (<[pr := v']> h)).
Proof.
  intros Hpi Hv Hlen Hd Ha Hacts Hmove.
  destruct (perturb_towards pr v h j Hv Hlen Hd)
    as (i1 & i2 & v' & Hp & Hlen' & Hd' & q & Hq & Hpos).
  { rewrite <- Hacts. by eapply lookup_lt_Some. }
  exists i1, i2, v'. split; [done|]. split; [done|]. intros rest. simpl.
  rewrite Hmove.
  rewrite (bind_eq _ _ _ (acts, pr) (Machine (Pick i1 :: Pick i2 :: Pick j :: rest) h))
    by (unfold dict_get; by rewrite Hpi).
  simpl. rewrite (bind_eq _ _ _ _ _ (Hp (Pick j :: rest))).
  rewrite (bind_eq _ _ _ (acts, pr) (Machine (Pick j :: rest) (<[pr := v']> h)))
    by (unfold dict_get; by rewrite Hpi).
  assert (<[pr := v']> h !! pr = Some v') as Hv'
    by (rewrite list_lookup_insert_eq; [done|by eapply lookup_lt_Some]).
  rewrite (bind_eq _ _ _ v' (Machine (Pick j :: rest) (<[pr := v']> h)))
    by by apply heap_get_eq.
  simpl. rewrite (bind_eq _ _ _ _ _
                    (choice_p_eq acts v' j a' q (<[pr := v']> h) rest Ha Hq Hpos
                       ltac:(congruence) Hd')).
  by destruct (next =? 0)%Z.
Qed.

(** From state 1 of the 4x4 grid the action U leaves the state unchanged:
    the live loop can take it any number of times before it leaves through
    L. *)
Lemma episode_loop_stays (n : nat) : ∀ ep h v,
  h !! 0%nat = Some v → length v = 4%nat → distribution v →
  ∃ draws full st',
    episode_loop Grid.gw (S (S n)) Runs.uniform_policy 1 "U" ep (Machine draws h)
      = Ok full st'
    ∧ length full = (length ep + n + 2)%nat.
Proof.
  assert (Runs.uniform_policy !! 1%Z = Some (Runs.udlr, 0%nat)) as Hpi
    by (vm_compute; reflexivity).
  induction n as [|n IH]; intros ep h v Hv Hlen Hd.
  - destruct (episode_loop_turn Grid.gw Runs.uniform_policy 1 1 "U" ep h
                Runs.udlr 0 v 2 "L" 1 (-1) Hpi Hv Hlen Hd eq_refl eq_refl eq_refl)
      as (i1 & i2 & v1 & Hlen1 & Hd1 & Hturn1).
    assert (<[0%nat := v1]> h !! 0%nat = Some v1) as Hv1
      by (rewrite list_lookup_insert_eq; [done|by eapply lookup_lt_Some]).
    destruct (episode_loop_turn Grid.gw Runs.uniform_policy 0 1 "L"
                (ep ++ [(1%Z, "L"%string, -1)]) (<[0%nat := v1]> h)
                Runs.udlr 0 v1 0 "U" 0 (-1) Hpi Hv1 Hlen1 Hd1 eq_refl eq_refl eq_refl)
      as (i3 & i4 & v2 & _ & _ & Hturn2).
    change (1 =? 0)%Z with false in Hturn1. change (0 =? 0)%Z with true in Hturn2.
    cbv iota in Hturn1, Hturn2.
    eexists (Pick i1 :: Pick i2 :: Pick 2 :: Pick i3 :: Pick i4 :: Pick 0 :: []), _, _.
    rewrite Hturn1, Hturn2.
    split; [reflexivity|]. rewrite !length_app. simpl. lia.
  - destruct (episode_loop_turn Grid.gw Runs.uniform_policy (S (S n)) 1 "U" ep h
                Runs.udlr 0 v 0 "U" 1 (-1) Hpi Hv Hlen Hd eq_refl eq_refl eq_refl)
      as (i1 & i2 & v1 & Hlen1 & Hd1 & Hturn).
    assert (<[0%nat := v1]> h !! 0%nat = Some v1) as Hv1
      by (rewrite list_lookup_insert_eq; [done|by eapply lookup_lt_Some]).
    destruct (IH (ep ++ [(1%Z, "U"%string, -1)]) (<[0%nat := v1]> h) v1 Hv1 Hlen1 Hd1)
      as (draws & full & st' & Hrun & Hfull).
    change (1 =? 0)%Z with false in Hturn. cbv iota in Hturn.
    exists (Pick i1 :: Pick i2 :: Pick 0 :: draws), full, st'.
    rewrite Hturn.
    split; [exact Hrun|]. rewrite Hfull, length_app. simpl. lia.
Qed.

(** The live [generate_episode] returns episodes of every length from 2
    on: it has no step bound. *)
Lemma live_generate_episode_has_no_bound (n : nat) :
  ∃ draws episode st',
    generate_episode Grid.gw (S (S n)) Grid.gw 1 "U" Runs.uniform_policy
      (Machine draws Runs.uniform_store) = Ok episode st'
    ∧ length episode = (n + 2)%nat.
Proof.
  destruct (episode_loop_stays n [(1%Z, "U"%string, -1)] Runs.uniform_store
              [0.25; 0.25; 0.25; 0.25])
    as (draws & full & st' & Hrun & Hfull); [done|done| |].
  { split; [repeat constructor; lra|]. vm_compute. reflexivity. }
  exists draws, (removelast full), st'. split.
  - unfold generate_episode. by rewrite (bind_eq _ _ _ _ _ Hrun).
  - destruct (exists_last (l := full)) as (front & final & ->).
    { intros ->. simpl in Hfull. lia. }
    rewrite removelast_last. rewrite length_app in Hfull. simpl in Hfull. lia.
Qed.

Lemma bind_NoFuel {A B} (m : M A) (f : A → M B) st :
  (m ≫= f) st = NoFuel →
  m st = NoFuel ∨ ∃ a st1, m st = Ok a st1 ∧ f a st1 = NoFuel.
Proof.
  unfold mbind, M_bind. destruct (m st) as [a st1| | |]; try discriminate; eauto.
Qed.

Lemma dict_get_fuel `{Countable K} {V} (d : gmap K V) k st : dict_get d k st ≠ NoFuel.
Proof. unfold dict_get. by destruct (d !! k). Qed.

Lemma heap_get_fuel l st : heap_get l st ≠ NoFuel.
Proof. unfold heap_get. by destruct (heap st !! l). Qed.

Lemma choice_p_fuel {A} (xs : list A) p st : choice_p xs p st ≠ NoFuel.
Proof.
  unfold choice_p. repeat (destruct (negb _) || destruct (existsb _ _)); try done.
  unfold mbind, M_bind, next_draw.
  destruct (tape st) as [|[i|u] t]; try done.
  destruct (xs !! i); [|done]. destruct (p !! i); [|done].
  by destruct (Qltb 0 _).
Qed.

Section Bounded.
Variable gw : GridWorld.

(** The first definition's loop stops with at most 51 steps, and with
    fewer only on reaching state 0. *)
Lemma bounded_episode_loop_length (pi : policy) (fuel : nat) :
  ∀ current_state action episode st full st',
    (length episode ≤ 50)%nat →
    bounded_episode_loop gw fuel pi current_state action episode st = Ok full st' →
    (length full ≤ 51)%nat
    ∧ ((length full ≤ 50)%nat → ∃ a r, last full = Some (0%Z, a, r)).
Proof.
  induction fuel as [|fuel IH]; simpl; intros cur act ep st full st' Hlen Hrun;
    [discriminate|].
  destruct (state_transition gw cur act) as [next reward].
  apply bind_Ok in Hrun as (e & s1 & _ & Hrun).
  apply bind_Ok in Hrun as (e' & s2 & _ & Hrun).
  apply bind_Ok in Hrun as (p & s3 & _ & Hrun).
  apply bind_Ok in Hrun as (a' & s4 & _ & Hrun).
  assert (length (ep ++ [(next, a', reward)]) = S (length ep)) as Hlen'
    by (rewrite length_app; simpl; lia).
  destruct (next =? 0)%Z eqn:Hz; simpl in Hrun.
  - apply ret_Ok in Hrun as [<- _]. split; [lia|]. intros _.
    apply Z.eqb_eq in Hz. subst next. rewrite last_snoc. eauto.
  - destruct (50 <? length (ep ++ [(next, a', reward)]))%nat eqn:Hfull.
    + apply ret_Ok in Hrun as [<- _]. apply Nat.ltb_lt in Hfull. split; lia.
    + apply Nat.ltb_ge in Hfull. eapply IH; [|exact Hrun]. lia.
Qed.

(** Fifty turns of the loop are always enough. *)
Lemma bounded_episode_loop_fuel (pi : policy) (fuel : nat) :
  ∀ current_state action episode st,
    (51 ≤ fuel + length episode)%nat → (length episode ≤ 50)%nat →
    bounded_episode_loop gw fuel pi current_state action episode st ≠ NoFuel.
Proof.
  induction fuel as [|fuel IH]; simpl; intros cur act ep st Hfuel Hlen; [lia|].
  destruct (state_transition gw cur act) as [next reward]. intros Hrun.
  apply bind_NoFuel in Hrun as [Hno|(e & s1 & _ & Hrun)];
    [by apply dict_get_fuel in Hno|].
  apply bind_NoFuel in Hrun as [Hno|(e' & s2 & _ & Hrun)];
    [by apply dict_get_fuel in Hno|].
  apply bind_NoFuel in Hrun as [Hno|(p & s3 & _ & Hrun)];
    [by apply heap_get_fuel in Hno|].
  apply bind_NoFuel in Hrun as [Hno|(a' & s4 & _ & Hrun)];
    [by apply choice_p_fuel in Hno|].
  assert (length (ep ++ [(next, a', reward)]) = S (length ep)) as Hlen'
    by (rewrite length_app; simpl; lia).
  destruct (next =? 0)%Z; simpl in Hrun; [discriminate|].
  destruct (50 <? length (ep ++ [(next, a', reward)]))%nat eqn:Hfull;
    [discriminate|].
  apply Nat.ltb_ge in Hfull. eapply IH; [| |exact Hrun]; lia.
Qed.

End Bounded.

(** C3 (as the code has it).  The first definition of [generate_episode],
    the one with the step bound, needs at most fifty turns of its loop; it
    returns [None] when the loop stops with 51 steps, and otherwise the
    whole episode, which then has at most 50 steps and ends in state 0. *)
Theorem shadowed_generate_episode_is_bounded (gw : GridWorld) (fuel : nat)
    (env : GridWorld) (s0 : Z) (a0 : string) (pi : policy) (st : machine) :
  (50 ≤ fuel)%nat →
  generate_episode_shadowed gw fuel env s0 a0 pi st ≠ NoFuel
  ∧ ∀ r st', generate_episode_shadowed gw fuel env s0 a0 pi st = Ok r st' →
      ∃ full,
        bounded_episode_loop gw fuel pi s0 a0 [(s0, a0, -1)] st = Ok full st'
        ∧ ((r = None ∧ length full = 51%nat)
           ∨ (r = Some full ∧ (length full ≤ 50)%nat
              ∧ ∃ a rw, last full = Some (0%Z, a, rw))).
Proof.
  intros Hfuel. unfold generate_episode_shadowed. split.
  - intros Hrun. apply bind_NoFuel in Hrun as [Hno|(full & s1 & _ & Hrun)].
    + eapply bounded_episode_loop_fuel; [| |exact Hno]; simpl; lia.
    + by destruct (50 <? length full)%nat.
  - intros r st' Hrun. apply bind_Ok in Hrun as (full & s1 & Hloop & Hrun).
    pose proof Hloop as Hlen.
    apply bounded_episode_loop_length in Hlen as [H51 Hend]; [|simpl; lia].
    destruct (50 <? length full)%nat eqn:Hfull;
      apply ret_Ok in Hrun as [<- <-]; exists full; (split; [done|]).
    + left. apply Nat.ltb_lt in Hfull. split; [done|lia].
    + right. apply Nat.ltb_ge in Hfull. eauto.
Qed.

(** Fifty moves between 5 and 9: the first definition reports [None]. *)
Lemma shadowed_generate_episode_is_bounded_witness :
  generate_episode_shadowed Grid.gw 50 Grid.gw 5 "D" Runs.uniform_policy
    (Machine Runs.fifty_moves Runs.uniform_store) ≠ NoFuel
  ∧ ∃ full,
      generate_episode_shadowed Grid.gw 50 Grid.gw 5 "D" Runs.uniform_policy
        (Machine Runs.fifty_moves Runs.uniform_store)
        = Ok None (Machine [] Runs.uniform_store)
      ∧ bounded_episode_loop Grid.gw 50 Runs.uniform_policy 5 "D" [(5%Z, "D"%string, -1)]
          (Machine Runs.fifty_moves Runs.uniform_store)
        = Ok full (Machine [] Runs.uniform_store)
      ∧ length full = 51%nat.
Proof.
  destruct (shadowed_generate_episode_is_bounded Grid.gw 50 Grid.gw 5 "D"
              Runs.uniform_policy (Machine Runs.fifty_moves Runs.uniform_store))
    as [Hfuel Hres]; [lia|].
  split; [exact Hfuel|].
  assert (generate_episode_shadowed Grid.gw 50 Grid.gw 5 "D" Runs.uniform_policy
            (Machine Runs.fifty_moves Runs.uniform_store)
          = Ok None (Machine [] Runs.uniform_store)) as Hrun
    by (vm_compute; reflexivity).
  destruct (Hres _ _ Hrun) as (full & Hloop & [[_ Hlen]|[Hsome _]]);
    [|discriminate].
  exists full. split; [exact Hrun|]. split; [exact Hloop|exact Hlen].
Defined.

End EpisodeSpec.

(* ------------------------------------------------------------------ *)
(** ** Notebook 2: [monte_carlo_es] *)
(* ------------------------------------------------------------------ *)

Module ControlLoopSpec.
Import ExploringStarts Props.

(** C4, refuted as stated: with the bounded first definition bound to
    [generate_episode], an episode of fifty moves that never reaches state
    0 comes back as [None], and [monte_carlo_es] raises [TypeError] instead
    of skipping the iteration. *)
Lemma control_loop_raises_on_failed_episode :
  (∃ st', (pi ← generate_any_policy Grid.gw;
           s0 ← choice (states Grid.gw);
           a0 ← choice (actions Grid.gw);
           generate_episode_shadowed Grid.gw 50 Grid.gw s0 a0 pi)
            (Runs.start Runs.overrun) = Ok None st')
  ∧ monte_carlo_es_with (generate_episode_shadowed Grid.gw 50) Grid.gw 1
      (Runs.start Runs.overrun) = Raise TypeError.
Proof.
  split; [eexists; vm_compute; reflexivity|]. vm_compute. reflexivity.
Qed.

(** The generator [monte_carlo_es] actually calls, the second definition,
    has no failure value. *)
Lemma live_generator_never_fails (gw : GridWorld) (fuel : nat) (env : GridWorld)
    (s0 : Z) (a0 : string) (pi : policy) (st : machine) r st' :
  (episode ← generate_episode gw fuel env s0 a0 pi; mret (Some episode)) st
    = Ok r st' →
  ∃ episode, r = Some episode ∧ generate_episode gw fuel env s0 a0 pi st = Ok episode st'.
Proof.
  intros Hrun. apply bind_Ok in Hrun as (episode & s1 & Hep & Hrun).
  apply ret_Ok in Hrun as [<- <-]. eauto.
Qed.

(** C4 (as the code has it).  [monte_carlo_es] does not handle a failed
    episode: whatever generator is bound to [generate_episode], an
    iteration in which it returns [None] raises [TypeError] (the [for] loop
    over the episode), and so does the whole loop; nothing is skipped and
    nothing is returned. *)
Theorem failed_episode_raises_TypeError
    (episode_generator : GridWorld → Z → string → policy → M (option (list step)))
    (env : GridWorld) (Q : qtable) (returns : rtable) (pi : policy) (n : nat)
    (st : machine) (s0 : Z) (st1 : machine) (a0 : string) (st2 st3 : machine) :
  choice (states env) st = Ok s0 st1 →
  choice (actions env) st1 = Ok a0 st2 →
  episode_generator env s0 a0 pi st2 = Ok None st3 →
  es_iteration episode_generator env (Q, returns, pi) st = Raise TypeError
  ∧ Prediction.iterate (S n) (es_iteration episode_generator env) (Q, returns, pi) st
    = Raise TypeError.
Proof.
  intros Hs0 Ha0 Hgen.
  assert (es_iteration episode_generator env (Q, returns, pi) st = Raise TypeError)
    as Hraise.
  { unfold es_iteration.
    rewrite (bind_eq _ _ _ _ _ Hs0), (bind_eq _ _ _ _ _ Ha0), (bind_eq _ _ _ _ _ Hgen).
    reflexivity. }
  split; [done|]. exact (bind_Raise _ _ _ _ Hraise).
Qed.

(** The equiprobable policy, start state 5 and action D, fifty moves
    between 5 and 9 under the bounded first definition. *)
Lemma failed_episode_raises_TypeError_witness :
  es_iteration (generate_episode_shadowed Grid.gw 50) Grid.gw
    (state_action_value Grid.gw, (λ _, []) <$> state_action_value Grid.gw,
     Runs.uniform_policy)
    (Machine ([Pick 4; Pick 1] ++ Runs.fifty_moves) Runs.uniform_store)
  = Raise TypeError
  ∧ Prediction.iterate 1 (es_iteration (generate_episode_shadowed Grid.gw 50) Grid.gw)
      (state_action_value Grid.gw, (λ _, []) <$> state_action_value Grid.gw,
       Runs.uniform_policy)
      (Machine ([Pick 4; Pick 1] ++ Runs.fifty_moves) Runs.uniform_store)
    = Raise TypeError.
Proof.
  apply (failed_episode_raises_TypeError (generate_episode_shadowed Grid.gw 50)
           Grid.gw _ _ Runs.uniform_policy 0
           (Machine ([Pick 4; Pick 1] ++ Runs.fifty_moves) Runs.uniform_store)
           5 (Machine ([Pick 1] ++ Runs.fifty_moves) Runs.uniform_store)
           "D" (Machine Runs.fifty_moves Runs.uniform_store)
           (Machine [] Runs.uniform_store)).
  - vm_compute. reflexivity.
  - vm_compute. reflexivity.
  - vm_compute. reflexivity.
Defined.

(** C1 (the code at a concrete run).  One iteration of [monte_carlo_es] on
    a grid whose moves cost 2, from state 2 with action L: the episode
    returned by [generate_episode] is [(2,L,-1), (1,L,-2)].  For the pair
    (2, L), first met at position 0, the loop over
    [range(0, len(episode) - 1)] reads the reward stored at position 0
    (the placeholder -1) and not the one at position 1, the last: the
    run returns, and the return recorded in the [Q] it returns is
    0.9·(0 - 1) = -0.9, whereas the recurrence
    from position 1 to the last position gives 0.9·(0 - 2) = -1.8. *)
Theorem monte_carlo_es_return_is_shifted :
  (∃ st', (pi ← generate_any_policy Runs.costly_grid;
           s0 ← choice (states Runs.costly_grid);
           a0 ← choice (actions Runs.costly_grid);
           generate_episode Runs.costly_grid 10 Runs.costly_grid s0 a0 pi)
            (Runs.start Runs.two_moves) = Ok Runs.two_moves_episode st')
  ∧ list_index step_eqb (2%Z, "L"%string, -1) Runs.two_moves_episode = Some 0%nat
  ∧ es_return 0.9 Runs.two_moves_episode 0 == -0.9
  ∧ return_from_position 0.9 Runs.two_moves_episode 0 == -1.8
  ∧ ∃ g,
      returned ((r ← monte_carlo_es Runs.costly_grid 10 Runs.costly_grid 1;
                 mret (r.1 !! (2%Z, "L"%string))) (Runs.start Runs.two_moves))
        = Some (Some g)
      ∧ g == -0.9
      ∧ ¬ g == return_from_position 0.9 Runs.two_moves_episode 0.
Proof.
  split; [eexists; vm_compute; reflexivity|].
  split; [vm_compute; reflexivity|].
  split; [vm_compute; reflexivity|].
  split; [vm_compute; reflexivity|].
  eexists.
  split; [vm_compute; reflexivity|].
  split; [vm_compute; reflexivity|].
  vm_compute. discriminate.
Qed.

End ControlLoopSpec.

(* ------------------------------------------------------------------ *)
(** ** Notebook 1: episodes and returns *)
(* ------------------------------------------------------------------ *)

Module EpisodeShape.
Import Prediction Props Shapes.

Lemma random_episode_loop_walk gw fuel env :
  ∀ current_state episode st episode' st',
    random_episode_loop gw fuel env current_state episode st = Ok episode' st' →
    ∃ mid final,
      episode' = episode ++ mid ++ [final]
      ∧ walk gw (actions env) current_state (mid ++ [final])
      ∧ Forall (λ sr : step, sr.1 ≠ 0%Z) mid
      ∧ final.1 = 0%Z.
Proof.
  induction fuel as [|fuel IH]; simpl; intros cur ep st ep' st' Hrun; [discriminate|].
  apply bind_Ok in Hrun as (a & st1 & Ha & Hrun).
  apply choice_elem in Ha as [Ha _].
  destruct (state_transition gw cur a) as [next reward] eqn:Hmove.
  destruct (next =? 0)%Z eqn:Hz.
  - apply ret_Ok in Hrun as [<- _]. apply Z.eqb_eq in Hz.
    exists [], (next, reward). split; [done|]. split; [|by split].
    simpl. rewrite <- Hmove. apply walk_step; [done|constructor].
  - apply Z.eqb_neq in Hz.
    apply IH in Hrun as (mid & final & -> & Hwalk & Hmid & Hfinal).
    exists ((next, reward) :: mid), final. split; [by rewrite <- app_assoc|].
    split; [|split; [by constructor|done]].
    simpl. rewrite <- Hmove. apply walk_step; [done|]. by rewrite Hmove.
Qed.

(** X1.  An episode returned by [generate_random_episode] begins with a
    state of [env.states] and the placeholder reward -1; every later step
    is the result of [gw.state_transition] from the state before it under an
    action of [env.actions]; the last step, and no step between the first
    and the last, is in state 0. *)
Theorem generate_random_episode_is_a_walk (gw : GridWorld) (fuel : nat)
    (env : GridWorld) (st : machine) (episode : list step) (st' : machine) :
  generate_random_episode gw fuel env st = Ok episode st' →
  ∃ s0 mid final,
    episode = (s0, -1) :: mid ++ [final]
    ∧ s0 ∈ states env
    ∧ walk gw (actions env) s0 (mid ++ [final])
    ∧ Forall (λ sr : step, sr.1 ≠ 0%Z) mid
    ∧ final.1 = 0%Z.
Proof.
  unfold generate_random_episode. intros Hrun.
  apply bind_Ok in Hrun as (s0 & st1 & Hs0 & Hrun).
  apply choice_elem in Hs0 as [Hs0 _].
  apply random_episode_loop_walk in Hrun as (mid & final & -> & Hwalk & Hmid & Hfinal).
  by exists s0, mid, final.
Qed.

(** The episode 5 → 9 → 5 → 1 → 0 of the 4x4 grid. *)
Lemma generate_random_episode_is_a_walk_witness :
  ∃ s0 mid final,
    Runs.there_and_back_episode = (s0, -1) :: mid ++ [final]
    ∧ s0 ∈ states Grid.gw
    ∧ walk Grid.gw (actions Grid.gw) s0 (mid ++ [final])
    ∧ Forall (λ sr : step, sr.1 ≠ 0%Z) mid
    ∧ final.1 = 0%Z.
Proof.
  apply (generate_random_episode_is_a_walk Grid.gw 10 Grid.gw
           (Runs.start Runs.there_and_back) Runs.there_and_back_episode (Runs.start [])).
  vm_compute. reflexivity.
Defined.

(** X2.  With no state to start from, [np.random.choice] raises
    [ValueError]: so does [generate_random_episode], and so does every
    prediction or control run of at least one iteration, whatever generator
    [monte_carlo_es] would call. *)
Theorem no_state_raises_ValueError (gw : GridWorld) (fuel : nat) (env : GridWorld)
    (n : nat) (st : machine)
    (generator : GridWorld → Z → string → ExploringStarts.policy
                 → M (option (list ExploringStarts.step))) :
  states env = [] →
  generate_random_episode gw fuel env st = Raise ValueError
  ∧ first_visit_mc gw fuel env (S n) st = Raise ValueError
  ∧ every_visit_mc gw fuel env (S n) st = Raise ValueError
  ∧ ExploringStarts.monte_carlo_es_with generator env (S n) st = Raise ValueError.
Proof.
  intros Hs.
  assert (generate_random_episode gw fuel env st = Raise ValueError) as Hgen.
  { unfold generate_random_episode. by rewrite Hs. }
  split; [done|]. split; [|split].
  - unfold first_visit_mc. simpl. apply bind_Raise.
    unfold first_visit_iteration. by apply bind_Raise.
  - unfold every_visit_mc. simpl. apply bind_Raise.
    unfold every_visit_iteration. by apply bind_Raise.
  - unfold ExploringStarts.monte_carlo_es_with, ExploringStarts.generate_any_policy.
    rewrite Hs. simpl. unfold mbind at 1, M_bind at 1. simpl.
    apply bind_Raise. simpl. apply bind_Raise.
    unfold ExploringStarts.es_iteration. by rewrite Hs.
Qed.

(** An environment without states, one iteration. *)
Lemma no_state_raises_ValueError_witness :
  generate_random_episode Grid.gw 10 nowhere (Runs.start []) = Raise ValueError
  ∧ first_visit_mc Grid.gw 10 nowhere 1 (Runs.start []) = Raise ValueError
  ∧ every_visit_mc Grid.gw 10 nowhere 1 (Runs.start []) = Raise ValueError
  ∧ ExploringStarts.monte_carlo_es_with
      (ExploringStarts.generate_episode_shadowed Grid.gw 50) nowhere 1 (Runs.start [])
    = Raise ValueError.
Proof.
  apply (no_state_raises_ValueError Grid.gw 10 nowhere 0 (Runs.start [])
           (ExploringStarts.generate_episode_shadowed Grid.gw 50)).
  reflexivity.
Defined.

End EpisodeShape.

Module ReturnForm.
Import Shapes.

Lemma fold_discount {A} (reward : A → Q) (gamma : Q) (l : list A) : ∀ G0,
  fold_left (λ G x, gamma * (G + reward x)) l G0
  == Qpow gamma (length l) * G0 + backward_sum gamma (map reward l).
Proof.
  induction l as [|x l IH]; intros G0; simpl.
  - ring.
  - rewrite IH, length_map. ring.
Qed.

(** X3.  The loops that accumulate [G = gamma * (G + reward)] forwards
    weight the rewards backwards: the last reward read is multiplied by γ,
    the one before it by γ², and the first one read by the highest power.
    In [first_visit_mc] and [every_visit_mc] the rewards read are those
    after position [idx]; in [monte_carlo_es] those at positions
    [idx .. len(episode) - 2]. *)
Theorem returns_are_backward_sums (gamma : Q) :
  (∀ (episode : list Prediction.step) idx,
     Prediction.return_after gamma episode idx
     == backward_sum gamma (map snd (drop (S idx) episode)))
  ∧ (∀ (episode : list ExploringStarts.step) idx,
       ExploringStarts.es_return gamma episode idx
       == backward_sum gamma
            (map snd (take (length episode - 1 - idx) (drop idx episode)))).
Proof.
  split; intros episode idx.
  - rewrite Returns.return_after_recurrence.
    unfold Prediction.return_from_position.
    rewrite (fold_discount snd). ring.
  - rewrite Returns.es_return_slice. rewrite (fold_discount snd). ring.
Qed.

(** Three rewards a, b, c after the visit: γ³·a + γ²·b + γ·c. *)
Example return_of_three_rewards (gamma a b c : Q) (s0 s1 s2 s3 : Z) :
  Prediction.return_after gamma [(s0, -1); (s1, a); (s2, b); (s3, c)] 0
  == gamma * gamma * gamma * a + gamma * gamma * b + gamma * c.
Proof.
  rewrite Returns.return_after_recurrence. unfold Prediction.return_from_position.
  simpl. ring.
Qed.

End ReturnForm.

(* ------------------------------------------------------------------ *)
(** ** Notebook 1: what one episode adds to the table of returns *)
(* ------------------------------------------------------------------ *)

Module IndexFacts.

Lemma list_index_lt {A} (eqb : A → A → bool) x l i :
  list_index eqb x l = Some i → (i < length l)%nat.
Proof.
  revert i. induction l as [|y l IH]; intros i; simpl; [discriminate|].
  destruct (eqb y x); [intros [= <-]; lia|].
  destruct (list_index eqb x l) as [j|]; [|discriminate].
  intros [= <-]. specialize (IH j eq_refl). lia.
Qed.

Lemma list_index_None {A} (eqb : A → A → bool) x l :
  list_index eqb x l = None ↔ Forall (λ y, eqb y x = false) l.
Proof.
  induction l as [|y l IH]; simpl; [by split|].
  destruct (eqb y x) eqn:E.
  - split; [discriminate|]. intros H. apply Forall_cons in H as [H _]. congruence.
  - destruct (list_index eqb x l) as [j|]; simpl.
    + split; [discriminate|]. intros H. apply Forall_cons in H as [_ H].
      apply IH in H. discriminate.
    + split; [|done]. intros _. constructor; [done|]. by apply IH.
Qed.

Lemma list_index_app_l {A} (eqb : A → A → bool) x l1 l2 i :
  list_index eqb x l1 = Some i → list_index eqb x (l1 ++ l2) = Some i.
Proof.
  revert i. induction l1 as [|y l1 IH]; intros i; simpl; [discriminate|].
  destruct (eqb y x); [done|].
  destruct (list_index eqb x l1) as [j|]; [|discriminate].
  intros [= <-]. by rewrite (IH j eq_refl).
Qed.

Lemma list_index_app_r {A} (eqb : A → A → bool) x l1 l2 :
  list_index eqb x l1 = None →
  list_index eqb x (l1 ++ l2) = (λ i, length l1 + i)%nat <$> list_index eqb x l2.
Proof.
  induction l1 as [|y l1 IH]; simpl; [by destruct (list_index eqb x l2)|].
  destruct (eqb y x); [discriminate|].
  destruct (list_index eqb x l1) as [j|]; [discriminate|]. intros _.
  rewrite IH by done. by destruct (list_index eqb x l2).
Qed.

(** An element of the list is always found. *)
Lemma list_index_found {A} (eqb : A → A → bool) x l :
  (∀ y, eqb y y = true) → x ∈ l → is_Some (list_index eqb x l).
Proof.
  intros Hrefl Hx. destruct (list_index eqb x l) eqn:E; [done|].
  apply list_index_None in E. rewrite Forall_forall in E.
  specialize (E x Hx). rewrite Hrefl in E. discriminate.
Qed.

Lemma step_eqb_refl (sr : Prediction.step) : Prediction.step_eqb sr sr = true.
Proof.
  unfold Prediction.step_eqb. rewrite Z.eqb_refl. simpl.
  apply Qeq_bool_iff. reflexivity.
Qed.

Lemma state_position_None s (l : list (Z * Q)) :
  Shapes.state_position s l = None ↔ s ∉ l.*1.
Proof.
  unfold Shapes.state_position. rewrite list_index_None, Forall_forall. split.
  - intros H Hin. apply list_elem_of_fmap in Hin as ([s' r] & -> & Hin).
    specialize (H _ Hin). simpl in H. by rewrite Z.eqb_refl in H.
  - intros H [s' r] Hin. simpl. apply Z.eqb_neq. intros ->.
    apply H. apply list_elem_of_fmap. by exists (s, r).
Qed.

Lemma state_position_snoc s (l : list (Z * Q)) sr :
  Shapes.state_position s (l ++ [sr])
  = match Shapes.state_position s l with
    | Some i => Some i
    | None => if decide (sr.1 = s) then Some (length l) else None
    end.
Proof.
  unfold Shapes.state_position.
  destruct (list_index _ (s, 0) l) as [i|] eqn:E.
  - by apply list_index_app_l.
  - rewrite list_index_app_r by done. simpl.
    destruct (decide (sr.1 = s)) as [->|Hne].
    + rewrite Z.eqb_refl. simpl. by rewrite Nat.add_0_r.
    + apply Z.eqb_neq in Hne. by rewrite Hne.
Qed.

(** In [pre ++ sr :: suf], a step [sr] whose state does not occur in [pre]
    is found by [index] where it stands. *)
Lemma index_of_new_state (pre suf : list Prediction.step) sr :
  sr.1 ∉ pre.*1 →
  list_index Prediction.step_eqb sr (pre ++ sr :: suf) = Some (length pre).
Proof.
  intros Hnew. rewrite list_index_app_r.
  - simpl. rewrite step_eqb_refl. simpl. by rewrite Nat.add_0_r.
  - apply list_index_None, Forall_forall. intros y Hy.
    unfold Prediction.step_eqb. apply andb_false_iff. left. apply Z.eqb_neq.
    intros Heq. apply Hnew. apply list_elem_of_fmap. by exists y.
Qed.

End IndexFacts.

Module FirstVisit.
Import Prediction Props Shapes IndexFacts.

Lemma record_return_Ok env episode sr values returns st values' returns' st' :
  record_return env episode sr values returns st = Ok (values', returns') st' →
  ∃ idx rs,
    list_index step_eqb sr episode = Some idx
    ∧ returns !! sr.1 = Some rs
    ∧ returns' = <[sr.1 := rs ++ [return_after (gamma env) episode idx]]> returns
    ∧ np_setitem values sr.1 (mean (rs ++ [return_after (gamma env) episode idx])) st
      = Ok values' st
    ∧ st' = st.
Proof.
  unfold record_return. intros Hrun.
  apply bind_Ok in Hrun as (idx & s1 & Hidx & Hrun).
  unfold index_or_raise in Hidx.
  destruct (list_index step_eqb sr episode) as [i|] eqn:Hi; [|discriminate].
  apply ret_Ok in Hidx as [<- <-].
  apply bind_Ok in Hrun as (rs & s2 & Hrs & Hrun).
  apply dict_get_Ok in Hrs as [Hrs ->].
  apply bind_Ok in Hrun as (v & s3 & Hset & Hrun).
  apply ret_Ok in Hrun as [[= <- <-] <-].
  assert (s3 = st) as ->.
  { unfold np_setitem in Hset. repeat destruct (decide _); try discriminate;
      by apply ret_Ok in Hset as [_ ->]. }
  exists i, rs. eauto 10.
Qed.

(** The [for s, r in episode] loop of [first_visit_mc], seen from a state
    [s]: after the steps of [pre], the table holds for [s] what it held
    before, followed by the first-visit return of [s] if [s] occurs in
    [pre]. *)
Lemma first_visit_fold env (episode : list step) (returns : gmap Z (list Q)) :
  ∀ suf pre visited values rets st acc' st',
    episode = pre ++ suf →
    (∀ x, x ∈ visited ↔ x = 0%Z ∨ x ∈ pre.*1) →
    (∀ s, rets !! s
          = (λ rs, rs ++ option_list (first_visit_return (gamma env) episode pre s))
            <$> returns !! s) →
    foldM (first_visit_step env episode) suf (visited, values, rets) st = Ok acc' st' →
    ∀ s, acc'.2 !! s
         = (λ rs, rs ++ option_list (first_visit_return (gamma env) episode episode s))
           <$> returns !! s.
Proof.
  induction suf as [|sr suf IH]; simpl;
    intros pre visited values rets st acc' st' Hep Hvis Hrets Hrun.
  - apply ret_Ok in Hrun as [<- _]. rewrite app_nil_r in Hep. by subst pre.
  - apply bind_Ok in Hrun as ([[visited1 values1] rets1] & st1 & Hstep & Hrun).
    eapply (IH (pre ++ [sr])); [by rewrite <- app_assoc| | |exact Hrun].
    + (* the visited set *)
      unfold first_visit_step in Hstep.
      destruct (decide (sr.1 ∈ visited)) as [Hin|Hnew].
      * apply ret_Ok in Hstep as [[= <- <- <-] _]. intros x.
        rewrite fmap_app, elem_of_app, Hvis. simpl. rewrite list_elem_of_singleton.
        split; [tauto|]. intros [?|[?| ->]]; try tauto. by apply Hvis.
      * apply bind_Ok in Hstep as ([v r] & s2 & _ & Hstep).
        apply ret_Ok in Hstep as [[= <- <- <-] _]. intros x.
        rewrite elem_of_union, elem_of_singleton, fmap_app, elem_of_app, Hvis.
        simpl. rewrite list_elem_of_singleton. tauto.
    + (* the table of returns *)
      intros s. unfold first_visit_step in Hstep.
      unfold first_visit_return in *. rewrite state_position_snoc.
      destruct (decide (sr.1 ∈ visited)) as [Hin|Hnew].
      * apply ret_Ok in Hstep as [[= <- <- <-] _]. rewrite Hrets.
        destruct (decide (s = 0%Z)) as [->|Hs]; [done|].
        destruct (state_position s pre) as [i|] eqn:Hpos; [done|].
        destruct (decide (sr.1 = s)) as [Heq|Hne]; [|done].
        subst s. apply Hvis in Hin as [?|Hin]; [done|].
        by apply state_position_None in Hpos.
      * apply bind_Ok in Hstep as ([v r] & s2 & Hrec & Hstep).
        apply ret_Ok in Hstep as [[= <- <- <-] _].
        apply record_return_Ok in Hrec as (idx & rs & Hidx & Hrs & -> & _ & _).
        assert (sr.1 ≠ 0%Z ∧ sr.1 ∉ pre.*1) as [Hnz Hnotin].
        { split; intros ?; apply Hnew, Hvis; auto. }
        rewrite Hep, (index_of_new_state pre suf sr Hnotin) in Hidx.
        injection Hidx as <-.
        destruct (decide (sr.1 = s)) as [Heq|Hne].
        -- subst s. rewrite lookup_insert_eq. rewrite decide_False by done.
           apply state_position_None in Hnotin. rewrite Hnotin. simpl.
           rewrite Hrets, decide_False, Hnotin in Hrs by done. simpl in Hrs.
           destruct (returns !! sr.1) as [rs0|]; [|discriminate].
           injection Hrs as <-. simpl.
           by rewrite app_nil_r, Returns.return_after_recurrence.
        -- rewrite lookup_insert_ne by done. rewrite Hrets.
           destruct (decide (s = 0%Z)); [done|].
           by destruct (state_position s pre).
Qed.

(** X4.  One iteration of [first_visit_mc] adds to [returns[s]] exactly one
    return for every non-terminal state [s] of the generated episode, namely
    the return counted from the first position of [s], and nothing for any
    other key; no key is added or removed. *)
Theorem first_visit_adds_first_return (gw : GridWorld) (fuel : nat) (env : GridWorld)
    (values : list Q) (returns : gmap Z (list Q)) (st : machine)
    (values' : list Q) (returns' : gmap Z (list Q)) (st' : machine) :
  first_visit_iteration gw fuel env (values, returns) st = Ok (values', returns') st' →
  ∃ episode,
    generate_random_episode gw fuel env st = Ok episode st'
    ∧ ∀ s, returns' !! s
           = (λ rs, rs ++ option_list (first_visit_return (gamma env) episode episode s))
             <$> returns !! s.
Proof.
  unfold first_visit_iteration. intros Hrun.
  apply bind_Ok in Hrun as (episode & st1 & Hep & Hrun).
  apply bind_Ok in Hrun as ([[visited1 values1] rets1] & st2 & Hfold & Hrun).
  apply ret_Ok in Hrun as [[= <- <-] <-].
  assert (st2 = st1) as ->.
  { pose (P := λ (_ : gset Z * list Q * gmap Z (list Q)) (m : machine), m = st1).
    eapply (foldM_inv _ P); [| |exact Hfold]; [|done].
    intros [[a b] c] sr s1 [[a' b'] c'] s2 _ -> Hstep. unfold P.
    unfold first_visit_step in Hstep. destruct (decide _).
    - by apply ret_Ok in Hstep as [_ <-].
    - apply bind_Ok in Hstep as ([v r] & s3 & Hrec & Hstep).
      apply ret_Ok in Hstep as [_ <-].
      by apply record_return_Ok in Hrec as (? & ? & _ & _ & _ & _ & ->). }
  exists episode. split; [done|].
  intros s.
  apply (first_visit_fold env episode returns episode [] {[0%Z]} values returns
           st1 (visited1, values1, rets1) st1); [done| | |done].
  - intros x. rewrite elem_of_singleton. simpl. rewrite elem_of_nil. tauto.
  - intros s'. unfold first_visit_return. simpl.
    destruct (decide (s' = 0%Z)); simpl;
      destruct (returns !! s'); simpl; by rewrite ?app_nil_r.
Qed.

(** One iteration on the episode 5 → 9 → 5 → 1 → 0 of the 4x4 grid. *)
Lemma first_visit_adds_first_return_witness :
  ∃ values' returns' st',
    first_visit_iteration Grid.gw 10 Grid.gw (value_array Grid.gw, empty_returns Grid.gw)
      (Runs.start Runs.there_and_back) = Ok (values', returns') st'
    ∧ ∃ episode,
        generate_random_episode Grid.gw 10 Grid.gw (Runs.start Runs.there_and_back)
        = Ok episode st'
        ∧ ∀ s, returns' !! s
               = (λ rs, rs ++ option_list
                                (first_visit_return (gamma Grid.gw) episode episode s))
                 <$> empty_returns Grid.gw !! s.
Proof.
  assert (∃ values' returns' st',
            first_visit_iteration Grid.gw 10 Grid.gw
              (value_array Grid.gw, empty_returns Grid.gw)
              (Runs.start Runs.there_and_back) = Ok (values', returns') st')
    as (values' & returns' & st' & Hrun).
  { eexists _, _, _. vm_compute. reflexivity. }
  exists values', returns', st'. split; [exact Hrun|].
  exact (first_visit_adds_first_return _ _ _ _ _ _ _ _ _ Hrun).
Defined.

End FirstVisit.

Module EveryVisit.
Import Prediction Props Shapes IndexFacts FirstVisit.

Lemma every_visit_returns_snoc gamma (episode pre : list step) sr s :
  every_visit_returns gamma episode (pre ++ [sr]) s
  = every_visit_returns gamma episode pre s
    ++ (if decide (s = 0%Z) then []
        else if decide (sr.1 = s)
             then option_list (return_after gamma episode
                                 <$> list_index step_eqb sr episode)
             else []).
Proof.
  unfold every_visit_returns. destruct (decide (s = 0%Z)); [done|].
  rewrite omap_app. simpl. destruct (decide (sr.1 = s)); [|done].
  by destruct (list_index step_eqb sr episode).
Qed.

Lemma every_visit_fold env (episode : list step) (returns : gmap Z (list Q)) :
  ∀ suf pre values rets st acc' st',
    episode = pre ++ suf →
    (∀ s, rets !! s
          = (λ rs, rs ++ every_visit_returns (gamma env) episode pre s)
            <$> returns !! s) →
    foldM (every_visit_step env episode) suf (values, rets) st = Ok acc' st' →
    (∀ s, acc'.2 !! s
          = (λ rs, rs ++ every_visit_returns (gamma env) episode episode s)
            <$> returns !! s)
    ∧ st' = st.
Proof.
  induction suf as [|sr suf IH]; simpl;
    intros pre values rets st acc' st' Hep Hrets Hrun.
  - apply ret_Ok in Hrun as [<- <-]. rewrite app_nil_r in Hep. by subst pre.
  - apply bind_Ok in Hrun as ([values1 rets1] & st1 & Hstep & Hrun).
    unfold every_visit_step in Hstep. simpl in Hstep.
    destruct (decide (sr.1 ≠ 0%Z)) as [Hnz|Hz].
    + apply record_return_Ok in Hstep as (idx & rs & Hidx & Hrs & -> & _ & ->).
      eapply (IH (pre ++ [sr])); [by rewrite <- app_assoc| |exact Hrun].
      intros s. rewrite every_visit_returns_snoc, Hidx. simpl.
      destruct (decide (sr.1 = s)) as [<-|Hne].
      * rewrite lookup_insert_eq, decide_False by done.
        rewrite Hrets in Hrs. destruct (returns !! sr.1) as [rs0|]; [|discriminate].
        injection Hrs as <-. simpl. by rewrite <- app_assoc.
      * rewrite lookup_insert_ne by done. rewrite Hrets.
        destruct (decide (s = 0%Z)); destruct (returns !! s); simpl;
          by rewrite ?app_nil_r.
    + apply ret_Ok in Hstep as [[= <- <-] <-].
      eapply (IH (pre ++ [sr])); [by rewrite <- app_assoc| |exact Hrun].
      intros s. rewrite every_visit_returns_snoc, Hrets.
      destruct (decide (s = 0%Z)); [by rewrite app_nil_r|].
      rewrite decide_False; [by rewrite app_nil_r|].
      intros Heq. apply Hz. by rewrite Heq.
Qed.

Lemma every_visit_returns_length gamma (episode : list step) s :
  s ≠ 0%Z →
  ∀ prefix, Forall (λ sr, sr ∈ episode) prefix →
    length (every_visit_returns gamma episode prefix s)
    = length (filter (λ sr : step, sr.1 = s) prefix).
Proof.
  intros Hs prefix Hall. unfold every_visit_returns. rewrite decide_False by done.
  induction Hall as [|sr prefix Hin _ IH]; [done|]. simpl.
  rewrite filter_cons. destruct (decide (sr.1 = s)); [|done].
  destruct (list_index_found step_eqb sr episode step_eqb_refl Hin) as [i ->].
  simpl. f_equal. exact IH.
Qed.

(** X5.  One iteration of [every_visit_mc] adds to [returns[s]] one return
    for every step of the generated episode in a non-terminal state [s], in
    the order of the steps; the return added for a step is the one counted
    from the position [episode.index((s, r))] gives, the first position
    holding an equal (state, reward) pair.  Nothing is added for the
    terminal state 0, and no key is added or removed. *)
Theorem every_visit_adds_a_return_per_step (gw : GridWorld) (fuel : nat)
    (env : GridWorld) (values : list Q) (returns : gmap Z (list Q)) (st : machine)
    (values' : list Q) (returns' : gmap Z (list Q)) (st' : machine) :
  every_visit_iteration gw fuel env (values, returns) st = Ok (values', returns') st' →
  ∃ episode,
    generate_random_episode gw fuel env st = Ok episode st'
    ∧ (∀ s, returns' !! s
            = (λ rs, rs ++ every_visit_returns (gamma env) episode episode s)
              <$> returns !! s)
    ∧ (∀ s, s ≠ 0%Z →
            length (every_visit_returns (gamma env) episode episode s)
            = length (filter (λ sr : step, sr.1 = s) episode))
    ∧ every_visit_returns (gamma env) episode episode 0 = [].
Proof.
  unfold every_visit_iteration. intros Hrun.
  apply bind_Ok in Hrun as (episode & st1 & Hep & Hfold).
  destruct (every_visit_fold env episode returns episode [] values returns
              st1 (values', returns') st') as [Hrets ->]; [done| |done|].
  { intros s. unfold every_visit_returns.
    destruct (decide (s = 0%Z)); destruct (returns !! s); simpl;
      by rewrite ?app_nil_r. }
  exists episode. split; [done|]. split; [exact Hrets|]. split; [|done].
  intros s Hs. apply every_visit_returns_length; [done|].
  by apply Forall_forall.
Qed.

(** One iteration on the episode 5 → 9 → 5 → 1 → 0 of the 4x4 grid. *)
Lemma every_visit_adds_a_return_per_step_witness :
  ∃ values' returns' st',
    every_visit_iteration Grid.gw 10 Grid.gw (value_array Grid.gw, empty_returns Grid.gw)
      (Runs.start Runs.there_and_back) = Ok (values', returns') st'
    ∧ ∃ episode,
        generate_random_episode Grid.gw 10 Grid.gw (Runs.start Runs.there_and_back)
        = Ok episode st'
        ∧ (∀ s, returns' !! s
                = (λ rs, rs ++ every_visit_returns (gamma Grid.gw) episode episode s)
                  <$> empty_returns Grid.gw !! s)
        ∧ (∀ s, s ≠ 0%Z →
                length (every_visit_returns (gamma Grid.gw) episode episode s)
                = length (filter (λ sr : step, sr.1 = s) episode))
        ∧ every_visit_returns (gamma Grid.gw) episode episode 0 = [].
Proof.
  assert (∃ values' returns' st',
            every_visit_iteration Grid.gw 10 Grid.gw
              (value_array Grid.gw, empty_returns Grid.gw)
              (Runs.start Runs.there_and_back) = Ok (values', returns') st')
    as (values' & returns' & st' & Hrun).
  { eexists _, _, _. vm_compute. reflexivity. }
  exists values', returns', st'. split; [exact Hrun|].
  exact (every_visit_adds_a_return_per_step _ _ _ _ _ _ _ _ _ Hrun).
Defined.

End EveryVisit.

(* ------------------------------------------------------------------ *)
(** ** Notebook 1: the tables across iterations *)
(* ------------------------------------------------------------------ *)

Module NoRaise.

Lemma bind_Raise_inv {A B} (m : M A) (f : A → M B) st e :
  (m ≫= f) st = Raise e →
  m st = Raise e ∨ ∃ a st1, m st = Ok a st1 ∧ f a st1 = Raise e.
Proof.
  unfold mbind, M_bind. destruct (m st) as [a st1|e'| |]; try discriminate.
  - intros Hf. right. exists a, st1. split; [reflexivity|exact Hf].
  - intros [= ->]. by left.
Qed.

Lemma foldM_no_raise {A B} (f : B → A → M B) (P : B → Prop) (l : list A) :
  (∀ b x st, x ∈ l → P b →
     (∀ e, f b x st ≠ Raise e) ∧ (∀ b' st', f b x st = Ok b' st' → P b')) →
  ∀ b st e, P b → foldM f l b st ≠ Raise e.
Proof.
  induction l as [|x l IH]; simpl; intros Hf b st e HP Hrun; [discriminate|].
  destruct (Hf b x st) as [Hno Hkeep]; [by left|done|].
  apply bind_Raise_inv in Hrun as [Hrun|(b1 & st1 & Hx & Hrun)]; [by eapply Hno|].
  eapply IH; [|by eapply Hkeep|exact Hrun].
  intros; apply Hf; [by right|done].
Qed.

Lemma iterate_no_raise {A} (body : A → M A) (P : A → Prop) (n : nat) :
  (∀ a st, P a →
     (∀ e, body a st ≠ Raise e) ∧ (∀ a' st', body a st = Ok a' st' → P a')) →
  ∀ a st e, P a → Prediction.iterate n body a st ≠ Raise e.
Proof.
  intros Hbody. induction n as [|n IH]; simpl; intros a st e HP Hrun; [discriminate|].
  destruct (Hbody a st HP) as [Hno Hkeep].
  apply bind_Raise_inv in Hrun as [Hrun|(a1 & st1 & Hx & Hrun)]; [by eapply Hno|].
  eapply IH; [by eapply Hkeep|exact Hrun].
Qed.

Lemma choice_no_raise {A} (xs : list A) st e : xs ≠ [] → choice xs st ≠ Raise e.
Proof.
  intros Hne. unfold choice. destruct xs as [|x xs]; [done|].
  unfold mbind, M_bind, next_draw.
  destruct (tape st) as [|[i|u] t]; try done.
  by destruct ((x :: xs) !! i).
Qed.

End NoRaise.

Module Tables.
Import Prediction Props Shapes IndexFacts FirstVisit NoRaise.

Lemma empty_returns_fold (l : list Z) : ∀ (m : gmap Z (list Q)) s,
  fold_left (λ returns state, <[state := []]> returns) l m !! s
  = if decide (s ∈ l) then Some [] else m !! s.
Proof.
  induction l as [|x l IH]; intros m s; simpl.
  - destruct (decide (s ∈ [])) as [H|]; [by apply elem_of_nil in H|done].
  - rewrite IH.
    destruct (decide (s ∈ l)) as [Hin|Hnot], (decide (s ∈ x :: l)) as [Hin'|Hnot'];
      try done.
    + exfalso. apply Hnot'. by right.
    + apply elem_of_cons in Hin' as [->|?]; [|done]. by rewrite lookup_insert_eq.
    + rewrite lookup_insert_ne; [done|]. intros ->. apply Hnot'. by left.
Qed.

Lemma empty_returns_lookup env s :
  empty_returns env !! s = if decide (s ∈ states env) then Some [] else None.
Proof. unfold empty_returns. by rewrite empty_returns_fold, lookup_empty. Qed.

Section Closed.
Variables gw env : GridWorld.
Hypothesis closed : env_closed gw env.

Lemma initial_mean_table : mean_table env (value_array env) (empty_returns env).
Proof.
  unfold mean_table, value_array. rewrite length_replicate. split; [done|]. split.
  - intros s. rewrite empty_returns_lookup. destruct (decide (s ∈ states env)).
    + split; [eauto|done].
    + split; [done|]. by intros [? ?].
  - intros s rs. rewrite empty_returns_lookup.
    destruct (decide (s ∈ states env)) as [Hs|]; [|discriminate].
    intros [= <-]. apply lookup_replicate_2.
    destruct closed as [Hrange _]. specialize (Hrange s Hs). lia.
Qed.

(** Recording a return for a state of [states] keeps the two tables in
    step, and cannot raise. *)
Lemma record_return_mean_table episode sr values returns st :
  sr ∈ episode → sr.1 ∈ states env → mean_table env values returns →
  (∀ e, record_return env episode sr values returns st ≠ Raise e)
  ∧ ∀ values' returns' st',
      record_return env episode sr values returns st = Ok (values', returns') st' →
      mean_table env values' returns'.
Proof.
  intros Hin Hs (Hlen & Hdom & Hmean).
  destruct closed as [Hrange _]. specialize (Hrange _ Hs).
  split.
  - intros e Hrun. unfold record_return in Hrun.
    destruct (list_index_found step_eqb sr episode step_eqb_refl Hin) as [idx Hidx].
    unfold index_or_raise in Hrun. rewrite Hidx in Hrun.
    apply bind_Raise_inv in Hrun as [Hrun|(i & s1 & Hi & Hrun)]; [discriminate|].
    apply ret_Ok in Hi as [<- <-].
    destruct (proj1 (Hdom sr.1) Hs) as [rs Hrs].
    apply bind_Raise_inv in Hrun as [Hrun|(rs' & s2 & Hget & Hrun)].
    { unfold dict_get in Hrun. by rewrite Hrs in Hrun. }
    apply bind_Raise_inv in Hrun as [Hrun|(v & s3 & _ & Hrun)]; [|discriminate].
    unfold np_setitem in Hrun. rewrite Hlen in Hrun.
    destruct (decide _) as [_|Hno] in Hrun; [discriminate|lia].
  - intros values' returns' st' Hrun.
    apply record_return_Ok in Hrun as (idx & rs & _ & Hrs & -> & Hset & _).
    unfold np_setitem in Hset. rewrite Hlen in Hset.
    destruct (decide _) as [_|Hno] in Hset; [|lia].
    apply ret_Ok in Hset as [<- _].
    split; [by rewrite length_insert|]. split.
    + intros s. destruct (decide (sr.1 = s)) as [<-|Hne].
      * rewrite lookup_insert_eq. split; [eauto|done].
      * rewrite lookup_insert_ne by done. apply Hdom.
    + intros s rs'. destruct (decide (sr.1 = s)) as [<-|Hne].
      * rewrite lookup_insert_eq. intros [= <-].
        rewrite list_lookup_insert_eq by lia. by destruct rs.
      * rewrite lookup_insert_ne by done. intros Hrs'.
        assert (s ∈ states env) as Hs' by (apply Hdom; eauto).
        destruct closed as [Hrange' _]. specialize (Hrange' _ Hs').
        rewrite list_lookup_insert_ne by lia. by apply Hmean.
Qed.

Lemma random_episode_loop_no_raise fuel :
  actions env ≠ [] →
  ∀ current_state episode st e,
    random_episode_loop gw fuel env current_state episode st ≠ Raise e.
Proof.
  intros Hacts. induction fuel as [|fuel IH]; simpl; intros cur ep st e Hrun;
    [discriminate|].
  apply bind_Raise_inv in Hrun as [Hrun|(a & st1 & _ & Hrun)];
    [by apply choice_no_raise in Hrun|].
  destruct (state_transition gw cur a) as [next reward].
  destruct (next =? 0)%Z; [discriminate|]. by eapply IH.
Qed.

Lemma generate_random_episode_no_raise fuel st e :
  states env ≠ [] → actions env ≠ [] →
  generate_random_episode gw fuel env st ≠ Raise e.
Proof.
  intros Hs Ha Hrun. unfold generate_random_episode in Hrun.
  apply bind_Raise_inv in Hrun as [Hrun|(s & st1 & _ & Hrun)];
    [by apply choice_no_raise in Hrun|].
  by eapply random_episode_loop_no_raise.
Qed.

(** One turn of the outer loop of [first_visit_mc]. *)
Lemma first_visit_iteration_mean_table fuel acc st :
  states env ≠ [] → actions env ≠ [] →
  mean_table env acc.1 acc.2 →
  (∀ e, first_visit_iteration gw fuel env acc st ≠ Raise e)
  ∧ ∀ acc' st', first_visit_iteration gw fuel env acc st = Ok acc' st' →
      mean_table env acc'.1 acc'.2.
Proof.
  intros Hs Ha Hacc.
  pose (P := λ b : gset Z * list Q * gmap Z (list Q),
               0%Z ∈ b.1.1 ∧ mean_table env b.1.2 b.2).
  assert (∀ episode, Forall (step_ok env) episode →
            ∀ b sr s1, sr ∈ episode → P b →
              (∀ e, first_visit_step env episode b sr s1 ≠ Raise e)
              ∧ ∀ b' s2, first_visit_step env episode b sr s1 = Ok b' s2 → P b')
    as Hstep.
  { intros episode Hok [[vis vals] rets] sr s1 Hin [Hz Ht]; simpl in *.
    unfold first_visit_step.
    destruct (decide (sr.1 ∈ vis)) as [Hvis|Hnew].
    - split; [discriminate|]. intros b' s2 Hb. by apply ret_Ok in Hb as [<- _].
    - assert (sr.1 ∈ states env) as Hsr.
      { rewrite Forall_forall in Hok. destruct (Hok _ Hin) as [Hzero|?]; [|done].
        by rewrite Hzero in Hnew. }
      destruct (record_return_mean_table episode sr vals rets s1 Hin Hsr Ht)
        as [Hno Hkeep].
      split.
      + intros e Hrun.
        apply bind_Raise_inv in Hrun as [Hrun|([v r] & s3 & _ & Hrun)];
          [by eapply Hno|discriminate].
      + intros [[vis' vals'] rets'] s2 Hrun.
        apply bind_Ok in Hrun as ([v r] & s3 & Hrec & Hrun).
        apply ret_Ok in Hrun as [[= <- <- <-] _]. split; [set_solver|].
        by eapply Hkeep. }
  unfold first_visit_iteration. split.
  - intros e Hrun.
    apply bind_Raise_inv in Hrun as [Hrun|(episode & st1 & Hep & Hrun)];
      [by eapply generate_random_episode_no_raise|].
    apply (ValueTable.generate_random_episode_steps gw env closed) in Hep.
    apply bind_Raise_inv in Hrun as [Hrun|([[vis vals] rets] & s2 & _ & Hrun)];
      [|discriminate].
    eapply (foldM_no_raise _ P); [|split|exact Hrun]; simpl; [|set_solver|done].
    intros; by apply Hstep.
  - intros acc' st' Hrun.
    apply bind_Ok in Hrun as (episode & st1 & Hep & Hrun).
    apply (ValueTable.generate_random_episode_steps gw env closed) in Hep.
    apply bind_Ok in Hrun as ([[vis vals] rets] & s2 & Hfold & Hrun).
    apply ret_Ok in Hrun as [<- _]. simpl.
    pose (P' := λ (b : gset Z * list Q * gmap Z (list Q)) (_ : machine), P b).
    enough (P' (vis, vals, rets) s2) as [_ ?] by done.
    eapply (foldM_inv _ P'); [| |exact Hfold]; [|split; simpl; [set_solver|done]].
    intros b sr s1 b' s3 Hin Hb Hrun'. by eapply (Hstep episode Hep b sr s1).
Qed.

(** One turn of the outer loop of [every_visit_mc]. *)
Lemma every_visit_iteration_mean_table fuel acc st :
  states env ≠ [] → actions env ≠ [] →
  mean_table env acc.1 acc.2 →
  (∀ e, every_visit_iteration gw fuel env acc st ≠ Raise e)
  ∧ ∀ acc' st', every_visit_iteration gw fuel env acc st = Ok acc' st' →
      mean_table env acc'.1 acc'.2.
Proof.
  intros Hs Ha Hacc.
  pose (P := λ b : list Q * gmap Z (list Q), mean_table env b.1 b.2).
  assert (∀ episode, Forall (step_ok env) episode →
            ∀ b sr s1, sr ∈ episode → P b →
              (∀ e, every_visit_step env episode b sr s1 ≠ Raise e)
              ∧ ∀ b' s2, every_visit_step env episode b sr s1 = Ok b' s2 → P b')
    as Hstep.
  { intros episode Hok [vals rets] sr s1 Hin Ht; unfold P in *; simpl in *.
    unfold every_visit_step. simpl.
    destruct (decide (sr.1 ≠ 0%Z)) as [Hnz|Hz].
    - assert (sr.1 ∈ states env) as Hsr.
      { rewrite Forall_forall in Hok. by destruct (Hok _ Hin) as [?|?]. }
      destruct (record_return_mean_table episode sr vals rets s1 Hin Hsr Ht)
        as [Hno Hkeep].
      split; [done|]. intros [vals' rets'] s2 Hrun. by eapply Hkeep.
    - split; [discriminate|]. intros b' s2 Hb. by apply ret_Ok in Hb as [<- _]. }
  unfold every_visit_iteration. split.
  - intros e Hrun.
    apply bind_Raise_inv in Hrun as [Hrun|(episode & st1 & Hep & Hrun)];
      [by eapply generate_random_episode_no_raise|].
    apply (ValueTable.generate_random_episode_steps gw env closed) in Hep.
    eapply (foldM_no_raise _ P); [|exact Hacc|exact Hrun].
    intros; by apply Hstep.
  - intros acc' st' Hrun.
    apply bind_Ok in Hrun as (episode & st1 & Hep & Hfold).
    apply (ValueTable.generate_random_episode_steps gw env closed) in Hep.
    pose (P' := λ (b : list Q * gmap Z (list Q)) (_ : machine), P b).
    eapply (foldM_inv _ P'); [|exact Hacc|exact Hfold].
    intros b sr s1 b' s3 Hin Hb Hrun'. by eapply (Hstep episode Hep b sr s1).
Qed.

End Closed.

(** X6.  Whatever the number of iterations, first-visit and every-visit
    prediction return tables that are in step: [returns] has exactly the
    states of the environment as keys, and the slot of each state in
    [values] holds the mean of the returns recorded for it, or 0 when none
    was recorded. *)
Theorem values_are_means_of_returns (gw env : GridWorld) (fuel num_iter : nat)
    (st : machine) (values : list Q) (returns : gmap Z (list Q)) (st' : machine) :
  env_closed gw env →
  first_visit_mc gw fuel env num_iter st = Ok (values, returns) st'
  ∨ every_visit_mc gw fuel env num_iter st = Ok (values, returns) st' →
  (∀ s, s ∈ states env ↔ is_Some (returns !! s))
  ∧ ∀ s rs, returns !! s = Some rs →
      values !! Z.to_nat s = Some (match rs with [] => 0 | _ => mean rs end).
Proof.
  intros Hclosed Hrun.
  enough (mean_table env values returns) as (_ & ? & ?) by done.
  destruct (decide (states env = [])) as [Hs|Hs].
  { (* no state: the first draw raises, so no iteration took place *)
    destruct num_iter as [|n].
    - destruct Hrun as [Hrun|Hrun]; apply ret_Ok in Hrun as [[= <- <-] _];
        by apply (initial_mean_table gw).
    - destruct Hrun as [Hrun|Hrun]; simpl in Hrun;
        apply bind_Ok in Hrun as (a & s1 & Hit & _);
        apply bind_Ok in Hit as (ep & s2 & Hep & _);
        unfold generate_random_episode in Hep; by rewrite Hs in Hep. }
  destruct (decide (actions env = [])) as [Ha|Ha].
  { destruct num_iter as [|n].
    - destruct Hrun as [Hrun|Hrun]; apply ret_Ok in Hrun as [[= <- <-] _];
        by apply (initial_mean_table gw).
    - destruct Hrun as [Hrun|Hrun]; simpl in Hrun;
        apply bind_Ok in Hrun as (a & s1 & Hit & _);
        apply bind_Ok in Hit as (ep & s2 & Hep & _);
        unfold generate_random_episode in Hep;
        apply bind_Ok in Hep as (s & s3 & _ & Hloop);
        destruct fuel; simpl in Hloop; try discriminate;
        by rewrite Ha in Hloop. }
  pose (P := λ acc : list Q * gmap Z (list Q), mean_table env acc.1 acc.2).
  change (P (values, returns)).
  destruct Hrun as [Hrun|Hrun].
  - eapply (iterate_inv _ P); [| |exact Hrun]; [|by apply (initial_mean_table gw)].
    intros a s1 a' s2 Hp Hit.
    by eapply (first_visit_iteration_mean_table gw env Hclosed fuel a s1 Hs Ha Hp).
  - eapply (iterate_inv _ P); [| |exact Hrun]; [|by apply (initial_mean_table gw)].
    intros a s1 a' s2 Hp Hit.
    by eapply (every_visit_iteration_mean_table gw env Hclosed fuel a s1 Hs Ha Hp).
Qed.

(** Every-visit prediction on the 4x4 grid, one iteration on the episode
    5 → 9 → 5 → 1 → 0. *)
Lemma values_are_means_of_returns_witness :
  ∃ values returns st',
    every_visit_mc Grid.gw 10 Grid.gw 1 (Runs.start Runs.there_and_back)
      = Ok (values, returns) st'
    ∧ (∀ s, s ∈ states Grid.gw ↔ is_Some (returns !! s))
    ∧ ∀ s rs, returns !! s = Some rs →
        values !! Z.to_nat s = Some (match rs with [] => 0 | _ => mean rs end).
Proof.
  assert (∃ values returns st',
            every_visit_mc Grid.gw 10 Grid.gw 1 (Runs.start Runs.there_and_back)
            = Ok (values, returns) st') as (values & returns & st' & Hrun).
  { eexists _, _, _. vm_compute. reflexivity. }
  exists values, returns, st'. split; [exact Hrun|].
  apply (values_are_means_of_returns Grid.gw Grid.gw 10 1
           (Runs.start Runs.there_and_back) values returns st').
  - apply (PredictionSpec.grid_closed (-1)).
  - right. exact Hrun.
Defined.

(** X7.  On an environment with at least one state and one action, whose
    states are numbered within [1 .. len(states)] and whose moves stay
    among the states and 0, first-visit and every-visit prediction raise no
    exception: no [KeyError] from [returns], no [IndexError] from [values],
    no [ValueError] from [episode.index]. *)
Theorem prediction_never_raises (gw env : GridWorld) (fuel num_iter : nat)
    (st : machine) (e : exn) :
  env_closed gw env → states env ≠ [] → actions env ≠ [] →
  first_visit_mc gw fuel env num_iter st ≠ Raise e
  ∧ every_visit_mc gw fuel env num_iter st ≠ Raise e.
Proof.
  intros Hclosed Hs Ha.
  pose (P := λ acc : list Q * gmap Z (list Q), mean_table env acc.1 acc.2).
  split.
  - eapply (iterate_no_raise _ P); [|by apply (initial_mean_table gw)].
    intros a s1 Hp.
    apply (first_visit_iteration_mean_table gw env Hclosed fuel a s1 Hs Ha Hp).
  - eapply (iterate_no_raise _ P); [|by apply (initial_mean_table gw)].
    intros a s1 Hp.
    apply (every_visit_iteration_mean_table gw env Hclosed fuel a s1 Hs Ha Hp).
Qed.

(** The 4x4 grid, whatever the draws. *)
Lemma prediction_never_raises_witness :
  first_visit_mc Grid.gw 10 Grid.gw 3 (Runs.start Runs.there_and_back) ≠ Raise KeyError
  ∧ every_visit_mc Grid.gw 10 Grid.gw 3 (Runs.start Runs.there_and_back) ≠ Raise KeyError.
Proof.
  apply (prediction_never_raises Grid.gw Grid.gw 10 3 (Runs.start Runs.there_and_back)
           KeyError).
  - apply (PredictionSpec.grid_closed (-1)).
  - simpl. discriminate.
  - simpl. discriminate.
Defined.

End Tables.

(* ------------------------------------------------------------------ *)
(** ** Notebook 2: the action-value table and the policy generators *)
(* ------------------------------------------------------------------ *)

Module TableFacts.
Import ExploringStarts Props NoRaise.

Lemma fold_insert_const `{Countable K} {V A} (key : A → K) (c : V) (l : list A) :
  ∀ (m : gmap K V) k,
    fold_left (λ m x, <[key x := c]> m) l m !! k
    = if decide (k ∈ key <$> l) then Some c else m !! k.
Proof.
  induction l as [|x l IH]; intros m k.
  - simpl. destruct (decide (k ∈ [])) as [Hin|]; [by apply elem_of_nil in Hin|done].
  - cbn [fold_left]. rewrite IH, fmap_cons.
    destruct (decide (k ∈ key <$> l)) as [Hin|Hnot],
             (decide (k ∈ key x :: (key <$> l))) as [Hin'|Hnot']; try done.
    + exfalso. apply Hnot'. by right.
    + apply elem_of_cons in Hin' as [->|?]; [|done]. by rewrite lookup_insert_eq.
    + rewrite lookup_insert_ne; [done|]. intros Heq. apply Hnot'. rewrite Heq. by left.
Qed.

(** X8.  [state_action_value] binds a pair (state, action) exactly when
    some row of [env.transitions] starts with it, and it binds every such
    pair to -1000. *)
Theorem state_action_value_lookup (env : GridWorld) (s : Z) (a : string) (q : Q) :
  state_action_value env !! (s, a) = Some q
  ↔ q = -1000 ∧ ∃ s' r, (s, a, s', r) ∈ transitions env.
Proof.
  unfold state_action_value.
  rewrite (fold_insert_const (λ tr : Z * string * Z * Q, (tr.1.1.1, tr.1.1.2))).
  rewrite lookup_empty. destruct (decide _) as [Hin|Hnot].
  - apply list_elem_of_fmap in Hin as ([[[s1 a1] s'] r] & [= <- <-] & Hin).
    split; [intros [= <-]; eauto|]. by intros [-> _].
  - split; [discriminate|]. intros [_ (s' & r & Hin)]. exfalso. apply Hnot.
    apply list_elem_of_fmap. by exists (s, a, s', r).
Qed.

Lemma forM_dict_get_missing (Qt : qtable) s acts a st :
  a ∈ acts → Qt !! (s, a) = None →
  forM (λ a, dict_get Qt (s, a)) acts st = Raise KeyError.
Proof.
  intros Ha Hnone. induction acts as [|a0 acts IH]; [by apply elem_of_nil in Ha|].
  simpl. destruct (Qt !! (s, a0)) as [q|] eqn:Hq.
  - rewrite (bind_eq _ _ st q st) by (unfold dict_get; by rewrite Hq).
    apply bind_Raise. apply IH.
    apply elem_of_cons in Ha as [->|Ha]; [congruence|done].
  - apply bind_Raise. unfold dict_get. by rewrite Hq.
Qed.

Lemma forM_dict_get_outcome (Qt : qtable) s acts st :
  (∃ qv, forM (λ a, dict_get Qt (s, a)) acts st = Ok qv st)
  ∨ forM (λ a, dict_get Qt (s, a)) acts st = Raise KeyError.
Proof.
  induction acts as [|a0 acts IH]; simpl; [left; by exists []|].
  destruct (Qt !! (s, a0)) as [q|] eqn:Hq.
  - rewrite (bind_eq _ _ st q st) by (unfold dict_get; by rewrite Hq).
    destruct IH as [[qv Hqv]|Hraise].
    + left. exists (q :: qv). by rewrite (bind_eq _ _ _ _ _ Hqv).
    + right. by apply bind_Raise.
  - right. apply bind_Raise. unfold dict_get. by rewrite Hq.
Qed.

(** X9.  [generate_greedy_policy] needs the whole table: if [Q] has no
    entry for some action of some state of the environment, the call raises
    [KeyError] and returns no policy. *)
Theorem greedy_policy_on_partial_table_raises (env : GridWorld) (Qt : qtable)
    (s : Z) (a : string) (st : machine) :
  s ∈ states env → a ∈ actions env → Qt !! (s, a) = None →
  generate_greedy_policy env Qt st = Raise KeyError.
Proof.
  intros Hs Ha Hnone. unfold generate_greedy_policy.
  generalize (∅ : policy). revert st Hs.
  generalize (states env) as l.
  induction l as [|x l IH]; intros st Hs pi0; [by apply elem_of_nil in Hs|].
  simpl. destruct (decide (x = s)) as [->|Hne].
  - apply bind_Raise. apply bind_Raise. by eapply forM_dict_get_missing.
  - destruct (forM_dict_get_outcome Qt x (actions env) st) as [[qv Hqv]|Hraise].
    + assert (∃ pi1 st1,
                (q_values ← forM (λ a, dict_get Qt (x, a)) (actions env);
                 prob ← alloc (greedy_prob q_values);
                 mret (<[x := (actions env, prob)]> pi0)) st = Ok pi1 st1)
        as (pi1 & st1 & Hstep).
      { eexists _, _. rewrite (bind_eq _ _ _ _ _ Hqv). reflexivity. }
      rewrite (bind_eq _ _ _ _ _ Hstep). apply IH.
      apply elem_of_cons in Hs as [?|?]; [congruence|done].
    + apply bind_Raise. by apply bind_Raise.
Qed.

(** The empty table on the 4x4 grid. *)
Lemma greedy_policy_on_partial_table_raises_witness :
  generate_greedy_policy Grid.gw ∅ (Runs.start []) = Raise KeyError.
Proof.
  apply (greedy_policy_on_partial_table_raises Grid.gw ∅ 1 "U" (Runs.start [])).
  - by left.
  - by left.
  - reflexivity.
Defined.

End TableFacts.

Module FreshLists.
Import ExploringStarts Props Shapes Policies.

Lemma policy_fold_apart (f : policy → Z → M policy) (acts : list string) (h0 : list (list Q)) :
  (∀ pi s st pi' st', f pi s st = Ok pi' st' →
     ∃ v, pi' = <[s := (acts, length (heap st))]> pi ∧ heap st' = heap st ++ [v]) →
  ∀ ss pi0 st pi st', foldM f ss pi0 st = Ok pi st' →
    built_apart pi0 h0 (heap st) →
    built_apart pi h0 (heap st')
    ∧ ∀ s, is_Some (pi !! s) ↔ s ∈ ss ∨ is_Some (pi0 !! s).
Proof.
  intros Hf. induction ss as [|s ss IH]; simpl; intros pi0 st pi st' Hrun Hinv.
  - apply ret_Ok in Hrun as [<- <-]. split; [done|].
    intros s. rewrite elem_of_nil. tauto.
  - apply bind_Ok in Hrun as (pi1 & st1 & Hstep & Hrun).
    destruct (Hf _ _ _ _ _ Hstep) as (v & -> & Hheap).
    apply IH in Hrun as [Hb Hdom].
    + split; [done|]. intros s'. rewrite Hdom, elem_of_cons.
      destruct (decide (s = s')) as [->|Hne].
      * rewrite lookup_insert_eq. split; [auto|]. intros _. right. eauto.
      * rewrite lookup_insert_ne by done. split; [tauto|].
        intros [[?|?]|?]; [congruence|tauto|tauto].
    + destruct Hinv as ((new & Hnew) & Hrange & Hinj). rewrite Hheap.
      split; [exists (new ++ [v]); by rewrite Hnew, app_assoc|].
      assert (length h0 ≤ length (heap st))%nat as Hle
        by (rewrite Hnew, length_app; lia).
      split.
      * intros s' e. rewrite length_app. simpl.
        destruct (decide (s = s')) as [->|Hne].
        -- rewrite lookup_insert_eq. intros [= <-]. simpl. lia.
        -- rewrite lookup_insert_ne by done. intros He.
           specialize (Hrange _ _ He). lia.
      * intros s1 s2 e1 e2.
        destruct (decide (s = s1)) as [<-|Hne1], (decide (s = s2)) as [<-|Hne2];
          rewrite ?lookup_insert_eq, ?lookup_insert_ne by done; try done.
        -- intros [= <-] He2 Heq. specialize (Hrange _ _ He2). simpl in Heq. lia.
        -- intros He1 [= <-] Heq. specialize (Hrange _ _ He1). simpl in Heq. lia.
        -- apply Hinj.
Qed.

Lemma greedy_step_alloc (env : GridWorld) (Qt : qtable) (pi : policy) (s : Z)
    (st : machine) (pi' : policy) (st' : machine) :
  (q_values ← forM (λ a, dict_get Qt (s, a)) (actions env);
   prob ← alloc (greedy_prob q_values);
   mret (<[s := (actions env, prob)]> pi)) st = Ok pi' st' →
  ∃ v, pi' = <[s := (actions env, length (heap st))]> pi ∧ heap st' = heap st ++ [v].
Proof.
  intros Hrun. apply bind_Ok in Hrun as (qv & s1 & Hqv & Hrun).
  apply forM_dict_get in Hqv as [-> _].
  apply bind_Ok in Hrun as (l & s2 & Hl & Hrun).
  apply alloc_Ok in Hl as [-> Hheap]. apply ret_Ok in Hrun as [<- <-]. eauto.
Qed.

(** X10.  Each of the three policy generators creates one new list of
    probabilities per state: in the policy it returns, every state of the
    environment (and nothing else) is bound, no two states are bound to the
    same list object, and the list objects that existed before the call are
    left as they were. *)
Theorem generated_policies_share_no_list (env : GridWorld) (Qt : qtable)
    (st : machine) (pi : policy) (st' : machine) :
  generate_random_policy env st = Ok pi st'
  ∨ generate_any_policy env st = Ok pi st'
  ∨ generate_greedy_policy env Qt st = Ok pi st' →
  built_apart pi (heap st) (heap st')
  ∧ ∀ s, is_Some (pi !! s) ↔ s ∈ states env.
Proof.
  intros Hrun.
  assert (built_apart (∅ : policy) (heap st) (heap st)) as Hinit.
  { split; [exists []; by rewrite app_nil_r|].
    split; intros *; by rewrite lookup_empty. }
  assert (∀ s : Z, s ∈ states env ∨ is_Some ((∅ : policy) !! s) ↔ s ∈ states env)
    as Hdom0.
  { intros s. rewrite lookup_empty. split; [intros [?|[? ?]]; done|auto]. }
  destruct Hrun as [Hr|[Ha|Hg]].
  - unfold generate_random_policy in Hr.
    eapply policy_fold_apart in Hr as [Hb Hdom]; [|clear; intros * Hstep|exact Hinit].
    + split; [done|]. intros s. by rewrite Hdom.
    + apply PolicySpec.random_policy_step in Hstep as (v & _ & ? & ?). eauto.
  - unfold generate_any_policy in Ha.
    eapply policy_fold_apart in Ha as [Hb Hdom]; [|clear; intros * Hstep|exact Hinit].
    + split; [done|]. intros s. by rewrite Hdom.
    + apply any_policy_step in Hstep as (v & _ & ? & ?). eauto.
  - unfold generate_greedy_policy in Hg.
    eapply policy_fold_apart in Hg as [Hb Hdom]; [|clear; intros * Hstep|exact Hinit].
    + split; [done|]. intros s. by rewrite Hdom.
    + apply greedy_step_alloc in Hstep as (v & ? & ?). eauto.
Qed.

(** The equiprobable policy of the 4x4 grid, built in an empty store. *)
Lemma generated_policies_share_no_list_witness :
  built_apart Runs.uniform_policy [] Runs.uniform_store
  ∧ ∀ s, is_Some (Runs.uniform_policy !! s) ↔ s ∈ states Grid.gw.
Proof.
  apply (generated_policies_share_no_list Grid.gw ∅ (Runs.start [])
           Runs.uniform_policy (Machine [] Runs.uniform_store)).
  left. vm_compute. reflexivity.
Defined.

End FreshLists.

(* ------------------------------------------------------------------ *)
(** ** Notebook 2: the episodes of both generators *)
(* ------------------------------------------------------------------ *)

Module EsEpisodeShape.
Import ExploringStarts Props Shapes Perturbation.

Lemma choice_p_elem {A} (xs : list A) p st x st' :
  choice_p xs p st = Ok x st' → x ∈ xs.
Proof.
  unfold choice_p. repeat (destruct (negb _) || destruct (existsb _ _)); try discriminate.
  unfold mbind, M_bind, next_draw.
  destruct (tape st) as [|[i|u] t]; try discriminate.
  destruct (xs !! i) eqn:Hi; [|discriminate]. destruct (p !! i); [|discriminate].
  destruct (Qltb 0 _); [|discriminate]. intros [= <- _].
  by eapply list_elem_of_lookup_2.
Qed.

Section Loops.
Variable gw : GridWorld.

Lemma episode_loop_walk (pi : policy) (fuel : nat) :
  ∀ current_state action episode st full st',
    episode_loop gw fuel pi current_state action episode st = Ok full st' →
    ∃ mid final,
      full = episode ++ mid ++ [final]
      ∧ es_walk gw pi current_state action (mid ++ [final])
      ∧ Forall (λ sar : step, sar.1.1 ≠ 0%Z) mid
      ∧ final.1.1 = 0%Z.
Proof.
  induction fuel as [|fuel IH]; simpl; intros cur act ep st full st' Hrun;
    [discriminate|].
  destruct (state_transition gw cur act) as [next reward] eqn:Hmove.
  apply bind_Ok in Hrun as (e & s1 & He & Hrun). apply dict_get_Ok in He as [He ->].
  apply bind_Ok in Hrun as (u & s2 & _ & Hrun).
  apply bind_Ok in Hrun as (e' & s3 & He' & Hrun). apply dict_get_Ok in He' as [He' ->].
  apply bind_Ok in Hrun as (p & s4 & _ & Hrun).
  apply bind_Ok in Hrun as (a' & s5 & Hch & Hrun). apply choice_p_elem in Hch.
  assert (∀ rest, es_walk gw pi next a' rest →
                  es_walk gw pi cur act ((next, a', reward) :: rest)) as Hstep.
  { intros rest Hrest.
    pose proof (es_walk_step gw pi cur act e' a' rest He' Hch) as Hw.
    rewrite Hmove in Hw. by apply Hw. }
  destruct (next =? 0)%Z eqn:Hz.
  - apply ret_Ok in Hrun as [<- _]. apply Z.eqb_eq in Hz.
    exists [], (next, a', reward). split; [done|]. split; [|by split].
    apply Hstep. constructor.
  - apply Z.eqb_neq in Hz.
    apply IH in Hrun as (mid & final & -> & Hwalk & Hmid & Hfinal).
    exists ((next, a', reward) :: mid), final. split; [by rewrite <- app_assoc|].
    split; [by apply Hstep|]. split; [by constructor|done].
Qed.

Lemma bounded_episode_loop_walk (pi : policy) (fuel : nat) :
  ∀ current_state action episode st full st',
    bounded_episode_loop gw fuel pi current_state action episode st = Ok full st' →
    heap st' = heap st
    ∧ ∃ mid final,
        full = episode ++ mid ++ [final]
        ∧ es_walk gw pi current_state action (mid ++ [final])
        ∧ Forall (λ sar : step, sar.1.1 ≠ 0%Z) mid
        ∧ (final.1.1 = 0%Z ∨ (50 < length full)%nat).
Proof.
  induction fuel as [|fuel IH]; simpl; intros cur act ep st full st' Hrun;
    [discriminate|].
  destruct (state_transition gw cur act) as [next reward] eqn:Hmove.
  apply bind_Ok in Hrun as (e & s1 & He & Hrun). apply dict_get_Ok in He as [He ->].
  apply bind_Ok in Hrun as (e' & s3 & He' & Hrun). apply dict_get_Ok in He' as [He' ->].
  apply bind_Ok in Hrun as (p & s4 & Hp & Hrun). apply heap_get_Ok in Hp as [_ ->].
  apply bind_Ok in Hrun as (a' & s5 & Hch & Hrun).
  pose proof (choice_p_heap _ _ _ _ _ Hch) as Hheap. apply choice_p_elem in Hch.
  assert (∀ rest, es_walk gw pi next a' rest →
                  es_walk gw pi cur act ((next, a', reward) :: rest)) as Hstep.
  { intros rest Hrest.
    pose proof (es_walk_step gw pi cur act e a' rest He Hch) as Hw.
    rewrite Hmove in Hw. by apply Hw. }
  destruct (next =? 0)%Z eqn:Hz; simpl in Hrun.
  - apply ret_Ok in Hrun as [<- <-]. apply Z.eqb_eq in Hz. split; [done|].
    exists [], (next, a', reward). split; [done|]. split; [|split; [done|by left]].
    apply Hstep. constructor.
  - apply Z.eqb_neq in Hz.
    destruct (50 <? length (ep ++ [(next, a', reward)]))%nat eqn:Hfull.
    + apply ret_Ok in Hrun as [<- <-]. apply Nat.ltb_lt in Hfull. split; [done|].
      exists [], (next, a', reward). split; [done|]. split; [|split; [done|by right]].
      apply Hstep. constructor.
    + apply IH in Hrun as (Hh & mid & final & -> & Hwalk & Hmid & Hfinal).
      split; [congruence|].
      exists ((next, a', reward) :: mid), final. split; [by rewrite <- app_assoc|].
      split; [by apply Hstep|]. split; [by constructor|done].
Qed.

End Loops.

(** X11.  An episode returned by the live [generate_episode] begins with
    the given pair and the placeholder reward -1 and follows the moves of
    [gw]: each later step holds the state and the reward
    [gw.state_transition] returns for the pair before it, with an action
    drawn from the actions of the state before it.  The episode stops one
    move short: its last pair leads into state 0 by a move whose step, and
    reward, are not part of it; no step after the first is in state 0. *)
Theorem generate_episode_stops_before_the_terminal_step (gw : GridWorld) (fuel : nat)
    (env : GridWorld) (s0 : Z) (a0 : string) (pi : policy)
    (st : machine) (episode : list step) (st' : machine) :
  generate_episode gw fuel env s0 a0 pi st = Ok episode st' →
  ∃ mid final,
    episode = (s0, a0, -1) :: mid
    ∧ es_walk gw pi s0 a0 (mid ++ [final])
    ∧ Forall (λ sar : step, sar.1.1 ≠ 0%Z) mid
    ∧ final.1.1 = 0%Z.
Proof.
  unfold generate_episode. intros Hrun.
  apply bind_Ok in Hrun as (full & s1 & Hloop & Hrun).
  apply ret_Ok in Hrun as [<- <-].
  apply episode_loop_walk in Hloop as (mid & final & -> & Hwalk & Hmid & Hfinal).
  exists mid, final. rewrite app_assoc, removelast_last. by simpl.
Qed.

(** From state 5 with action D on the 4x4 grid: the moves are
    5 → 9 → 5 → 1 → 0 and the episode holds the steps in 5, 9, 5 and 1. *)
Lemma generate_episode_stops_before_the_terminal_step_witness :
  ∃ episode st',
    generate_episode Grid.gw 10 Grid.gw 5 "D" Runs.uniform_policy
      (Machine Runs.twice_through_5 Runs.uniform_store) = Ok episode st'
    ∧ length episode = 4%nat
    ∧ ∃ mid final,
        episode = (5%Z, "D"%string, -1) :: mid
        ∧ es_walk Grid.gw Runs.uniform_policy 5 "D" (mid ++ [final])
        ∧ Forall (λ sar : step, sar.1.1 ≠ 0%Z) mid
        ∧ final.1.1 = 0%Z.
Proof.
  assert (∃ episode st',
            generate_episode Grid.gw 10 Grid.gw 5 "D" Runs.uniform_policy
              (Machine Runs.twice_through_5 Runs.uniform_store) = Ok episode st'
            ∧ length episode = 4%nat)
    as (episode & st' & Hrun & Hlen).
  { eexists _, _. split; vm_compute; reflexivity. }
  exists episode, st'. split; [exact Hrun|]. split; [exact Hlen|].
  exact (generate_episode_stops_before_the_terminal_step _ _ _ _ _ _ _ _ _ Hrun).
Defined.

(** X12.  The first definition of [generate_episode] only reads the
    policy: the store of probability lists is the same after the call.
    When it returns an episode (not [None]), the episode begins with the
    given pair, follows the moves of [gw], and includes the step that
    arrives in state 0 as its last one. *)
Theorem shadowed_generate_episode_reads_only (gw : GridWorld) (fuel : nat)
    (env : GridWorld) (s0 : Z) (a0 : string) (pi : policy)
    (st : machine) (r : option (list step)) (st' : machine) :
  generate_episode_shadowed gw fuel env s0 a0 pi st = Ok r st' →
  heap st' = heap st
  ∧ ∀ episode, r = Some episode →
      ∃ mid final,
        episode = (s0, a0, -1) :: mid ++ [final]
        ∧ es_walk gw pi s0 a0 (mid ++ [final])
        ∧ Forall (λ sar : step, sar.1.1 ≠ 0%Z) mid
        ∧ final.1.1 = 0%Z.
Proof.
  unfold generate_episode_shadowed. intros Hrun.
  apply bind_Ok in Hrun as (full & s1 & Hloop & Hrun).
  apply bounded_episode_loop_walk in Hloop
    as (Hheap & mid & final & -> & Hwalk & Hmid & Hfinal).
  destruct (50 <? length _)%nat eqn:Hfull; apply ret_Ok in Hrun as [<- <-].
  - split; [done|]. discriminate.
  - split; [done|]. intros episode [= <-]. apply Nat.ltb_ge in Hfull.
    exists mid, final. split; [done|]. split; [done|]. split; [done|].
    destruct Hfinal as [?|?]; [done|lia].
Qed.

(** From state 5 with action D on the 4x4 grid, the actions U, U, L drawn:
    the episode 5 → 9 → 5 → 1 → 0 ends with the step in state 0, and the
    fourteen lists of the policy are as before. *)
Lemma shadowed_generate_episode_reads_only_witness :
  ∃ episode st',
    generate_episode_shadowed Grid.gw 50 Grid.gw 5 "D" Runs.uniform_policy
      (Machine [Pick 0; Pick 0; Pick 2; Pick 0] Runs.uniform_store)
      = Ok (Some episode) st'
    ∧ map (λ sar : step, sar.1.1) episode = [5; 9; 5; 1; 0]%Z
    ∧ heap st' = Runs.uniform_store
    ∧ ∃ mid final,
        episode = (5%Z, "D"%string, -1) :: mid ++ [final]
        ∧ es_walk Grid.gw Runs.uniform_policy 5 "D" (mid ++ [final])
        ∧ Forall (λ sar : step, sar.1.1 ≠ 0%Z) mid
        ∧ final.1.1 = 0%Z.
Proof.
  assert (∃ episode st',
            generate_episode_shadowed Grid.gw 50 Grid.gw 5 "D" Runs.uniform_policy
              (Machine [Pick 0; Pick 0; Pick 2; Pick 0] Runs.uniform_store)
              = Ok (Some episode) st'
            ∧ map (λ sar : step, sar.1.1) episode = [5; 9; 5; 1; 0]%Z)
    as (episode & st' & Hrun & Hstates).
  { eexists _, _. split; vm_compute; reflexivity. }
  exists episode, st'. split; [exact Hrun|]. split; [exact Hstates|].
  destruct (shadowed_generate_episode_reads_only _ _ _ _ _ _ _ _ _ Hrun) as [Hheap Hshape].
  split; [exact Hheap|]. by apply Hshape.
Defined.

End EsEpisodeShape.

(* ------------------------------------------------------------------ *)
(** ** Notebook 2: the live generator on a sound policy *)
(* ------------------------------------------------------------------ *)

Module SoundPolicy.
Import ExploringStarts Props Shapes NumFacts Perturbation NoRaise.

Lemma bind_Stuck {A B} (m : M A) (f : A → M B) st :
  m st = Stuck → (m ≫= f) st = Stuck.
Proof. unfold mbind, M_bind. by intros ->. Qed.

(** One [+= .1] line on a list of four entries: it adds 0.1 somewhere, or
    the run is not one the draws describe. *)
Lemma bump_other_outcome pr v st m :
  heap st !! pr = Some v → length v = 4%nat →
  Forall (Qle 0) v → Qsum v == m →
  bump_other pr st = Stuck
  ∨ ∃ rest v', bump_other pr st = Ok () (Machine rest (<[pr := v']> (heap st)))
               ∧ length v' = 4%nat ∧ Forall (Qle 0) v' ∧ Qsum v' == m + 0.1.
Proof.
  intros Hv Hlen Hpos Hsum.
  destruct (tape st) as [|[i|u] rest] eqn:Ht.
  2: destruct (decide (i < 3)%nat) as [Hi|Hi].
  2: { right. destruct (bump_other_eq pr v st i rest m Hv Hlen Hpos Hsum Ht Hi)
         as (v' & ? & ? & ? & ?). by exists rest, v'. }
  all: left; unfold bump_other;
    rewrite (bind_eq _ _ _ _ _ (heap_get_eq _ _ _ Hv));
    destruct (argmax_is_Some v) as [k Hk]; [by destruct v|];
    pose proof (first_max_lt _ _ (argmax_spec _ _ Hk)) as Hk4; rewrite Hlen in Hk4;
    rewrite (bind_eq _ _ st k st) by (unfold np_argmax; by rewrite Hk);
    destruct (np_delete_arange4_eq k st Hk4) as (others & Hdel & Hlen3 & _);
    rewrite (bind_eq _ _ _ _ _ Hdel);
    apply bind_Stuck; unfold choice;
    destruct others as [|o others]; [discriminate|];
    unfold mbind, M_bind, next_draw; rewrite Ht; try done.
  rewrite lookup_ge_None_2; [done|]. rewrite Hlen3. lia.
Qed.

(** The three perturbation lines on a list of four probabilities: they
    leave four probabilities in its place, or the run is not one the draws
    describe; they do not raise. *)
Lemma perturb_outcome pr v st :
  heap st !! pr = Some v → length v = 4%nat → distribution v →
  perturb pr st = Stuck
  ∨ ∃ rest v', perturb pr st = Ok () (Machine rest (<[pr := v']> (heap st)))
               ∧ length v' = 4%nat ∧ distribution v'.
Proof.
  intros Hv Hlen Hdist. unfold perturb.
  assert (pr < length (heap st))%nat as Hpr by by eapply lookup_lt_Some.
  rewrite (bind_eq _ _ _ _ _ (heap_get_eq _ _ _ Hv)).
  destruct (sub_at_argmax_eq pr v st Hv Hlen Hdist)
    as (k & x & Hk & Hx & _ & Hsub & Hpos1 & Hsum1).
  rewrite (bind_eq _ _ st k st) by (unfold np_argmax; by rewrite Hk).
  rewrite (bind_eq _ _ _ _ _ Hsub).
  set (v1 := <[k := x + - 0.2]> v) in *.
  destruct (bump_other_outcome pr v1 (Machine (tape st) (<[pr := v1]> (heap st))) 0.8)
    as [Hstuck|(rest1 & v2 & Hb1 & Hlen2 & Hpos2 & Hsum2)]; simpl; try done.
  { by rewrite list_lookup_insert_eq. }
  { unfold v1. by rewrite length_insert. }
  { left. by apply bind_Stuck. }
  rewrite (bind_eq _ _ _ _ _ Hb1). simpl in Hb1 |- *.
  destruct (bump_other_outcome pr v2
              (Machine rest1 (<[pr := v2]> (<[pr := v1]> (heap st)))) (0.8 + 0.1))
    as [Hstuck|(rest2 & v3 & Hb2 & Hlen3 & Hpos3 & Hsum3)]; simpl; try done.
  { rewrite list_lookup_insert_eq; [done|]. by rewrite length_insert. }
  { by left. }
  right. exists rest2, v3. rewrite Hb2. simpl. rewrite !list_insert_insert_eq.
  split; [done|]. split; [done|]. split; [done|]. lra.
Qed.


Lemma sound_policy_insert (pi : policy) h pr v v' :
  sound_policy pi h → h !! pr = Some v →
  length v' = 4%nat → distribution v' →
  sound_policy pi (<[pr := v']> h).
Proof.
  intros Hsound Hv Hlen Hd s e He. destruct (Hsound s e He) as (H4 & w & Hw & Hlw & Hdw).
  split; [done|]. destruct (decide (e.2 = pr)) as [->|Hne].
  - exists v'. rewrite list_lookup_insert_eq by by eapply lookup_lt_Some. done.
  - exists w. by rewrite list_lookup_insert_ne.
Qed.

Section Loop.
Variables gw env : GridWorld.

Lemma episode_loop_sound (pi : policy) (fuel : nat) :
  ∀ current_state action episode st full st',
    sound_policy pi (heap st) →
    episode_loop gw fuel pi current_state action episode st = Ok full st' →
    sound_policy pi (heap st').
Proof.
  induction fuel as [|fuel IH]; simpl; intros cur act ep st full st' Hsound Hrun;
    [discriminate|].
  destruct (state_transition gw cur act) as [next reward].
  apply bind_Ok in Hrun as (e & s1 & He & Hrun). apply dict_get_Ok in He as [He ->].
  destruct (Hsound _ _ He) as (H4 & v & Hv & Hlen & Hd).
  apply bind_Ok in Hrun as (u & s2 & Hp & Hrun).
  destruct (perturb_outcome e.2 v st Hv Hlen Hd)
    as [Hstuck|(rest & v' & Hp' & Hlen' & Hd')]; [congruence|].
  rewrite Hp' in Hp. injection Hp as <- <-.
  apply bind_Ok in Hrun as (e' & s3 & He' & Hrun).
  apply dict_get_Ok in He' as [_ ->].
  apply bind_Ok in Hrun as (p & s4 & Hget & Hrun).
  apply heap_get_Ok in Hget as [_ ->].
  apply bind_Ok in Hrun as (a' & s5 & Hch & Hrun). apply choice_p_heap in Hch.
  assert (sound_policy pi (heap s5)) as Hsound'.
  { rewrite Hch. simpl. by eapply sound_policy_insert. }
  destruct (next =? 0)%Z.
  - by apply ret_Ok in Hrun as [_ <-].
  - by eapply IH.
Qed.

Hypothesis closed : env_closed gw env.


End Loop.

(** X13.  The live [generate_episode] keeps a sound policy sound: if every
    binding of the policy pairs four actions with a list of four
    probabilities (none negative, total 1) before the call, the same holds
    of the store the call leaves, however many times the lists were
    perturbed. *)
Theorem generate_episode_keeps_policy_sound (gw : GridWorld) (fuel : nat)
    (env : GridWorld) (s0 : Z) (a0 : string) (pi : policy)
    (st : machine) (episode : list step) (st' : machine) :
  sound_policy pi (heap st) →
  generate_episode gw fuel env s0 a0 pi st = Ok episode st' →
  sound_policy pi (heap st').
Proof.
  unfold generate_episode. intros Hsound Hrun.
  apply bind_Ok in Hrun as (full & s1 & Hloop & Hrun).
  apply ret_Ok in Hrun as [_ <-]. by eapply episode_loop_sound.
Qed.


(** The equiprobable policy of the 4x4 grid in its store. *)
Lemma uniform_policy_sound : sound_policy Runs.uniform_policy Runs.uniform_store.
Proof.
  intros s e He. apply elem_of_list_to_map_2 in He. cbn in He.
  repeat (apply elem_of_cons in He as [[= -> ->]|He];
    [split; [reflexivity|]; exists [0.25; 0.25; 0.25; 0.25];
     split; [reflexivity|]; split; [reflexivity|];
     split; [repeat constructor; discriminate|reflexivity]|]).
  by apply elem_of_nil in He.
Qed.


(** The equiprobable policy of the 4x4 grid, after the episode from state 5
    that perturbs the list of state 5 twice. *)
Lemma generate_episode_keeps_policy_sound_witness :
  ∃ episode st',
    generate_episode Grid.gw 10 Grid.gw 5 "D" Runs.uniform_policy
      (Machine Runs.twice_through_5 Runs.uniform_store) = Ok episode st'
    ∧ sound_policy Runs.uniform_policy (heap st').
Proof.
  assert (∃ episode st',
            generate_episode Grid.gw 10 Grid.gw 5 "D" Runs.uniform_policy
              (Machine Runs.twice_through_5 Runs.uniform_store) = Ok episode st')
    as (episode & st' & Hrun).
  { eexists _, _. vm_compute. reflexivity. }
  exists episode, st'. split; [exact Hrun|].
  apply (generate_episode_keeps_policy_sound Grid.gw 10 Grid.gw 5 "D"
           Runs.uniform_policy (Machine Runs.twice_through_5 Runs.uniform_store)
           episode st'); [|exact Hrun].
  apply uniform_policy_sound.
Defined.


End SoundPolicy.

(* ------------------------------------------------------------------ *)
(** ** Notebook 2: the update of [Q] and the control loop *)
(* ------------------------------------------------------------------ *)

Module EsUpdate.
Import ExploringStarts Props Shapes IndexFacts.

Lemma nothing_visited (x : Z * string) :
  x ∈ (∅ : gset (Z * string)) ↔ x ∈ ([] : list step).*1.
Proof.
  split; intros H; [by apply elem_of_empty in H|by apply elem_of_nil in H].
Qed.

Lemma pair_position_None sa (l : list step) :
  pair_position sa l = None ↔ sa ∉ l.*1.
Proof.
  unfold pair_position. rewrite list_index_None, Forall_forall. split.
  - intros H Hin. apply list_elem_of_fmap in Hin as ([sa' r] & -> & Hin).
    specialize (H _ Hin). simpl in H. by rewrite bool_decide_eq_false in H.
  - intros H [sa' r] Hin. simpl. apply bool_decide_eq_false. intros ->.
    apply H. apply list_elem_of_fmap. by exists (sa, r).
Qed.

Lemma pair_position_snoc sa (l : list step) sar :
  pair_position sa (l ++ [sar])
  = match pair_position sa l with
    | Some i => Some i
    | None => if decide (sar.1 = sa) then Some (length l) else None
    end.
Proof.
  unfold pair_position.
  destruct (list_index _ (sa, 0) l) as [i|] eqn:E.
  - by apply list_index_app_l.
  - rewrite list_index_app_r by done. simpl.
    destruct (decide (sar.1 = sa)) as [->|Hne].
    + rewrite bool_decide_eq_true_2 by done. simpl. by rewrite Nat.add_0_r.
    + by rewrite bool_decide_eq_false_2.
Qed.

Lemma es_step_eqb_refl (sar : step) : step_eqb sar sar = true.
Proof.
  unfold step_eqb. rewrite Z.eqb_refl, String.eqb_refl. simpl.
  apply Qeq_bool_iff. reflexivity.
Qed.

Lemma es_step_eqb_pair (x y : step) : step_eqb x y = true → x.1 = y.1.
Proof.
  unfold step_eqb. intros H.
  apply andb_true_iff in H as [H _]. apply andb_true_iff in H as [H1 H2].
  apply Z.eqb_eq in H1. apply String.eqb_eq in H2.
  destruct x as [[? ?] ?], y as [[? ?] ?]. simpl in *. congruence.
Qed.

(** In [pre ++ sar :: suf], a step whose pair does not occur in [pre] is
    found by [index] where it stands. *)
Lemma index_of_new_pair (pre suf : list step) sar :
  sar.1 ∉ pre.*1 →
  list_index step_eqb sar (pre ++ sar :: suf) = Some (length pre).
Proof.
  intros Hnew. rewrite list_index_app_r.
  - simpl. rewrite es_step_eqb_refl. simpl. by rewrite Nat.add_0_r.
  - apply list_index_None, Forall_forall. intros y Hy.
    destruct (step_eqb y sar) eqn:E; [|done].
    apply es_step_eqb_pair in E. exfalso. apply Hnew.
    apply list_elem_of_fmap. by exists y.
Qed.

Lemma es_step_Ok (env : GridWorld) (episode : list step) (visited : gset (Z * string))
    (Qt : qtable) (returns : rtable) (sar : step) (st : machine)
    (acc' : gset (Z * string) * qtable * rtable) (st' : machine) :
  es_step env episode (visited, Qt, returns) sar st = Ok acc' st' →
  st' = st
  ∧ if decide (sar.1 ∈ visited) then acc' = (visited, Qt, returns)
    else ∃ idx rs,
      list_index step_eqb sar episode = Some idx
      ∧ returns !! sar.1 = Some rs
      ∧ acc' = ({[sar.1]} ∪ visited,
                <[sar.1 := mean (rs ++ [es_return (gamma env) episode idx])]> Qt,
                <[sar.1 := rs ++ [es_return (gamma env) episode idx]]> returns).
Proof.
  unfold es_step. intros Hrun. destruct (decide (sar.1 ∈ visited)).
  - by apply ret_Ok in Hrun as [<- <-].
  - apply bind_Ok in Hrun as (idx & s1 & Hidx & Hrun).
    unfold index_or_raise in Hidx.
    destruct (list_index step_eqb sar episode) as [i|] eqn:Hi; [|discriminate].
    apply ret_Ok in Hidx as [<- <-].
    apply bind_Ok in Hrun as (rs & s2 & Hrs & Hrun).
    apply dict_get_Ok in Hrs as [Hrs ->].
    apply ret_Ok in Hrun as [<- <-]. split; [done|]. by exists i, rs.
Qed.

Lemma es_fold (env : GridWorld) (episode : list step) (Qt : qtable) (returns : rtable) :
  ∀ suf pre (visited : gset (Z * string)) (Qc : qtable) (rets : rtable) st acc' st',
    episode = pre ++ suf →
    (∀ x, x ∈ visited ↔ x ∈ pre.*1) →
    (∀ sa, pair_record env episode pre Qt returns Qc rets sa) →
    foldM (es_step env episode) suf (visited, Qc, rets) st = Ok acc' st' →
    st' = st ∧ ∀ sa, pair_record env episode episode Qt returns acc'.1.2 acc'.2 sa.
Proof.
  induction suf as [|sar suf IH]; simpl;
    intros pre visited Qc rets st acc' st' Hep Hvis Hrec Hrun.
  - apply ret_Ok in Hrun as [<- <-]. rewrite app_nil_r in Hep. by subst pre.
  - apply bind_Ok in Hrun as ([[visited1 Q1] rets1] & st1 & Hstep & Hrun).
    apply es_step_Ok in Hstep as [-> Hstep].
    eapply (IH (pre ++ [sar])); [by rewrite <- app_assoc| | |exact Hrun].
    + intros x. rewrite fmap_app, elem_of_app. simpl. rewrite list_elem_of_singleton.
      destruct (decide (sar.1 ∈ visited)) as [Hin|Hnew].
      * injection Hstep as -> -> ->. rewrite Hvis.
        split; [tauto|]. intros [?| ->]; [done|]. by apply Hvis.
      * destruct Hstep as (idx & rs & _ & _ & [= -> -> ->]).
        rewrite elem_of_union, elem_of_singleton, Hvis. tauto.
    + intros sa. specialize (Hrec sa). unfold pair_record in *.
      rewrite pair_position_snoc.
      destruct (decide (sar.1 ∈ visited)) as [Hin|Hnew].
      * injection Hstep as -> -> ->.
        destruct (pair_position sa pre) as [i|] eqn:Hpos; [done|].
        destruct (decide (sar.1 = sa)) as [Heq|Hne]; [|done].
        subst sa. apply Hvis in Hin. by apply pair_position_None in Hpos.
      * destruct Hstep as (idx & rs & Hidx & Hrs & [= -> -> ->]).
        assert (sar.1 ∉ pre.*1) as Hnotin by (intros ?; by apply Hnew, Hvis).
        rewrite Hep, (index_of_new_pair pre suf sar Hnotin) in Hidx.
        injection Hidx as <-.
        destruct (decide (sar.1 = sa)) as [Heq|Hne].
        -- subst sa. apply pair_position_None in Hnotin.
           rewrite Hnotin in Hrec |- *. destruct Hrec as [Hr _].
           exists rs. rewrite !lookup_insert_eq. by rewrite <- Hr.
        -- rewrite !lookup_insert_ne by done.
           by destruct (pair_position sa pre).
Qed.

(** X15.  The update loop of [monte_carlo_es] is first-visit on (state,
    action) pairs: for every pair of the episode it appends one return to
    the pair's list, the one accumulated from the first position of the
    pair, and sets [Q] of the pair to the mean of the list; the entries of
    every other pair, in [returns] and in [Q], are left as they were.  The
    loop draws nothing and leaves the store alone. *)
Theorem es_update_is_first_visit_on_pairs (env : GridWorld) (episode : list step)
    (Qt : qtable) (returns : rtable) (st : machine)
    (Qt' : qtable) (returns' : rtable) (st' : machine) :
  es_update env (Some episode) Qt returns st = Ok (Qt', returns') st' →
  st' = st
  ∧ ∀ sa,
      match pair_position sa episode with
      | Some i =>
          ∃ rs, returns !! sa = Some rs
                ∧ returns' !! sa = Some (rs ++ [es_return (gamma env) episode i])
                ∧ Qt' !! sa = Some (mean (rs ++ [es_return (gamma env) episode i]))
      | None => returns' !! sa = returns !! sa ∧ Qt' !! sa = Qt !! sa
      end.
Proof.
  unfold es_update. intros Hrun.
  apply bind_Ok in Hrun as ([[visited1 Q1] rets1] & st1 & Hfold & Hrun).
  apply ret_Ok in Hrun as [[= <- <-] <-].
  apply (es_fold env episode Qt returns episode [] ∅ Qt returns) in Hfold; try done.
  apply nothing_visited.
Qed.

(** The episode 2 → 1 of the grid whose moves cost 2, on the initial
    tables. *)
Lemma es_update_is_first_visit_on_pairs_witness :
  two_moves_update
  = Ok ((result_of (∅, ∅) two_moves_update).1, (result_of (∅, ∅) two_moves_update).2)
       (state_of two_moves_update)
  ∧ state_of two_moves_update = Runs.start []
  ∧ ∀ sa,
      match pair_position sa Runs.two_moves_episode with
      | Some i =>
          ∃ rs, ((λ _, []) <$> state_action_value Runs.costly_grid) !! sa = Some rs
                ∧ (result_of (∅, ∅) two_moves_update).2 !! sa
                  = Some (rs ++ [es_return (gamma Runs.costly_grid)
                                   Runs.two_moves_episode i])
                ∧ (result_of (∅, ∅) two_moves_update).1 !! sa
                  = Some (mean (rs ++ [es_return (gamma Runs.costly_grid)
                                         Runs.two_moves_episode i]))
      | None => (result_of (∅, ∅) two_moves_update).2 !! sa
                = ((λ _, []) <$> state_action_value Runs.costly_grid) !! sa
                ∧ (result_of (∅, ∅) two_moves_update).1 !! sa
                  = state_action_value Runs.costly_grid !! sa
      end.
Proof.
  assert (two_moves_update
          = Ok ((result_of (∅, ∅) two_moves_update).1,
                (result_of (∅, ∅) two_moves_update).2)
               (state_of two_moves_update)) as Hrun.
  { vm_cast_no_check (eq_refl two_moves_update). }
  split; [exact Hrun|].
  exact (es_update_is_first_visit_on_pairs _ _ _ _ _ _ _ _ Hrun).
Defined.

(** X16.  A pair of the episode that [returns] does not hold makes the
    update loop raise [KeyError]. *)
Theorem es_update_on_unknown_pair_raises (env : GridWorld) (episode : list step)
    (Qt : qtable) (returns : rtable) (st : machine) (sar : step) :
  sar ∈ episode → returns !! sar.1 = None →
  es_update env (Some episode) Qt returns st = Raise KeyError.
Proof.
  intros Hin Hnone. unfold es_update. apply bind_Raise.
  assert (∀ suf pre (visited : gset (Z * string)) (Qc : qtable) (rets : rtable),
            episode = pre ++ suf → sar ∈ suf →
            (∀ x, x ∈ visited ↔ x ∈ pre.*1) → sar.1 ∉ pre.*1 →
            rets !! sar.1 = None →
            foldM (es_step env episode) suf (visited, Qc, rets) st = Raise KeyError)
    as Hloop.
  { induction suf as [|x suf IH]; intros pre visited Qc rets Hep Hsuf Hvis Hnew Hr.
    { by apply elem_of_nil in Hsuf. }
    simpl. unfold es_step at 1.
    destruct (decide (x.1 ∈ visited)) as [Hx|Hx].
    - rewrite (bind_eq _ _ st (visited, Qc, rets) st) by done.
      apply (IH (pre ++ [x])); [by rewrite <- app_assoc| | | |done].
      + apply elem_of_cons in Hsuf as [->|?]; [|done].
        exfalso. by apply Hnew, Hvis.
      + intros y. rewrite fmap_app, elem_of_app, Hvis. simpl.
        rewrite list_elem_of_singleton. split; [tauto|].
        intros [?| ->]; [done|]. by apply Hvis.
      + rewrite fmap_app, elem_of_app. simpl. rewrite list_elem_of_singleton.
        intros [?|Heq]; [done|]. apply Hnew, Hvis. by rewrite Heq.
    - assert (x.1 ∉ pre.*1) as Hxnew by (intros ?; by apply Hx, Hvis).
      assert (list_index step_eqb x episode = Some (length pre)) as Hidx
        by (rewrite Hep; by apply index_of_new_pair).
      unfold index_or_raise. rewrite Hidx.
      destruct (rets !! x.1) as [rs|] eqn:Hrs.
      + assert (x.1 ≠ sar.1) as Hne by congruence.
        erewrite bind_eq; [|unfold dict_get, mbind, M_bind; simpl; by rewrite Hrs].
        apply (IH (pre ++ [x])); [by rewrite <- app_assoc| | | |].
        * apply elem_of_cons in Hsuf as [->|?]; [done|done].
        * intros y. rewrite elem_of_union, elem_of_singleton, fmap_app,
            elem_of_app, Hvis. simpl. rewrite list_elem_of_singleton. tauto.
        * rewrite fmap_app, elem_of_app. simpl. rewrite list_elem_of_singleton.
          intros [?|?]; [done|]. by apply Hne.
        * by rewrite lookup_insert_ne.
      + apply bind_Raise. unfold dict_get, mbind, M_bind. simpl. by rewrite Hrs. }
  apply (Hloop episode [] ∅ Qt returns); try done.
  all: simpl; try rewrite elem_of_nil; try done.
  - apply nothing_visited.
  - tauto.
Qed.

(** An episode that holds the step into state 0, as the first definition of
    [generate_episode] returns it: no row of the 4x4 grid starts in state 0,
    so that [returns] has no list for the pair (0, U). *)
Lemma es_update_on_unknown_pair_raises_witness :
  es_update Grid.gw (Some [(1%Z, "L"%string, -1); (0%Z, "U"%string, -1)])
    (state_action_value Grid.gw) ((λ _, []) <$> state_action_value Grid.gw)
    (Runs.start [])
  = Raise KeyError.
Proof.
  apply (es_update_on_unknown_pair_raises Grid.gw
           [(1%Z, "L"%string, -1); (0%Z, "U"%string, -1)]
           (state_action_value Grid.gw) ((λ _, []) <$> state_action_value Grid.gw)
           (Runs.start []) (0%Z, "U"%string, -1)).
  - right. left.
  - vm_compute. reflexivity.
Defined.

End EsUpdate.

Module ControlLoopShape.
Import ExploringStarts Props Shapes Policies TableFacts EsUpdate.

(** A run of at least one iteration ends with a turn of the body. *)
Lemma iterate_last {A} (body : A → M A) (n : nat) :
  ∀ a st a' st',
    Prediction.iterate (S n) body a st = Ok a' st' →
    ∃ b s1, body b s1 = Ok a' st'.
Proof.
  induction n as [|n IH]; intros a st a' st' Hrun.
  - simpl in Hrun. apply bind_Ok in Hrun as (a1 & s1 & Hbody & Hrun).
    apply ret_Ok in Hrun as [<- <-]. by exists a, st.
  - change (Prediction.iterate (S (S n)) body a)
      with (a1 ← body a; Prediction.iterate (S n) body a1) in Hrun.
    apply bind_Ok in Hrun as (a1 & s1 & _ & Hrun). by eapply IH.
Qed.

Section Generator.
Variable episode_generator : GridWorld → Z → string → policy → M (option (list step)).

Lemma es_iteration_same_keys (env : GridWorld) acc st acc' st' :
  same_keys env acc →
  es_iteration episode_generator env acc st = Ok acc' st' →
  same_keys env acc'.
Proof.
  destruct acc as [[Qt returns] pi]. intros Hkeys Hrun. unfold es_iteration in Hrun.
  apply bind_Ok in Hrun as (s0 & s1 & _ & Hrun).
  apply bind_Ok in Hrun as (a0 & s2 & _ & Hrun).
  apply bind_Ok in Hrun as (episode & s3 & _ & Hrun).
  apply bind_Ok in Hrun as ([Q1 r1] & s4 & Hup & Hrun).
  apply bind_Ok in Hrun as (pi1 & s5 & _ & Hrun).
  apply ret_Ok in Hrun as [<- _].
  destruct episode as [episode|]; [|discriminate]. unfold es_update in Hup.
  apply bind_Ok in Hup as ([[visited2 Q2] r2] & s6 & Hfold & Hup).
  apply ret_Ok in Hup as [[= <- <-] _].
  apply (es_fold env episode Qt returns episode [] ∅ Qt returns) in Hfold
    as [_ Hrec]; try done.
  2: { apply nothing_visited. }
  intros sa. specialize (Hrec sa). specialize (Hkeys sa). simpl in *.
  unfold pair_record in Hrec. destruct (pair_position sa episode).
  - destruct Hrec as (rs & Hrs & -> & ->).
    assert (is_Some (returns !! sa)) as Hsome by by rewrite Hrs.
    apply Hkeys in Hsome. split; (split; [done|by eexists]).
  - destruct Hrec as [-> ->]. done.
Qed.

End Generator.

(** X17.  [monte_carlo_es] neither adds a pair to [Q] nor drops one: the
    table it returns holds exactly the pairs (state, action) that start a
    row of [env.transitions]. *)
Theorem monte_carlo_es_keeps_the_keys_of_Q
    (episode_generator : GridWorld → Z → string → policy → M (option (list step)))
    (env : GridWorld) (num_iter : nat) (st : machine)
    (Qt : qtable) (pi : policy) (st' : machine) :
  monte_carlo_es_with episode_generator env num_iter st = Ok (Qt, pi) st' →
  ∀ s a, is_Some (Qt !! (s, a)) ↔ ∃ s' r, (s, a, s', r) ∈ transitions env.
Proof.
  unfold monte_carlo_es_with. intros Hrun s a.
  apply bind_Ok in Hrun as (pi0 & s1 & _ & Hrun).
  apply bind_Ok in Hrun as ([[Q1 r1] pi1] & s2 & Hit & Hrun).
  apply ret_Ok in Hrun as [[= <- <-] _].
  eapply (iterate_inv _ (same_keys env)) in Hit.
  - destruct (Hit (s, a)) as [-> _]. simpl. unfold state_action_value.
    rewrite (fold_insert_const (λ tr : Z * string * Z * Q, (tr.1.1.1, tr.1.1.2))).
    rewrite lookup_empty. destruct (decide _) as [Hin|Hnot].
    + apply list_elem_of_fmap in Hin as ([[[s1' a1] s'] r] & [= <- <-] & Hin).
      split; [eauto|]. by eexists.
    + split; [by intros [? ?]|]. intros (s' & r & Hin). exfalso. apply Hnot.
      apply list_elem_of_fmap. by exists (s, a, s', r).
  - intros acc sa acc' sa' Hkeys Hstep. by eapply es_iteration_same_keys.
  - intros sa. simpl. rewrite lookup_fmap, fmap_is_Some. done.
Qed.

(** One iteration on the grid whose moves cost 2. *)
Lemma monte_carlo_es_keeps_the_keys_of_Q_witness :
  two_moves_run
  = Ok ((result_of (∅, ∅) two_moves_run).1, (result_of (∅, ∅) two_moves_run).2)
       (state_of two_moves_run)
  ∧ ∀ s a, is_Some ((result_of (∅, ∅) two_moves_run).1 !! (s, a))
           ↔ ∃ s' r, (s, a, s', r) ∈ transitions Runs.costly_grid.
Proof.
  assert (two_moves_run
          = Ok ((result_of (∅, ∅) two_moves_run).1, (result_of (∅, ∅) two_moves_run).2)
               (state_of two_moves_run)) as Hrun.
  { vm_cast_no_check (eq_refl two_moves_run). }
  split; [exact Hrun|].
  exact (monte_carlo_es_keeps_the_keys_of_Q _ _ _ _ _ _ _ Hrun).
Defined.

(** X18.  After at least one iteration, the policy [monte_carlo_es]
    returns is the greedy policy of the table it returns: every state is
    bound to probability 1 on the first action of maximal [Q] and to 0 on
    the others, in list objects of the final store. *)
Theorem monte_carlo_es_returns_the_greedy_policy
    (episode_generator : GridWorld → Z → string → policy → M (option (list step)))
    (env : GridWorld) (n : nat) (st : machine)
    (Qt : qtable) (pi : policy) (st' : machine) :
  monte_carlo_es_with episode_generator env (S n) st = Ok (Qt, pi) st' →
  policy_with (greedy_for env Qt) env pi (heap st').
Proof.
  unfold monte_carlo_es_with. intros Hrun.
  apply bind_Ok in Hrun as (pi0 & s1 & _ & Hrun).
  apply bind_Ok in Hrun as ([[Q1 r1] pi1] & s2 & Hit & Hrun).
  apply ret_Ok in Hrun as [[= <- <-] <-].
  apply iterate_last in Hit as ([[Q0 r0] p0] & s3 & Hbody).
  unfold es_iteration in Hbody.
  apply bind_Ok in Hbody as (s0 & s4 & _ & Hbody).
  apply bind_Ok in Hbody as (a0 & s5 & Ha0 & Hbody).
  apply choice_elem in Ha0 as [Ha0 _].
  apply bind_Ok in Hbody as (episode & s6 & _ & Hbody).
  apply bind_Ok in Hbody as ([Q2 r2] & s7 & _ & Hbody).
  apply bind_Ok in Hbody as (pi2 & s8 & Hgreedy & Hbody).
  apply ret_Ok in Hbody as [[= <- _ <-] <-].
  unfold generate_greedy_policy in Hgreedy.
  eapply policy_fold_with; [|exact Hgreedy].
  intros pi3 s s9 pi4 s10 Hstep. apply greedy_policy_step in Hstep; [done|].
  intros Hnil. rewrite Hnil in Ha0. by apply elem_of_nil in Ha0.
Qed.

(** One iteration on the grid whose moves cost 2. *)
Lemma monte_carlo_es_returns_the_greedy_policy_witness :
  two_moves_run
  = Ok ((result_of (∅, ∅) two_moves_run).1, (result_of (∅, ∅) two_moves_run).2)
       (state_of two_moves_run)
  ∧ policy_with (greedy_for Runs.costly_grid (result_of (∅, ∅) two_moves_run).1)
      Runs.costly_grid (result_of (∅, ∅) two_moves_run).2
      (heap (state_of two_moves_run)).
Proof.
  assert (two_moves_run
          = Ok ((result_of (∅, ∅) two_moves_run).1, (result_of (∅, ∅) two_moves_run).2)
               (state_of two_moves_run)) as Hrun.
  { vm_cast_no_check (eq_refl two_moves_run). }
  split; [exact Hrun|].
  exact (monte_carlo_es_returns_the_greedy_policy _ _ _ _ _ _ _ Hrun).
Defined.

End ControlLoopShape.

(* ------------------------------------------------------------------ *)
(** ** Notebook 1: the two variants side by side *)
(* ------------------------------------------------------------------ *)

Module Variants.
Import Prediction Props Shapes.

Lemma bind_out {A B} (m : M A) (f : A → M B) st :
  (m ≫= f) st
  = match m st with
    | Ok a s => f a s
    | Raise e => Raise e
    | Stuck => Stuck
    | NoFuel => NoFuel
    end.
Proof. unfold mbind, M_bind. by destruct (m st). Qed.

(** The two [for s, r in episode] loops, on steps none of which repeats a
    state: the first-visit test lets through exactly the steps outside
    state 0. *)
Lemma visit_folds_agree (env : GridWorld) (episode : list step) :
  ∀ (suf : list step) (visited : gset Z) (values : list Q)
    (returns : gmap Z (list Q)) (st : machine),
    (∀ sr, sr ∈ suf → sr.1 ∈ visited ↔ sr.1 = 0%Z) →
    NoDup suf.*1 →
    (acc ← foldM (first_visit_step env episode) suf (visited, values, returns);
     mret (acc.1.2, acc.2)) st
    = foldM (every_visit_step env episode) suf (values, returns) st.
Proof.
  induction suf as [|sr suf IH]; intros visited values returns st Hvis Hnodup.
  - reflexivity.
  - cbn [foldM]. rewrite fmap_cons in Hnodup. apply NoDup_cons in Hnodup as [Hfresh Hnodup].
    rewrite !bind_out. unfold first_visit_step, every_visit_step. simpl.
    destruct (decide (sr.1 ∈ visited)) as [Hin|Hnew].
    + apply Hvis in Hin; [|by left].
      destruct (decide (sr.1 ≠ 0%Z)) as [?|_]; [done|].
      change ((mret (visited, values, returns) : M _) st)
        with (Ok (visited, values, returns) st).
      change ((mret (values, returns) : M _) st) with (Ok (values, returns) st).
      cbv iota beta. rewrite <- bind_out. apply IH; [|done].
      intros sr' Hsr'. apply Hvis. by right.
    + destruct (decide (sr.1 ≠ 0%Z)) as [Hnz|Hz].
      2: { exfalso. apply Hnew, Hvis; [by left|]. by destruct (decide (sr.1 = 0%Z)). }
      rewrite bind_out.
      destruct (record_return env episode sr values returns st)
        as [[values1 returns1] st1| | |]; try done.
      change ((mret ({[sr.1]} ∪ visited, values1, returns1) : M _) st1)
        with (Ok ({[sr.1]} ∪ visited, values1, returns1) st1).
      cbv iota beta. rewrite <- bind_out. apply IH; [|done].
      intros sr' Hsr'. rewrite elem_of_union, elem_of_singleton.
      assert (sr'.1 ≠ sr.1) as Hne.
      { intros Heq. apply Hfresh. rewrite <- Heq. apply list_elem_of_fmap. by exists sr'. }
      rewrite (Hvis sr') by by right. tauto.
Qed.

(** X19.  On an episode in which no state occurs twice, an iteration of
    first-visit prediction and an iteration of every-visit prediction do
    the same: the same tables, or the same exception. *)
Theorem variants_agree_without_repeats (gw : GridWorld) (fuel : nat) (env : GridWorld)
    (acc : list Q * gmap Z (list Q)) (st : machine)
    (episode : list step) (st' : machine) :
  generate_random_episode gw fuel env st = Ok episode st' →
  NoDup episode.*1 →
  first_visit_iteration gw fuel env acc st = every_visit_iteration gw fuel env acc st.
Proof.
  intros Hep Hnodup. unfold first_visit_iteration, every_visit_iteration.
  rewrite !(bind_eq _ _ _ _ _ Hep). destruct acc as [values returns]. simpl.
  rewrite <- (visit_folds_agree env episode episode {[0%Z]} values returns st');
    [|by intros sr _; rewrite elem_of_singleton|done].
  rewrite !bind_out.
  by destruct (foldM _ _ _ _) as [[[? ?] ?] ?| | |].
Qed.

(** The episode 5 → 1 → 0 of the 4x4 grid. *)
Lemma variants_agree_without_repeats_witness :
  first_visit_iteration Grid.gw 10 Grid.gw (value_array Grid.gw, empty_returns Grid.gw)
    (Runs.start [Pick 4; Pick 0; Pick 2])
  = every_visit_iteration Grid.gw 10 Grid.gw (value_array Grid.gw, empty_returns Grid.gw)
      (Runs.start [Pick 4; Pick 0; Pick 2]).
Proof.
  apply (variants_agree_without_repeats Grid.gw 10 Grid.gw
           (value_array Grid.gw, empty_returns Grid.gw)
           (Runs.start [Pick 4; Pick 0; Pick 2])
           [(5%Z, -1); (1%Z, -1); (0%Z, -1)] (Runs.start [])).
  - vm_compute. reflexivity.
  - apply (bool_decide_unpack _). vm_compute. reflexivity.
Defined.

End Variants.

(* ------------------------------------------------------------------ *)
(** ** Notebook 2: the control loop raises nothing *)
(* ------------------------------------------------------------------ *)

Module ControlSafety.
Import ExploringStarts Props Shapes NumFacts Policies IndexFacts NoRaise.
Import EsEpisodeShape SoundPolicy EsUpdate Variants.







Section Loop.
Variables gw env : GridWorld.
Hypothesis closed : env_closed gw env.


End Loop.








End ControlSafety.
